(** * LLM Lab: the security service, the API service and the benchmark engine

    A shallow embedding of the parts of the dashboard that carry logic:
    [src/services/securityService.ts], [src/services/apiService.ts] with
    its variant over the security service, [src/utils/benchmarkEngine.ts]
    and the task form of [src/components/TaskSelector.tsx].

    Conventions of the embedding.
    - A JavaScript string is the list of its UTF-16 code units ([list N]);
      literals are written [lit "..."].
    - Integers ([length], token counts, millisecond clock readings) are [Z];
      prices, qualities and scores are rationals ([Q]), the exact values the
      floating-point code approximates.
    - [Date.now()] is an explicit clock reading passed to the operation.
    - [localStorage] and the rate-limit [Map] are finite maps ([gmap]).
    - A [try]/[catch] is a [match] on the outcome of the guarded code. *)

From Stdlib Require Import ZArith NArith QArith Qminmax Qround Lia Lqa Bool.
From Stdlib Require Import Strings.String Strings.Ascii.
From stdpp Require Import base option list sorting gmap.

Local Open Scope Z_scope.
#[local] Set Warnings "-clear-no-such-hyp".
#[local] Set Warnings "-register-all".

(** ** JavaScript strings *)

Module JS.

Abbreviation jsstring := (list N).

(** The code units of an ASCII literal. *)
Definition lit (s : string) : jsstring :=
  map N_of_ascii (list_ascii_of_string s).

(** [WhiteSpace] and [LineTerminator] of ECMAScript, the characters
    [String.prototype.trim] strips. *)
Definition isWhiteSpace (c : N) : bool :=
  ((9 <=? c) && (c <=? 13) || (c =? 32) || (c =? 160) || (c =? 5760)
   || (8192 <=? c) && (c <=? 8202) || (c =? 8232) || (c =? 8233)
   || (c =? 8239) || (c =? 8287) || (c =? 12288) || (c =? 65279))%N.

Fixpoint trimStart (s : jsstring) : jsstring :=
  match s with
  | c :: s' => if isWhiteSpace c then trimStart s' else s
  | [] => []
  end.

Definition trimEnd (s : jsstring) : jsstring := reverse (trimStart (reverse s)).

Definition trim (s : jsstring) : jsstring := trimEnd (trimStart s).

(** [s.startsWith(p)], returning the rest of [s] after [p]. *)
Fixpoint stripPrefix (p s : jsstring) : option jsstring :=
  match p, s with
  | [], _ => Some s
  | a :: p', b :: s' => if (a =? b)%N then stripPrefix p' s' else None
  | _ :: _, [] => None
  end.

(** [s.includes(p)]. *)
Fixpoint includes (s p : jsstring) : bool :=
  match stripPrefix p s with
  | Some _ => true
  | None => match s with
            | _ :: s' => includes s' p
            | [] => false
            end
  end.

(** [s.replace(p, r)] with a string pattern: the first occurrence only. *)
Fixpoint replaceFirst (p r s : jsstring) : jsstring :=
  match stripPrefix p s with
  | Some rest => r ++ rest
  | None => match s with
            | c :: s' => c :: replaceFirst p r s'
            | [] => []
            end
  end.

(** [s.replace(/c/g, r)] for a one-character pattern [c]. *)
Fixpoint replaceAll (c : N) (r s : jsstring) : jsstring :=
  match s with
  | x :: s' => (if (x =? c)%N then r else [x]) ++ replaceAll c r s'
  | [] => []
  end.

(** [s.split(c).length] for a one-character separator [c]. *)
Definition splitLength (c : N) (s : jsstring) : Z :=
  Z.of_nat (length (filter (λ x, x = c) s)) + 1.

(** [s.toLowerCase()] on the letters A-Z; other code units are kept (the
    provider names of the application are ASCII). *)
Definition toLowerCase (s : jsstring) : jsstring :=
  map (λ c, if ((65 <=? c) && (c <=? 90))%N then (c + 32)%N else c) s.

(** The length of a string, as a JavaScript number. *)
Definition jslength (s : jsstring) : Z := Z.of_nat (length s).

(** What a dynamically typed argument can be; only strings carry data. *)
Inductive jsvalue :=
  | VUndefined
  | VNull
  | VBoolean (b : bool)
  | VNumber (n : Z)
  | VString (s : jsstring)
  | VObject.

(** *** Numbers *)

(** [ToInt32]: what the bitwise operators make of a number. *)
Definition toInt32 (z : Z) : Z := (z + 2 ^ 31) mod 2 ^ 32 - 2 ^ 31.

(** The digit characters [0-9a-z] of [Number.prototype.toString(radix)]. *)
Definition digitChar (d : Z) : N :=
  if d <? 10 then Z.to_N (48 + d) else Z.to_N (87 + d).

Fixpoint digitsOf (fuel : nat) (radix n : Z) (acc : jsstring) : jsstring :=
  match fuel with
  | O => acc
  | S fuel' =>
      let acc' := digitChar (n mod radix) :: acc in
      if n / radix =? 0 then acc' else digitsOf fuel' radix (n / radix) acc'
  end.

(** [n.toString(radix)] for an integer [n]. *)
Definition toStringRadix (radix n : Z) : jsstring :=
  let digits := digitsOf (S (Z.to_nat (Z.log2 (Z.abs n)))) radix (Z.abs n) [] in
  if n <? 0 then 45%N :: digits else digits.

(** *** JSON

    The values [JSON.parse] produces.  Numbers are integers (the stored data
    holds key strings, task texts and millisecond time stamps); an object is
    the list of its members in the order of the text.  The model follows the
    language on the values that are [plain], below: integers of at most 2^53
    in absolute value, which a double holds exactly and which are printed in
    plain digits, and objects whose member names are distinct and none of
    them a number, so that no member is merged with another or moved to the
    front. *)
Inductive json :=
  | JNull
  | JBool (b : bool)
  | JNum (n : Z)
  | JStr (s : jsstring)
  | JArr (items : list json)
  | JObj (members : list (jsstring * json)).

(** [ToBoolean]. *)
Definition truthy (v : json) : bool :=
  match v with
  | JNull => false
  | JBool b => b
  | JNum n => negb (n =? 0)
  | JStr s => negb (bool_decide (s = []))
  | JArr _ | JObj _ => true
  end.

(** Reading a property [d.k]. *)
Inductive property :=
  | TypeError            (* [d] is [null] *)
  | Undefined            (* no such property *)
  | Value (v : json).

Fixpoint lookupMember (k : jsstring) (ms : list (jsstring * json)) : option json :=
  match ms with
  | [] => None
  | (k', v) :: ms' =>
      match lookupMember k ms' with
      | Some w => Some w            (* a later member of the same name wins *)
      | None => if bool_decide (k' = k) then Some v else None
      end
  end.

Definition getProp (d : json) (k : jsstring) : property :=
  match d with
  | JNull => TypeError
  | JObj ms => match lookupMember k ms with Some v => Value v | None => Undefined end
  | _ => Undefined
  end.

(** [!p] for a property read. *)
Definition falsy (p : property) : bool :=
  match p with
  | Value v => negb (truthy v)
  | _ => true
  end.

(** **** [JSON.stringify] *)

Definition isHighSurrogate (c : N) : bool := ((55296 <=? c) && (c <=? 56319))%N.
Definition isLowSurrogate (c : N) : bool := ((56320 <=? c) && (c <=? 57343))%N.

Definition hexChar (d : N) : N := digitChar (Z.of_N d).

(** The escape [\uXXXX] of a code unit. *)
Definition unicodeEscape (c : N) : jsstring :=
  [92; 117; hexChar (c / 4096 mod 16); hexChar (c / 256 mod 16);
   hexChar (c / 16 mod 16); hexChar (c mod 16)]%N.

(** [QuoteJSONString] without the enclosing quotes: the two-character
    escapes, [\uXXXX] for the other control characters and for unpaired
    surrogates, everything else as it is. *)
Fixpoint quoteChars (s : jsstring) : jsstring :=
  match s with
  | [] => []
  | c :: s' =>
      if (c =? 34)%N then [92; 34]%N ++ quoteChars s'
      else if (c =? 92)%N then [92; 92]%N ++ quoteChars s'
      else if (c =? 8)%N then [92; 98]%N ++ quoteChars s'
      else if (c =? 9)%N then [92; 116]%N ++ quoteChars s'
      else if (c =? 10)%N then [92; 110]%N ++ quoteChars s'
      else if (c =? 12)%N then [92; 102]%N ++ quoteChars s'
      else if (c =? 13)%N then [92; 114]%N ++ quoteChars s'
      else if (c <? 32)%N then unicodeEscape c ++ quoteChars s'
      else if isHighSurrogate c then
        match s' with
        | d :: s'' =>
            if isLowSurrogate d then c :: d :: quoteChars s''
            else unicodeEscape c ++ quoteChars s'
        | [] => unicodeEscape c
        end
      else if isLowSurrogate c then unicodeEscape c ++ quoteChars s'
      else c :: quoteChars s'
  end.

Definition quote (s : jsstring) : jsstring := 34%N :: quoteChars s ++ [34%N].

(** [items.join(",")]. *)
Fixpoint joinComma (items : list jsstring) : jsstring :=
  match items with
  | [] => []
  | [x] => x
  | x :: rest => x ++ 44%N :: joinComma rest
  end.

(** [JSON.stringify(v)].  An integer is printed in plain digits, as the
    language prints the integers a double holds exactly, below 10^21. *)
Fixpoint JSON_stringify (v : json) : jsstring :=
  match v with
  | JNull => lit "null"
  | JBool true => lit "true"
  | JBool false => lit "false"
  | JNum n => toStringRadix 10 n
  | JStr s => quote s
  | JArr items => 91%N :: joinComma (map JSON_stringify items) ++ [93%N]
  | JObj members =>
      123%N :: joinComma (map (λ m, quote m.1 ++ 58%N :: JSON_stringify m.2) members)
      ++ [125%N]
  end.

(** **** [JSON.parse] *)

Definition isJsonWs (c : N) : bool :=
  ((c =? 32) || (c =? 9) || (c =? 10) || (c =? 13))%N.

Fixpoint skipWs (s : jsstring) : jsstring :=
  match s with
  | c :: s' => if isJsonWs c then skipWs s' else s
  | [] => []
  end.

Definition isDigit (c : N) : bool := ((48 <=? c) && (c <=? 57))%N.

Definition hexValue (c : N) : option N :=
  if isDigit c then Some (c - 48)%N
  else if ((97 <=? c) && (c <=? 102))%N then Some (c - 87)%N
  else if ((65 <=? c) && (c <=? 70))%N then Some (c - 55)%N
  else None.

(** The characters of a string literal up to its closing quote. *)
Fixpoint parseChars (s : jsstring) : option (jsstring * jsstring) :=
  match s with
  | [] => None
  | c :: rest =>
      if (c =? 34)%N then Some ([], rest)
      else if (c =? 92)%N then
        match rest with
        | e :: rest' =>
            let simple (x : N) := p ← parseChars rest'; Some (x :: p.1, p.2) in
            if (e =? 34)%N then simple 34%N
            else if (e =? 92)%N then simple 92%N
            else if (e =? 47)%N then simple 47%N
            else if (e =? 98)%N then simple 8%N
            else if (e =? 102)%N then simple 12%N
            else if (e =? 110)%N then simple 10%N
            else if (e =? 114)%N then simple 13%N
            else if (e =? 116)%N then simple 9%N
            else if (e =? 117)%N then
              match rest' with
              | h3 :: h2 :: h1 :: h0 :: rest'' =>
                  d3 ← hexValue h3; d2 ← hexValue h2;
                  d1 ← hexValue h1; d0 ← hexValue h0;
                  p ← parseChars rest'';
                  Some ((d3 * 4096 + d2 * 256 + d1 * 16 + d0)%N :: p.1, p.2)
              | _ => None
              end
            else None
        | [] => None
        end
      else if (c <? 32)%N then None
      else p ← parseChars rest; Some (c :: p.1, p.2)
  end.

(** The digits at the head of [s], and what follows them. *)
Fixpoint spanDigits (s : jsstring) : jsstring * jsstring :=
  match s with
  | c :: s' =>
      if isDigit c then let p := spanDigits s' in (c :: p.1, p.2) else ([], s)
  | [] => ([], [])
  end.

Definition digitsValue (ds : jsstring) : Z :=
  fold_left (λ acc c, acc * 10 + (Z.of_N c - 48)) ds 0.

(** An integer literal: no leading zero, and neither a fraction nor an
    exponent after it (those are outside the modelled values: such a text is
    not read, though it is JSON; see [isJSONText]). *)
Definition parseNatural (s : jsstring) : option (Z * jsstring) :=
  match spanDigits s with
  | ([], _) => None
  | (d :: ds, rest) =>
      if (d =? 48)%N && negb (bool_decide (ds = [])) then None
      else match rest with
           | c :: _ =>
               if ((c =? 46) || (c =? 101) || (c =? 69))%N then None
               else Some (digitsValue (d :: ds), rest)
           | [] => Some (digitsValue (d :: ds), rest)
           end
  end.

Definition parseNumber (s : jsstring) : option (Z * jsstring) :=
  match s with
  | c :: s' =>
      if (c =? 45)%N then p ← parseNatural s'; Some (- p.1, p.2)
      else parseNatural s
  | [] => None
  end.

Definition parseLiteral (word : string) (v : json) (s : jsstring)
  : option (json * jsstring) :=
  rest ← stripPrefix (lit word) s; Some (v, rest).

Fixpoint parseValue (fuel : nat) (s : jsstring) : option (json * jsstring) :=
  match fuel with
  | O => None
  | S fuel' =>
      match skipWs s with
      | [] => None
      | c :: rest =>
          if (c =? 110)%N then parseLiteral "ull" JNull rest
          else if (c =? 116)%N then parseLiteral "rue" (JBool true) rest
          else if (c =? 102)%N then parseLiteral "alse" (JBool false) rest
          else if (c =? 34)%N then p ← parseChars rest; Some (JStr p.1, p.2)
          else if (c =? 91)%N then
            match skipWs rest with
            | d :: rest' =>
                if (d =? 93)%N then Some (JArr [], rest')
                else p ← parseElements fuel' rest; Some (JArr p.1, p.2)
            | [] => None
            end
          else if (c =? 123)%N then
            match skipWs rest with
            | d :: rest' =>
                if (d =? 125)%N then Some (JObj [], rest')
                else p ← parseMembers fuel' rest; Some (JObj p.1, p.2)
            | [] => None
            end
          else p ← parseNumber (c :: rest); Some (JNum p.1, p.2)
      end
  end
with parseElements (fuel : nat) (s : jsstring) : option (list json * jsstring) :=
  match fuel with
  | O => None
  | S fuel' =>
      p ← parseValue fuel' s;
      match skipWs p.2 with
      | d :: rest =>
          if (d =? 44)%N then q ← parseElements fuel' rest; Some (p.1 :: q.1, q.2)
          else if (d =? 93)%N then Some ([p.1], rest)
          else None
      | [] => None
      end
  end
with parseMembers (fuel : nat) (s : jsstring)
  : option (list (jsstring * json) * jsstring) :=
  match fuel with
  | O => None
  | S fuel' =>
      match skipWs s with
      | q :: s1 =>
          if (q =? 34)%N then
            k ← parseChars s1;
            match skipWs k.2 with
            | colon :: s2 =>
                if (colon =? 58)%N then
                  p ← parseValue fuel' s2;
                  match skipWs p.2 with
                  | d :: rest =>
                      if (d =? 44)%N then
                        ms ← parseMembers fuel' rest;
                        Some ((k.1, p.1) :: ms.1, ms.2)
                      else if (d =? 125)%N then Some ([(k.1, p.1)], rest)
                      else None
                  | [] => None
                  end
                else None
            | [] => None
            end
          else None
      | [] => None
      end
  end.

(** [JSON.parse(text)]; [None] is a [SyntaxError], or a text with a number
    that has a fraction or an exponent, which the model does not read. *)
Definition JSON_parse (text : jsstring) : option json :=
  p ← parseValue (S (length text)) text;
  match skipWs p.2 with
  | [] => Some p.1
  | _ :: _ => None
  end.

(** **** The grammar of JSON

    [isJSONText] tells whether [JSON.parse] accepts a text, over the whole
    grammar, fractions and exponents included: the scanner goes the way of
    the parser and keeps what follows the value.  With [fractions] off it
    accepts the numbers the parser reads and no others. *)

(** One digit or more. *)
Definition scanDigits (s : jsstring) : option jsstring :=
  match spanDigits s with
  | ([], _) => None
  | (_ :: _, rest) => Some rest
  end.

(** [( . digits )?] *)
Definition scanFraction (s : jsstring) : option jsstring :=
  match s with
  | c :: s' => if (c =? 46)%N then scanDigits s' else Some s
  | [] => Some s
  end.

(** [( [eE] [+-]? digits )?] *)
Definition scanExponent (s : jsstring) : option jsstring :=
  match s with
  | c :: s' =>
      if ((c =? 101) || (c =? 69))%N then
        match s' with
        | sign :: s'' =>
            if ((sign =? 43) || (sign =? 45))%N then scanDigits s'' else scanDigits s'
        | [] => None
        end
      else Some s
  | [] => Some s
  end.

(** Neither a fraction nor an exponent. *)
Definition scanNeither (s : jsstring) : option jsstring :=
  match s with
  | c :: _ => if ((c =? 46) || (c =? 101) || (c =? 69))%N then None else Some s
  | [] => Some s
  end.

(** [-? ( 0 | [1-9] digits ) fraction? exponent?] *)
Definition scanNumber (fractions : bool) (s : jsstring) : option jsstring :=
  let body := match s with
              | c :: s' => if (c =? 45)%N then s' else s
              | [] => []
              end in
  match spanDigits body with
  | ([], _) => None
  | (d :: ds, rest) =>
      if (d =? 48)%N && negb (bool_decide (ds = [])) then None
      else if fractions then rest ← scanFraction rest; scanExponent rest
      else scanNeither rest
  end.

Fixpoint scanValue (fractions : bool) (fuel : nat) (s : jsstring) : option jsstring :=
  match fuel with
  | O => None
  | S fuel' =>
      match skipWs s with
      | [] => None
      | c :: rest =>
          if (c =? 110)%N then stripPrefix (lit "ull") rest
          else if (c =? 116)%N then stripPrefix (lit "rue") rest
          else if (c =? 102)%N then stripPrefix (lit "alse") rest
          else if (c =? 34)%N then p ← parseChars rest; Some p.2
          else if (c =? 91)%N then
            match skipWs rest with
            | d :: rest' =>
                if (d =? 93)%N then Some rest' else scanElements fractions fuel' rest
            | [] => None
            end
          else if (c =? 123)%N then
            match skipWs rest with
            | d :: rest' =>
                if (d =? 125)%N then Some rest' else scanMembers fractions fuel' rest
            | [] => None
            end
          else scanNumber fractions (c :: rest)
      end
  end
with scanElements (fractions : bool) (fuel : nat) (s : jsstring) : option jsstring :=
  match fuel with
  | O => None
  | S fuel' =>
      after ← scanValue fractions fuel' s;
      match skipWs after with
      | d :: rest =>
          if (d =? 44)%N then scanElements fractions fuel' rest
          else if (d =? 93)%N then Some rest
          else None
      | [] => None
      end
  end
with scanMembers (fractions : bool) (fuel : nat) (s : jsstring) : option jsstring :=
  match fuel with
  | O => None
  | S fuel' =>
      match skipWs s with
      | q :: s1 =>
          if (q =? 34)%N then
            k ← parseChars s1;
            match skipWs k.2 with
            | colon :: s2 =>
                if (colon =? 58)%N then
                  after ← scanValue fractions fuel' s2;
                  match skipWs after with
                  | d :: rest =>
                      if (d =? 44)%N then scanMembers fractions fuel' rest
                      else if (d =? 125)%N then Some rest
                      else None
                  | [] => None
                  end
                else None
            | [] => None
            end
          else None
      | [] => None
      end
  end.

Definition scanText (fractions : bool) (text : jsstring) : bool :=
  match scanValue fractions (S (length text)) text with
  | Some rest => bool_decide (skipWs rest = [])
  | None => false
  end.

(** The texts [JSON.parse] accepts. *)
Definition isJSONText (text : jsstring) : bool := scanText true text.

(** Those of them in which every number is an integer in plain digits,
    without a fraction or an exponent: the texts the model reads. *)
Definition isIntegerJSONText (text : jsstring) : bool := scanText false text.

(** **** The values the model reads and writes as the language does *)

(** A member name that is a number: an object lists such members first, in
    the order of the numbers. *)
Definition isIndexName (name : jsstring) : bool :=
  negb (bool_decide (name = [])) && forallb isDigit name.

Fixpoint plain (v : json) : bool :=
  match v with
  | JNull | JBool _ | JStr _ => true
  | JNum n => Z.abs n <=? 2 ^ 53
  | JArr items => forallb plain items
  | JObj members =>
      forallb (λ m, negb (isIndexName m.1) && plain m.2) members
      && bool_decide (NoDup (map fst members))
  end.

(** **** Vocabulary for reading a text back *)

(** What may follow a value in a JSON text: nothing, a comma, or a closing
    bracket or brace. *)
Definition delimited (rest : jsstring) : Prop :=
  match rest with
  | [] => True
  | c :: _ => c = 44%N ∨ c = 93%N ∨ c = 125%N
  end.

(** The text of one member of an object. *)
Definition memberText (m : jsstring * json) : jsstring :=
  quote m.1 ++ 58%N :: JSON_stringify m.2.

(** What reading a value back means: with fuel for its text, and before a
    delimiter, the parser returns the value and stops at the delimiter. *)
Definition readsBack (v : json) : Prop :=
  ∀ fuel rest, (length (JSON_stringify v) <= fuel)%nat → delimited rest →
    parseValue fuel (JSON_stringify v ++ rest) = Some (v, rest).

(** **** Coercion to a number, as the subtraction [Date.now() - x] applies it
    to a JSON value; [None] is [NaN].  Strings are read when they hold a plain
    decimal integer (surrounded by blanks or not); of the arrays, the empty
    one and the one-element ones are read.  What else the language reads as a
    number (a fraction, an exponent, a hexadecimal literal, [Infinity], a
    nested array) is not read here: the properties that rest on the
    subtraction take a time stamp that is a number. *)
Definition stringToNumber (s : jsstring) : option Z :=
  match trim s with
  | [] => Some 0
  | c :: s' =>
      let body := if ((c =? 45) || (c =? 43))%N then s' else c :: s' in
      match spanDigits body with
      | (d :: ds, []) =>
          let n := digitsValue (d :: ds) in
          Some (if (c =? 45)%N then - n else n)
      | _ => None
      end
  end.

Definition toNumber (v : json) : option Z :=
  match v with
  | JNull => Some 0
  | JBool b => Some (if b then 1 else 0)
  | JNum n => Some n
  | JStr s => stringToNumber s
  | JArr [] => Some 0
  | JArr [JNum n] => Some n
  | JArr [JStr s] => stringToNumber s
  | JArr _ | JObj _ => None
  end.

(** *** Regular expressions

    The patterns of the application are sequences of character classes,
    each taken once, optionally ([?]) or one or more times ([+]).  The
    matcher is the backtracking one of the language: the greedy choice
    first, one character given back at a time. *)
Inductive quantifier := Once | Optional | OneOrMore.

Record atom := {
  accepts : N → bool;
  quantity : quantifier
}.

(** As many characters of the class [p] as there are, then the rest of the
    pattern [k]; while [k] fails, one character less. *)
Fixpoint repeatThen (p : N → bool) (k : jsstring → option jsstring) (s : jsstring)
  : option jsstring :=
  match s with
  | c :: s' =>
      if p c then
        match repeatThen p k s' with
        | Some rest => Some rest
        | None => k s
        end
      else k s
  | [] => k []
  end.

(** A match of [pattern] at the head of [s]: what of [s] follows it. *)
Fixpoint matchHere (pattern : list atom) (s : jsstring) : option jsstring :=
  match pattern with
  | [] => Some s
  | a :: pattern' =>
      match quantity a, s with
      | Once, c :: s' => if accepts a c then matchHere pattern' s' else None
      | Once, [] => None
      | Optional, c :: s' =>
          if accepts a c then
            match matchHere pattern' s' with
            | Some rest => Some rest
            | None => matchHere pattern' s
            end
          else matchHere pattern' s
      | Optional, [] => matchHere pattern' []
      | OneOrMore, c :: s' =>
          if accepts a c then repeatThen (accepts a) (matchHere pattern') s' else None
      | OneOrMore, [] => None
      end
  end.

(** [pattern.test(s)] for a pattern without the [g] flag: a match at some
    position of [s]. *)
Fixpoint search (pattern : list atom) (s : jsstring) : bool :=
  match matchHere pattern s with
  | Some _ => true
  | None => match s with
            | _ :: s' => search pattern s'
            | [] => false
            end
  end.

(** [s.replace(/pattern/g, replacement)], the replacement holding no [$]:
    the matches are taken from left to right, each search starting where
    the last match ended (one character further after an empty match). *)
Fixpoint replaceMatches (fuel : nat) (pattern : list atom) (replacement s : jsstring)
  : jsstring :=
  match fuel with
  | O => s
  | S fuel' =>
      match matchHere pattern s, s with
      | Some rest, c :: s' =>
          if (length rest <? length s)%nat
          then replacement ++ replaceMatches fuel' pattern replacement rest
          else replacement ++ c :: replaceMatches fuel' pattern replacement s'
      | Some _, [] => replacement
      | None, c :: s' => c :: replaceMatches fuel' pattern replacement s'
      | None, [] => []
      end
  end.

Definition replaceRegex (pattern : list atom) (replacement s : jsstring) : jsstring :=
  replaceMatches (S (length s)) pattern replacement s.

(** The upper case of an ASCII letter.  Under the [i] flag two characters
    match when they canonicalize to the same one; a character outside ASCII
    never canonicalizes to an ASCII character, so for the ASCII characters
    of a pattern this is the whole of it. *)
Definition asciiUpper (c : N) : N :=
  if ((97 <=? c) && (c <=? 122))%N then (c - 32)%N else c.

Definition one (p : N → bool) : atom := {| accepts := p; quantity := Once |}.
Definition zeroOrOne (p : N → bool) : atom := {| accepts := p; quantity := Optional |}.
Definition oneOrMore (p : N → bool) : atom := {| accepts := p; quantity := OneOrMore |}.

(** The characters of an ASCII word, each matched whatever its case. *)
Definition ignoreCase (word : string) : list atom :=
  map (λ c, one (λ x, (asciiUpper x =? asciiUpper c)%N)) (lit word).

End JS.

Import JS.

(** ** securityService.ts *)

Module SecurityService.

Record SecurityValidation := {
  isValid : bool;
  error : option jsstring;
  warning : option jsstring
}.

(** A key pattern [/^prefix[class]{atLeast,atMost}$/]: all five patterns of
    [API_KEY_PATTERNS] have this shape. *)
Record KeyPattern := {
  prefix : jsstring;
  class : N → bool;
  atLeast : nat;
  atMost : option nat
}.

(** [pattern.test(s)]. *)
Definition test (pattern : KeyPattern) (s : jsstring) : bool :=
  match stripPrefix (prefix pattern) s with
  | Some body =>
      forallb (class pattern) body
      && (atLeast pattern <=? length body)%nat
      && match atMost pattern with
         | Some m => (length body <=? m)%nat
         | None => true
         end
  | None => false
  end.

(** [[a-zA-Z0-9]] and [[a-zA-Z0-9\-_]]. *)
Definition alnum (c : N) : bool :=
  ((97 <=? c) && (c <=? 122) || (65 <=? c) && (c <=? 90)
   || (48 <=? c) && (c <=? 57))%N.
Definition alnumDashUnderscore (c : N) : bool :=
  alnum c || (c =? 45)%N || (c =? 95)%N.

Definition openai_pattern : KeyPattern :=
  {| prefix := lit "sk-"; class := alnum; atLeast := 20; atMost := None |}.
Definition anthropic_pattern : KeyPattern :=
  {| prefix := lit "sk-ant-"; class := alnumDashUnderscore;
     atLeast := 95; atMost := None |}.
Definition google_pattern : KeyPattern :=
  {| prefix := []; class := alnumDashUnderscore; atLeast := 35; atMost := Some 45%nat |}.
Definition huggingface_pattern : KeyPattern :=
  {| prefix := lit "hf_"; class := alnum; atLeast := 34; atMost := Some 34%nat |}.
Definition mistral_pattern : KeyPattern :=
  {| prefix := []; class := alnum; atLeast := 32; atMost := Some 32%nat |}.

(** [this.API_KEY_PATTERNS[providerKey]] over the table's own five keys
    (what the object inherits from [Object.prototype] is not modelled). *)
Definition API_KEY_PATTERNS (providerKey : jsstring) : option KeyPattern :=
  if bool_decide (providerKey = lit "openai") then Some openai_pattern
  else if bool_decide (providerKey = lit "anthropic") then Some anthropic_pattern
  else if bool_decide (providerKey = lit "google") then Some google_pattern
  else if bool_decide (providerKey = lit "huggingface") then Some huggingface_pattern
  else if bool_decide (providerKey = lit "mistral") then Some mistral_pattern
  else None.

(** The key the table is read at:
    [provider.toLowerCase().replace(' ', '').replace('ai', '').replace('meta', 'huggingface')]. *)
Definition providerKeyOf (provider : jsstring) : jsstring :=
  replaceFirst (lit "meta") (lit "huggingface")
    (replaceFirst (lit "ai") []
      (replaceFirst (lit " ") [] (toLowerCase provider))).

Definition validateApiKey (provider key : jsstring) : SecurityValidation :=
  if bool_decide (key = []) || bool_decide (length (trim key) = 0%nat) then
    {| isValid := false;
       error := Some (lit "API key cannot be empty");
       warning := None |}
  else
    let trimmedKey := trim key in
    let providerKey := providerKeyOf provider in
    match API_KEY_PATTERNS providerKey with
    | None =>
        {| isValid := true;
           error := None;
           warning := Some (lit "Unknown provider - cannot validate key format") |}
    | Some pattern =>
        if negb (test pattern trimmedKey) then
          {| isValid := false;
             error := Some (lit "Invalid " ++ provider
                            ++ lit " API key format. Please check your key.");
             warning := None |}
        else {| isValid := true; error := None; warning := None |}
    end.

(** [sanitizeInput(input)]; the argument is typed [string] but tested at run
    time, so it is a [jsvalue] here. *)
Definition sanitizeString (input : jsstring) : jsstring :=
  trim
    (replaceAll 47 (lit "&#x2F;")
      (replaceAll 39 (lit "&#x27;")
        (replaceAll 34 (lit "&quot;")
          (replaceAll 62 (lit "&gt;")
            (replaceAll 60 (lit "&lt;") input))))).

(** The characters [sanitizeInput] escapes: [<], [>], the double quote, the
    single quote and [/]. *)
Definition escaped : list N := [60; 62; 34; 39; 47]%N.

Definition sanitizeInput (input : jsvalue) : jsstring :=
  match input with
  | VString s => sanitizeString s
  | _ => []
  end.

(** [generateChecksum(data)]: [hash = ((hash << 5) - hash) + char] and
    [hash = hash & hash] for every code unit, printed in base 36. *)
Definition checksumStep (hash : Z) (char : N) : Z :=
  toInt32 (toInt32 (hash * 2 ^ 5) - hash + Z.of_N char).

Definition generateChecksum (data : jsstring) : jsstring :=
  toStringRadix 36 (fold_left checksumStep data 0).

(** [localStorage]: the stored items, and the room the browser grants, in
    code units of keys and values; [setItem] throws when it is exceeded. *)
Record Storage := {
  items : gmap jsstring jsstring;
  quota : nat
}.

Definition usedUnits (m : gmap jsstring jsstring) : nat :=
  map_fold (λ k v n, (length k + length v + n)%nat) 0%nat m.

Definition getItem (ls : Storage) (key : jsstring) : option jsstring :=
  items ls !! key.

Definition setItem (ls : Storage) (key value : jsstring) : option Storage :=
  let items' := <[key := value]> (items ls) in
  if (usedUnits items' <=? quota ls)%nat
  then Some {| items := items'; quota := quota ls |}
  else None.

Definition removeItem (ls : Storage) (key : jsstring) : Storage :=
  {| items := delete key (items ls); quota := quota ls |}.

(** The record [secureStore] writes. *)
Definition sealed (now : Z) (value : json) : json :=
  JObj [(lit "value", value);
        (lit "timestamp", JNum now);
        (lit "checksum", JStr (generateChecksum (JSON_stringify value)))].

(** [secureStore(key, value)] at clock reading [now]; [None] is the
    [Error('Storage operation failed')] thrown from the [catch]. *)
Definition secureStore (ls : Storage) (now : Z) (key : jsstring) (value : json)
  : option Storage :=
  setItem ls key (JSON_stringify (sealed now value)).

(** 30 days, in milliseconds. *)
Definition maxAge : Z := 30 * 24 * 60 * 60 * 1000.

(** [secureRetrieve(key)] at clock reading [now]: the value returned ([JNull]
    for [null]) and the storage left behind.  This is what the code does
    for the blobs the model reads as the language does: those that are not
    JSON, and the texts of [plain] values, with a time stamp that is a
    number where it comes to the age.  A blob with a fraction or an
    exponent in it is outside, and taken for one that is not read; so is a
    time stamp that only the language reads as a number. *)
Definition secureRetrieve (ls : Storage) (now : Z) (key : jsstring)
  : json * Storage :=
  match getItem ls key with
  | None => (JNull, ls)
  | Some stored =>
      if bool_decide (stored = []) then (JNull, ls)            (* [!stored] *)
      else
        match JSON_parse stored with
        | None => (JNull, removeItem ls key)                   (* caught *)
        | Some data =>
            match getProp data (lit "value") with
            | TypeError => (JNull, removeItem ls key)          (* caught *)
            | value =>
                if falsy value || falsy (getProp data (lit "timestamp"))
                   || falsy (getProp data (lit "checksum"))
                then (JNull, removeItem ls key)
                else
                  match value, getProp data (lit "timestamp"),
                        getProp data (lit "checksum") with
                  | Value v, Value timestamp, Value checksum =>
                      let expectedChecksum := generateChecksum (JSON_stringify v) in
                      if negb (match checksum with
                               | JStr c => bool_decide (c = expectedChecksum)
                               | _ => false
                               end)
                      then (JNull, removeItem ls key)
                      else if match toNumber timestamp with
                              | Some t => now - t >? maxAge
                              | None => false
                              end
                      then (JNull, removeItem ls key)
                      else (v, ls)
                  | _, _, _ => (JNull, removeItem ls key)
                  end
            end
        end
  end.

(** What makes a blob fail the integrity check at clock reading [now]: it is
    not valid JSON; or it is read as [data], and a field is missing, or the
    checksum is not the one of the stored value, or the time stamp is more
    than 30 days old.  The stored value is [plain] where its checksum is
    recomputed, so that the text hashed is the one the code hashes; the
    time stamp is a number a double holds exactly. *)
Definition failsIntegrity (now : Z) (stored : jsstring) : Prop :=
  isJSONText stored = false
  ∨ ∃ data,
      JSON_parse stored = Some data
      ∧ match getProp data (lit "value"), getProp data (lit "timestamp"),
              getProp data (lit "checksum") with
        | Value value, Value timestamp, Value checksum =>
            (plain value = true
             ∧ checksum ≠ JStr (generateChecksum (JSON_stringify value)))
            ∨ ∃ t, timestamp = JNum t ∧ Z.abs t <= 2 ^ 53 ∧ now - t > maxAge
        | _, _, _ => True
        end.

(** The entries of [rateLimits]. *)
Record RateLimit := {
  count : Z;
  resetTime : Z
}.

(** [checkRateLimit(provider, maxRequests, windowMs)] at clock reading [now]:
    the answer and the map left behind (the defaults 60 and 60000 of the
    last two parameters are for the caller to pass).  [maxRequests] is any
    finite number, whole or not: a rational, as every finite double is one,
    and its comparison with the count, an integer, is exact.  [windowMs]
    counts whole milliseconds, as the clock does. *)
Definition checkRateLimit (rateLimits : gmap jsstring RateLimit) (now : Z)
    (provider : jsstring) (maxRequests : Q) (windowMs : Z)
  : bool * gmap jsstring RateLimit :=
  let key := lit "ratelimit_" ++ provider in
  let fresh := {| count := 1; resetTime := now + windowMs |} in
  match rateLimits !! key with
  | None => (true, <[key := fresh]> rateLimits)
  | Some current =>
      if now >? resetTime current then (true, <[key := fresh]> rateLimits)
      else if Qle_bool maxRequests (inject_Z (count current)) then (false, rateLimits)
      else (true, <[key := {| count := count current + 1;
                              resetTime := resetTime current |}]> rateLimits)
  end.

(** Whether a call takes the first branch, which opens a new window:
    [!current || now > current.resetTime]. *)
Definition opensWindow (rateLimits : gmap jsstring RateLimit) (now : Z)
    (provider : jsstring) : bool :=
  match rateLimits !! (lit "ratelimit_" ++ provider) with
  | None => true
  | Some current => now >? resetTime current
  end.

(** A sequence of calls for one provider with fixed parameters, one per
    clock reading: for each call whether it opened a window and what it
    answered, and the map left behind. *)
Fixpoint checkRateLimits (rateLimits : gmap jsstring RateLimit)
    (provider : jsstring) (maxRequests : Q) (windowMs : Z) (nows : list Z)
  : list (bool * bool) * gmap jsstring RateLimit :=
  match nows with
  | [] => ([], rateLimits)
  | now :: rest =>
      let answer := checkRateLimit rateLimits now provider maxRequests windowMs in
      let later := checkRateLimits answer.2 provider maxRequests windowMs rest in
      ((opensWindow rateLimits now provider, answer.1) :: later.1, later.2)
  end.

(** The answers of a sequence of calls, grouped by window: [current] holds
    the answers since the last call that opened one. *)
Fixpoint windowsFrom (current : list bool) (answers : list (bool * bool))
  : list (list bool) :=
  match answers with
  | [] => [current]
  | (true, allowed) :: rest => current :: windowsFrom [allowed] rest
  | (false, allowed) :: rest => windowsFrom (current ++ [allowed]) rest
  end.

Definition windows (answers : list (bool * bool)) : list (list bool) :=
  windowsFrom [] answers.

(** The number of calls of a window that were let through. *)
Definition granted (window : list bool) : Z :=
  Z.of_nat (length (filter (λ allowed, allowed = true) window)).

(** *** [validateTaskData]

    The argument is typed [any].  It is modelled as what is no object
    ([undefined], [null], a boolean, a number, a string, or what else
    [typeof] does not call an object: a function, a symbol) or an object.
    Of a property of the object the code reads whether it is truthy,
    whether it is a string, and its [length]: a property holds [null], a
    boolean, a number, a string, or an object again (an array, say).  Of
    such an object the model keeps the number that the comparison
    [x.length > limit] makes of its [length], [None] when that is [NaN], as
    it is for an object without a [length]; the number is finite. *)
Inductive nonObject :=
  | NUndefined
  | NNull
  | NBoolean (b : bool)
  | NNumber (n : Z)
  | NString (s : jsstring)
  | NOther.

Inductive fieldValue :=
  | PNull
  | PBoolean (b : bool)
  | PNumber (n : Z)
  | PString (s : jsstring)
  | PObject (length : option Q).

Inductive taskArgument :=
  | NotAnObject (v : nonObject)
  | TaskObject (members : list (jsstring * fieldValue)).

(** [taskData[name]]: the last member of that name, [None] for [undefined]. *)
Fixpoint readField (name : jsstring) (members : list (jsstring * fieldValue))
  : option fieldValue :=
  match members with
  | [] => None
  | (k, v) :: members' =>
      match readField name members' with
      | Some w => Some w
      | None => if bool_decide (k = name) then Some v else None
      end
  end.

(** [ToBoolean] of a property read. *)
Definition holds (v : option fieldValue) : bool :=
  match v with
  | Some (PBoolean b) => b
  | Some (PNumber n) => negb (n =? 0)
  | Some (PString s) => negb (bool_decide (s = []))
  | Some (PObject _) => true
  | Some PNull | None => false
  end.

(** [x.length] as a number: a string has one, an array too, another object
    when it has a property of that name. *)
Definition lengthOf (v : option fieldValue) : option Q :=
  match v with
  | Some (PString s) => Some (inject_Z (jslength s))
  | Some (PObject length) => length
  | _ => None
  end.

(** [x && x.length > limit]; without a [length] the comparison is false. *)
Definition longerThan (limit : Z) (v : option fieldValue) : bool :=
  holds v
  && match lengthOf v with
     | Some n => negb (Qle_bool n (inject_Z limit))
     | None => false
     end.

(** [x && !allowed.includes(x)]: only a string is found in the list. *)
Definition outside (allowed : list jsstring) (v : option fieldValue) : bool :=
  holds v
  && negb match v with
          | Some (PString s) => bool_decide (s ∈ allowed)
          | _ => false
          end.

Definition validCategories : list jsstring :=
  [lit "reasoning"; lit "coding"; lit "creative"; lit "analysis"; lit "general"].
Definition validDifficulties : list jsstring :=
  [lit "easy"; lit "medium"; lit "hard"].

Definition rejected (message : jsstring) : SecurityValidation :=
  {| isValid := false; error := Some message; warning := None |}.
Definition accepted : SecurityValidation :=
  {| isValid := true; error := None; warning := None |}.

(** The test of a required field:
    [!x || typeof x !== 'string' || x.trim().length === 0]; the string when
    it passes. *)
Definition required (v : option fieldValue) : option jsstring :=
  match v with
  | Some (PString s) =>
      if bool_decide (s = []) || bool_decide (length (trim s) = 0%nat) then None
      else Some s
  | _ => None
  end.

Definition validateTaskData (taskData : taskArgument) : SecurityValidation :=
  match taskData with
  | NotAnObject _ => rejected (lit "Invalid task data format")
  | TaskObject members =>
      match required (readField (lit "name") members) with
      | None => rejected (lit "name" ++ lit " is required and cannot be empty")
      | Some name =>
          match required (readField (lit "prompt") members) with
          | None => rejected (lit "prompt" ++ lit " is required and cannot be empty")
          | Some prompt =>
              if jslength name >? 200
              then rejected (lit "Task name cannot exceed 200 characters")
              else if jslength prompt >? 10000
              then rejected (lit "Task prompt cannot exceed 10,000 characters")
              else if longerThan 500 (readField (lit "description") members)
              then rejected (lit "Task description cannot exceed 500 characters")
              else if longerThan 2000 (readField (lit "expectedOutput") members)
              then rejected (lit "Expected output cannot exceed 2,000 characters")
              else if outside validCategories (readField (lit "category") members)
              then rejected (lit "Invalid task category")
              else if outside validDifficulties (readField (lit "difficulty") members)
              then rejected (lit "Invalid difficulty level")
              else accepted
          end
      end
  end.

(** *** [checkEnvironmentSecurity]

    What the function reads of the page: the location, and whether the two
    [querySelector] calls find an element. *)
Record Browser := {
  protocol : jsstring;              (* [window.location.protocol] *)
  hostname : jsstring;              (* [window.location.hostname] *)
  insecureResource : bool;          (* a script or link loaded over http: *)
  cspMeta : bool                    (* a Content-Security-Policy meta element *)
}.

Record EnvironmentSecurity := {
  isSecure : bool;
  warnings : list jsstring
}.

(** [warnings.push(message); isSecure = false]. *)
Definition insecure (message : jsstring) (report : EnvironmentSecurity)
  : EnvironmentSecurity :=
  {| isSecure := false; warnings := warnings report ++ [message] |}.

(** The report, and the storage the probe of [localStorage] leaves behind. *)
Definition checkEnvironmentSecurity (browser : Browser) (ls : Storage)
  : EnvironmentSecurity * Storage :=
  let report := {| isSecure := true; warnings := [] |} in
  let report :=
    if negb (bool_decide (protocol browser = lit "https:"))
       && negb (bool_decide (hostname browser = lit "localhost"))
    then insecure (lit "Application is not served over HTTPS. API keys may be vulnerable to interception.") report
    else report in
  let report :=
    if bool_decide (protocol browser = lit "https:") && insecureResource browser
    then insecure (lit "Mixed content detected. Some resources are loaded over HTTP.") report
    else report in
  let (report, ls) :=
    match setItem ls (lit "security-test") (lit "test") with
    | Some ls' => (report, removeItem ls' (lit "security-test"))
    | None =>
        (insecure (lit "Local storage is not available. API keys cannot be stored securely.") report,
         ls)
    end in
  let report :=
    if negb (cspMeta browser)
    then {| isSecure := isSecure report;
            warnings := warnings report
              ++ [lit "Content Security Policy not detected. XSS protection may be limited."] |}
    else report in
  (report, ls).

(** *** [clearAllSecurityData]: the two items are removed and the rate
    limits cleared. *)
Definition clearAllSecurityData (ls : Storage) (rateLimits : gmap jsstring RateLimit)
  : Storage * gmap jsstring RateLimit :=
  (removeItem (removeItem ls (lit "llm-lab-api-keys")) (lit "llm-lab-custom-tasks"),
   ∅).

(** *** [sanitizeError]

    The six patterns, all under the flags [gi], and what each match is
    replaced by. *)

(** [[:\s=]], [[a-zA-Z0-9\-_\.]] and [[a-zA-Z0-9\-_\.\s]]. *)
Definition separator (c : N) : bool :=
  (c =? 58)%N || isWhiteSpace c || (c =? 61)%N.
Definition tokenChar (c : N) : bool :=
  alnumDashUnderscore c || (c =? 46)%N.
Definition headerChar (c : N) : bool :=
  tokenChar c || isWhiteSpace c.

(** [/api[_-]?key[s]?[:\s=]+[a-zA-Z0-9\-_]+/gi] *)
Definition apiKeyPattern : list atom :=
  ignoreCase "api" ++ [zeroOrOne (λ c, (c =? 95) || (c =? 45))%N]
  ++ ignoreCase "key" ++ [zeroOrOne (λ c, (c =? 115) || (c =? 83))%N]
  ++ [oneOrMore separator; oneOrMore alnumDashUnderscore].
(** [/bearer\s+[a-zA-Z0-9\-_\.]+/gi] *)
Definition bearerPattern : list atom :=
  ignoreCase "bearer" ++ [oneOrMore isWhiteSpace; oneOrMore tokenChar].
(** [/authorization[:\s=]+[a-zA-Z0-9\-_\.\s]+/gi] *)
Definition authorizationPattern : list atom :=
  ignoreCase "authorization" ++ [oneOrMore separator; oneOrMore headerChar].
(** [/token[:\s=]+[a-zA-Z0-9\-_\.]+/gi] *)
Definition tokenPattern : list atom :=
  ignoreCase "token" ++ [oneOrMore separator; oneOrMore tokenChar].
(** [/password[:\s=]+[^\s]+/gi] and [/secret[:\s=]+[^\s]+/gi] *)
Definition passwordPattern : list atom :=
  ignoreCase "password" ++ [oneOrMore separator; oneOrMore (λ c, negb (isWhiteSpace c))].
Definition secretPattern : list atom :=
  ignoreCase "secret" ++ [oneOrMore separator; oneOrMore (λ c, negb (isWhiteSpace c))].

(** The chain of [replace] calls. *)
Definition redact (message : jsstring) : jsstring :=
  replaceRegex secretPattern (lit "SECRET_REDACTED")
    (replaceRegex passwordPattern (lit "PASSWORD_REDACTED")
      (replaceRegex tokenPattern (lit "TOKEN_REDACTED")
        (replaceRegex authorizationPattern (lit "AUTH_HEADER_REDACTED")
          (replaceRegex bearerPattern (lit "BEARER_TOKEN_REDACTED")
            (replaceRegex apiKeyPattern (lit "API_KEY_REDACTED") message))))).

(** [sanitizeError(error)].  The argument is typed [any]; it is a JSON value
    here, an [Error] being an object with a [message] member and [JNull]
    standing for [undefined] too.  [None] is the [TypeError] of
    [message.replace] when [error.message] holds something that is not a
    string. *)
Definition sanitizeError (error : json) : option jsstring :=
  if negb (truthy error) then Some (lit "An unknown error occurred")
  else
    let message :=
      match error with
      | JStr s => Some s
      | _ =>
          match getProp error (lit "message") with
          | Value m =>
              if truthy m then match m with JStr s => Some s | _ => None end
              else Some (lit "An unexpected error occurred")
          | _ => Some (lit "An unexpected error occurred")
          end
      end in
    message ← message; Some (sanitizeInput (VString (redact message))).

(** *** Vocabulary for the properties *)

(** What [sanitizeInput] writes for one character: its entity for the five
    characters it escapes, the character itself for any other. *)
Definition entity (c : N) : jsstring :=
  if (c =? 60)%N then lit "&lt;"
  else if (c =? 62)%N then lit "&gt;"
  else if (c =? 34)%N then lit "&quot;"
  else if (c =? 39)%N then lit "&#x27;"
  else if (c =? 47)%N then lit "&#x2F;"
  else [c].

(** What [validateTaskData] asks of an object: a name and a prompt that are
    strings, not blank and within their limits; a description and an
    expected output that have no [length] above theirs, be they strings,
    arrays or other objects; a category and a difficulty of the lists,
    unless they are falsy. *)
Definition wellFormed (members : list (jsstring * fieldValue)) : Prop :=
  (∃ name, readField (lit "name") members = Some (PString name)
           ∧ trim name ≠ [] ∧ jslength name <= 200)
  ∧ (∃ prompt, readField (lit "prompt") members = Some (PString prompt)
               ∧ trim prompt ≠ [] ∧ jslength prompt <= 10000)
  ∧ (∀ n, lengthOf (readField (lit "description") members) = Some n → (n <= 500)%Q)
  ∧ (∀ n, lengthOf (readField (lit "expectedOutput") members) = Some n →
          (n <= 2000)%Q)
  ∧ (holds (readField (lit "category") members) = true →
     ∃ c, c ∈ validCategories ∧ readField (lit "category") members = Some (PString c))
  ∧ (holds (readField (lit "difficulty") members) = true →
     ∃ d, d ∈ validDifficulties
          ∧ readField (lit "difficulty") members = Some (PString d)).

(** The value of the code units of [data] as digits in base 31. *)
Definition polynomial (data : jsstring) : Z :=
  fold_left (λ h c, 31 * h + Z.of_N c) data 0.

(** The provider names, in lower case, that reach a pattern of
    [API_KEY_PATTERNS], each with its pattern. *)
Definition checkedProviders : list (jsstring * KeyPattern) :=
  [(lit "anthropic", anthropic_pattern);
   (lit "google", google_pattern);
   (lit "meta", huggingface_pattern);
   (lit "huggingface", huggingface_pattern);
   (lit "hugging face", huggingface_pattern);
   (lit "mistral", mistral_pattern);
   (lit "mistral ai", mistral_pattern);
   (lit "mistralai", mistral_pattern)].

End SecurityService.

(** ** components/TaskSelector.tsx: the form that creates a custom task *)

Module TaskSelector.

Import SecurityService.

(** The state [newTask] of the form. *)
Module NewTask.
Record t := {
  name : jsstring;
  description : jsstring;
  category : jsstring;
  difficulty : jsstring;
  prompt : jsstring;
  expectedOutput : jsstring
}.
End NewTask.

(** [/script[^a-z]/i], [/javascript:/i], [/data:text\/html/i], [/<iframe/i],
    [/<object/i] and [/<embed/i]. *)
Definition suspiciousPatterns : list (list atom) :=
  [ignoreCase "script"
     ++ [one (λ c, negb ((97 <=? c) && (c <=? 122) || (65 <=? c) && (c <=? 90))%N)];
   ignoreCase "javascript:";
   ignoreCase "data:text/html";
   ignoreCase "<iframe";
   ignoreCase "<object";
   ignoreCase "<embed"].

(** The object [validateTaskData] is called with. *)
Definition taskData (newTask : NewTask.t) : taskArgument :=
  TaskObject
    [(lit "name", PString (NewTask.name newTask));
     (lit "description", PString (NewTask.description newTask));
     (lit "category", PString (NewTask.category newTask));
     (lit "difficulty", PString (NewTask.difficulty newTask));
     (lit "prompt", PString (NewTask.prompt newTask));
     (lit "expectedOutput", PString (NewTask.expectedOutput newTask))].

(** [validateAndCreateTask()]: the validation errors it sets, or the task it
    hands to [onCreateCustomTask]. *)
Definition validateAndCreateTask (newTask : NewTask.t) : list jsstring + NewTask.t :=
  let validation := validateTaskData (taskData newTask) in
  if negb (isValid validation) then
    inl [match error validation with
         | Some (c :: message) => c :: message
         | _ => lit "Invalid task data"
         end]
  else
    let allText :=
      NewTask.name newTask ++ lit " " ++ NewTask.description newTask ++ lit " "
      ++ NewTask.prompt newTask ++ lit " " ++ NewTask.expectedOutput newTask in
    if existsb (λ pattern, search pattern allText) suspiciousPatterns then
      inl [lit "Task content contains potentially unsafe elements"]
    else
      inr {| NewTask.name := sanitizeInput (VString (NewTask.name newTask));
             NewTask.description := sanitizeInput (VString (NewTask.description newTask));
             NewTask.category := NewTask.category newTask;
             NewTask.difficulty := NewTask.difficulty newTask;
             NewTask.prompt := sanitizeInput (VString (NewTask.prompt newTask));
             NewTask.expectedOutput :=
               sanitizeInput (VString (NewTask.expectedOutput newTask)) |}.

End TaskSelector.


(** ** Effects: a state and exception monad over the world *)

Module Effect.

(** What [throw] can carry, as far as [instanceof Error] and [.message]
    tell apart. *)
Inductive thrown :=
  | ErrorObject (message : jsstring)
  | NotAnError.

Inductive outcome (A : Type) :=
  | Returns (a : A)
  | Throws (e : thrown).
Arguments Returns {A} a.
Arguments Throws {A} e.

(** A computation over the world [W] that returns or throws. *)
Definition M (W A : Type) : Type := W → outcome A * W.

Definition ret {W A} (a : A) : M W A := λ w, (Returns a, w).

Definition throw {W A} (e : thrown) : M W A := λ w, (Throws e, w).

Definition bind {W A B} (m : M W A) (k : A → M W B) : M W B :=
  λ w, match m w with
       | (Returns a, w') => k a w'
       | (Throws e, w') => (Throws e, w')
       end.

(** [try { m } catch (e) { h e }]. *)
Definition tryCatch {W A} (m : M W A) (h : thrown → M W A) : M W A :=
  λ w, match m w with
       | (Returns a, w') => (Returns a, w')
       | (Throws e, w') => h e w'
       end.

(** An effect that cannot throw. *)
Definition perform {W A} (f : W → A * W) : M W A :=
  λ w, let (a, w') := f w in (Returns a, w').

Declare Scope js_scope.
Delimit Scope js_scope with js.
Notation "x <- m ;; k" := (bind m (λ x, k))
  (at level 100, m at next level, right associativity) : js_scope.

(** [error instanceof Error ? error.message : fallback]. *)
Definition messageOr (fallback : jsstring) (e : thrown) : jsstring :=
  match e with
  | ErrorObject message => message
  | NotAnError => fallback
  end.

End Effect.

Import Effect.

(** ** types/index.ts *)

Module LLMModel.
Record t := {
  id : jsstring;
  name : jsstring;
  provider : jsstring;
  contextWindow : Z;
  inputPricePerToken : Q;
  outputPricePerToken : Q;
  maxOutputTokens : Z;
  capabilities : list jsstring;
  strengths : list jsstring;
  weaknesses : list jsstring
}.
End LLMModel.

Inductive Category := reasoning | coding | creative | analysis | general.
Inductive Difficulty := easy | medium | hard.

Module BenchmarkTask.
Record t := {
  id : jsstring;
  name : jsstring;
  description : jsstring;
  category : Category;
  difficulty : Difficulty;
  prompt : jsstring;
  expectedOutput : option jsstring
}.
End BenchmarkTask.

Module DetailedBenchmarkResult.
Record t := {
  modelId : jsstring;
  taskId : jsstring;
  score : Q;
  latency : Z;
  outputTokens : Z;
  inputTokens : Z;
  cost : Q;
  quality : Q;
  timestamp : Z;
  output : option jsstring;
  error : option jsstring;
  input : jsstring;
  rawOutput : jsstring;
  processingTime : Z
}.
End DetailedBenchmarkResult.

Module ModelRecommendation.
Record t := {
  model : option LLMModel.t;      (* [find(...)!] may be [undefined] *)
  score : Q;
  reason : jsstring;
  costEfficiency : Q;
  performanceRating : Q
}.
End ModelRecommendation.

(** [!!s] for an optional string: set and not empty. *)
Definition isSet (s : option jsstring) : bool :=
  match s with
  | Some (_ :: _) => true
  | _ => false
  end.

(** ** apiService.ts *)

Module ApiService.

Module APIResponse.
Record t := {
  content : jsstring;
  inputTokens : Z;              (* [usage.inputTokens] *)
  outputTokens : Z;             (* [usage.outputTokens] *)
  latency : Z;
  error : option jsstring
}.
End APIResponse.

(** What the code reads of the vendors' replies. *)
Record ChatCompletion := {        (* OpenAI, Mistral *)
  message_content : option jsstring;      (* [choices[0]?.message?.content] *)
  prompt_tokens : option Z;               (* [usage?.prompt_tokens] *)
  completion_tokens : option Z
}.
Record AnthropicMessage := {
  first_text : option jsstring;           (* [content[0].text] of a text block *)
  input_tokens : Z;
  output_tokens : Z
}.
Record GoogleResult := { text : jsstring }.
Record TextGeneration := { generated_text : option jsstring }.

(** The browser and the vendors' SDKs, over a world [W]: the clock, and one
    request per SDK. *)
Class Platform (W : Type) := {
  Date_now : W → Z * W;
  openai_create : LLMModel.t → BenchmarkTask.t → M W ChatCompletion;
  anthropic_create : LLMModel.t → BenchmarkTask.t → M W AnthropicMessage;
  google_generateContent : LLMModel.t → BenchmarkTask.t → M W GoogleResult;
  hf_textGeneration : LLMModel.t → BenchmarkTask.t → M W TextGeneration;
  mistral_chat : LLMModel.t → BenchmarkTask.t → M W ChatCompletion
}.

(** The service object: which clients [initializeClients] has built. *)
Record APIService := {
  openai : bool;
  anthropic : bool;
  googleAI : bool;
  huggingFace : bool;
  mistral : bool
}.

Section Calls.
Context {W : Type} {platform : Platform W}.
Local Open Scope js_scope.

Definition now : M W Z := perform Date_now.

(** [x || ''] and [x || 0]. *)
Definition orEmpty (x : option jsstring) : jsstring := default [] x.
Definition orZero (x : option Z) : Z := default 0 x.

Definition callOpenAI (this : APIService) (model : LLMModel.t)
    (task : BenchmarkTask.t) (startTime : Z) : M W APIResponse.t :=
  if negb (openai this) then throw (ErrorObject (lit "OpenAI API key not configured"))
  else
    response <- openai_create model task ;;
    t <- now ;;
    ret {| APIResponse.content := orEmpty (message_content response);
           APIResponse.inputTokens := orZero (prompt_tokens response);
           APIResponse.outputTokens := orZero (completion_tokens response);
           APIResponse.latency := t - startTime;
           APIResponse.error := None |}.

Definition callAnthropic (this : APIService) (model : LLMModel.t)
    (task : BenchmarkTask.t) (startTime : Z) : M W APIResponse.t :=
  if negb (anthropic this) then throw (ErrorObject (lit "Anthropic API key not configured"))
  else
    response <- anthropic_create model task ;;
    t <- now ;;
    ret {| APIResponse.content := orEmpty (first_text response);
           APIResponse.inputTokens := input_tokens response;
           APIResponse.outputTokens := output_tokens response;
           APIResponse.latency := t - startTime;
           APIResponse.error := None |}.

Definition callGoogle (this : APIService) (model : LLMModel.t)
    (task : BenchmarkTask.t) (startTime : Z) : M W APIResponse.t :=
  if negb (googleAI this) then throw (ErrorObject (lit "Google API key not configured"))
  else
    response <- google_generateContent model task ;;
    t <- now ;;
    let content := text response in
    ret {| APIResponse.content := content;
           APIResponse.inputTokens := jslength (BenchmarkTask.prompt task) / 4;
           APIResponse.outputTokens := jslength content / 4;
           APIResponse.latency := t - startTime;
           APIResponse.error := None |}.

Definition callHuggingFace (this : APIService) (model : LLMModel.t)
    (task : BenchmarkTask.t) (startTime : Z) : M W APIResponse.t :=
  if negb (huggingFace this) then throw (ErrorObject (lit "Hugging Face API key not configured"))
  else
    response <- hf_textGeneration model task ;;
    t <- now ;;
    let content := orEmpty (generated_text response) in
    ret {| APIResponse.content := content;
           APIResponse.inputTokens := jslength (BenchmarkTask.prompt task) / 4;
           APIResponse.outputTokens := jslength content / 4;
           APIResponse.latency := t - startTime;
           APIResponse.error := None |}.

Definition callMistral (this : APIService) (model : LLMModel.t)
    (task : BenchmarkTask.t) (startTime : Z) : M W APIResponse.t :=
  if negb (mistral this) then throw (ErrorObject (lit "Mistral API key not configured"))
  else
    response <- mistral_chat model task ;;
    t <- now ;;
    ret {| APIResponse.content := orEmpty (message_content response);
           APIResponse.inputTokens := orZero (prompt_tokens response);
           APIResponse.outputTokens := orZero (completion_tokens response);
           APIResponse.latency := t - startTime;
           APIResponse.error := None |}.

(** The [switch (model.provider)] of [callModel]. *)
Definition dispatch (this : APIService) (model : LLMModel.t)
    (task : BenchmarkTask.t) (startTime : Z) : M W APIResponse.t :=
  let provider := LLMModel.provider model in
  if bool_decide (provider = lit "OpenAI") then callOpenAI this model task startTime
  else if bool_decide (provider = lit "Anthropic") then callAnthropic this model task startTime
  else if bool_decide (provider = lit "Google") then callGoogle this model task startTime
  else if bool_decide (provider = lit "Meta") then callHuggingFace this model task startTime
  else if bool_decide (provider = lit "Mistral AI") then callMistral this model task startTime
  else throw (ErrorObject (lit "Unsupported provider: " ++ provider)).

Definition callModel (this : APIService) (model : LLMModel.t)
    (task : BenchmarkTask.t) : M W APIResponse.t :=
  startTime <- now ;;
  tryCatch (dispatch this model task startTime)
    (λ error,
      t <- now ;;
      ret {| APIResponse.content := [];
             APIResponse.inputTokens := 0;
             APIResponse.outputTokens := 0;
             APIResponse.latency := t - startTime;
             APIResponse.error := Some (messageOr (lit "Unknown error") error) |}).

End Calls.

(** The providers the [switch] of [callModel] knows. *)
Definition supported (provider : jsstring) : Prop :=
  provider ∈ [lit "OpenAI"; lit "Anthropic"; lit "Google"; lit "Meta"; lit "Mistral AI"].

Definition isProviderConfigured (this : APIService) (provider : jsstring) : bool :=
  if bool_decide (provider = lit "OpenAI") then openai this
  else if bool_decide (provider = lit "Anthropic") then anthropic this
  else if bool_decide (provider = lit "Google") then googleAI this
  else if bool_decide (provider = lit "Meta") then huggingFace this
  else if bool_decide (provider = lit "Mistral AI") then mistral this
  else false.

Definition getConfiguredProviders (this : APIService) : list jsstring :=
  (if openai this then [lit "OpenAI"] else [])
  ++ (if anthropic this then [lit "Anthropic"] else [])
  ++ (if googleAI this then [lit "Google"] else [])
  ++ (if huggingFace this then [lit "Meta"] else [])
  ++ (if mistral this then [lit "Mistral AI"] else []).

(** *** The keys and the clients built from them *)

Module APIKeys.
Record t := {
  openai : jsstring;
  anthropic : jsstring;
  google : jsstring;
  huggingface : jsstring;
  mistral : jsstring
}.
End APIKeys.

(** The five SDK classes, in the order [initializeClients] builds them. *)
Inductive Client := OpenAI | Anthropic | GoogleGenerativeAI | HfInference | MistralAI.

#[global] Instance Client_eq_dec : EqDecision Client.
Proof. solve_decision. Defined.

Definition allClients : list Client :=
  [OpenAI; Anthropic; GoogleGenerativeAI; HfInference; MistralAI].

(** The field of the service that holds the client, read and written. *)
Definition built (c : Client) (this : APIService) : bool :=
  match c with
  | OpenAI => openai this
  | Anthropic => anthropic this
  | GoogleGenerativeAI => googleAI this
  | HfInference => huggingFace this
  | MistralAI => mistral this
  end.

Definition setClient (c : Client) (b : bool) (this : APIService) : APIService :=
  match c with
  | OpenAI =>
      {| openai := b; anthropic := anthropic this; googleAI := googleAI this;
         huggingFace := huggingFace this; mistral := mistral this |}
  | Anthropic =>
      {| openai := openai this; anthropic := b; googleAI := googleAI this;
         huggingFace := huggingFace this; mistral := mistral this |}
  | GoogleGenerativeAI =>
      {| openai := openai this; anthropic := anthropic this; googleAI := b;
         huggingFace := huggingFace this; mistral := mistral this |}
  | HfInference =>
      {| openai := openai this; anthropic := anthropic this; googleAI := googleAI this;
         huggingFace := b; mistral := mistral this |}
  | MistralAI =>
      {| openai := openai this; anthropic := anthropic this; googleAI := googleAI this;
         huggingFace := huggingFace this; mistral := b |}
  end.

(** The provider name of the models served through a client. *)
Definition providerOf (c : Client) : jsstring :=
  match c with
  | OpenAI => lit "OpenAI"
  | Anthropic => lit "Anthropic"
  | GoogleGenerativeAI => lit "Google"
  | HfInference => lit "Meta"
  | MistralAI => lit "Mistral AI"
  end.

(** The name of a client in the message of its [call...] method. *)
Definition vendorOf (c : Client) : jsstring :=
  match c with
  | OpenAI => lit "OpenAI"
  | Anthropic => lit "Anthropic"
  | GoogleGenerativeAI => lit "Google"
  | HfInference => lit "Hugging Face"
  | MistralAI => lit "Mistral"
  end.

(** The [try] block of [initializeClients], one [if] per client of [cs]:
    with a key that is truthy the constructor is called, and builds the
    client or throws ([construct] tells which); without one the client is
    set to [null].  A throw leaves the block: the [catch] only warns. *)
Fixpoint initialize {K : Type} (isTruthy : K → bool) (construct : Client → K → bool)
    (keyOf : Client → K) (cs : list Client) (this : APIService) : APIService :=
  match cs with
  | [] => this
  | c :: cs' =>
      if isTruthy (keyOf c) then
        if construct c (keyOf c)
        then initialize isTruthy construct keyOf cs' (setClient c true this)
        else this
      else initialize isTruthy construct keyOf cs' (setClient c false this)
  end.

Definition keyFor (keys : APIKeys.t) (c : Client) : jsstring :=
  match c with
  | OpenAI => APIKeys.openai keys
  | Anthropic => APIKeys.anthropic keys
  | GoogleGenerativeAI => APIKeys.google keys
  | HfInference => APIKeys.huggingface keys
  | MistralAI => APIKeys.mistral keys
  end.

(** The service object with its keys. *)
Record Service := {
  apiKeys : APIKeys.t;
  clients : APIService
}.

Definition initializeClients (construct : Client → jsstring → bool) (service : Service)
  : Service :=
  {| apiKeys := apiKeys service;
     clients :=
       initialize (λ key, negb (bool_decide (key = []))) construct
         (keyFor (apiKeys service)) allClients (clients service) |}.

(** [updateKeys(keys)] (the event it dispatches to the window is left out). *)
Definition updateKeys (construct : Client → jsstring → bool) (keys : APIKeys.t)
    (service : Service) : Service :=
  initializeClients construct {| apiKeys := keys; clients := clients service |}.

End ApiService.

(** ** The API service over the security service

    The variant of apiService.ts that validates the keys with
    [validateApiKey] and keeps them in the secure storage. *)

Module SecuredApiService.

Import SecurityService ApiService.

(** The name of a client's key in [APIKeys]. *)
Definition fieldOf (c : Client) : jsstring :=
  match c with
  | OpenAI => lit "openai"
  | Anthropic => lit "anthropic"
  | GoogleGenerativeAI => lit "google"
  | HfInference => lit "huggingface"
  | MistralAI => lit "mistral"
  end.

(** [this.apiKeys].  It is typed [APIKeys], five strings, but
    [loadStoredKeys] spreads into it what the storage held: a field holds a
    JSON value. *)
Module HeldKeys.
Record t := {
  openai : json;
  anthropic : json;
  google : json;
  huggingface : json;
  mistral : json
}.
End HeldKeys.

Definition keyOf (keys : HeldKeys.t) (c : Client) : json :=
  match c with
  | OpenAI => HeldKeys.openai keys
  | Anthropic => HeldKeys.anthropic keys
  | GoogleGenerativeAI => HeldKeys.google keys
  | HfInference => HeldKeys.huggingface keys
  | MistralAI => HeldKeys.mistral keys
  end.

Record Service := {
  apiKeys : HeldKeys.t;
  clients : APIService
}.

(** [initializeClients()]: as in apiService.ts, the test of a key being
    [ToBoolean] of what the field holds. *)
Definition initializeClients (construct : Client → json → bool) (service : Service)
  : Service :=
  {| apiKeys := apiKeys service;
     clients :=
       initialize truthy construct (keyOf (apiKeys service)) allClients
         (clients service) |}.

(** One turn of the loop of [updateKeys] over [Object.entries(keys)]: a key
    that is not blank and that [validateApiKey] refuses, asked under the
    name of the field, is replaced by ['']. *)
Definition validatedKey (provider key : jsstring) : jsstring :=
  if negb (bool_decide (key = [])) && (0 <? length (trim key))%nat then
    if negb (isValid (validateApiKey provider key)) then [] else key
  else key.

Definition validatedKeys (keys : APIKeys.t) : APIKeys.t :=
  {| APIKeys.openai := validatedKey (lit "openai") (APIKeys.openai keys);
     APIKeys.anthropic := validatedKey (lit "anthropic") (APIKeys.anthropic keys);
     APIKeys.google := validatedKey (lit "google") (APIKeys.google keys);
     APIKeys.huggingface := validatedKey (lit "huggingface") (APIKeys.huggingface keys);
     APIKeys.mistral := validatedKey (lit "mistral") (APIKeys.mistral keys) |}.

(** [{ ...validatedKeys }] as [this.apiKeys]. *)
Definition held (keys : APIKeys.t) : HeldKeys.t :=
  {| HeldKeys.openai := JStr (APIKeys.openai keys);
     HeldKeys.anthropic := JStr (APIKeys.anthropic keys);
     HeldKeys.google := JStr (APIKeys.google keys);
     HeldKeys.huggingface := JStr (APIKeys.huggingface keys);
     HeldKeys.mistral := JStr (APIKeys.mistral keys) |}.

(** The object handed to [secureStore], its members in the order of the
    interface [APIKeys]. *)
Definition asObject (keys : HeldKeys.t) : json :=
  JObj (map (λ c, (fieldOf c, keyOf keys c)) allClients).

(** [updateKeys(keys)] at clock reading [now]: the service and the storage
    left behind.  The warnings are only logged, a failure of [secureStore]
    is caught and logged, and the event dispatched to the window is left
    out. *)
Definition updateKeys (construct : Client → json → bool) (keys : APIKeys.t)
    (service : Service) (ls : Storage) (now : Z) : Service * Storage :=
  let service :=
    initializeClients construct
      {| apiKeys := held (validatedKeys keys); clients := clients service |} in
  match secureStore ls now (lit "llm-lab-api-keys") (asObject (apiKeys service)) with
  | Some ls' => (service, ls')
  | None => (service, ls)
  end.

(** A field of [{ ...this.apiKeys, ...storedKeys }]: only an object has
    properties of these names to spread. *)
Definition spread (current : HeldKeys.t) (storedKeys : json) (c : Client) : json :=
  match storedKeys with
  | JObj members => default (keyOf current c) (lookupMember (fieldOf c) members)
  | _ => keyOf current c
  end.

(** [loadStoredKeys()] at clock reading [now]. *)
Definition loadStoredKeys (construct : Client → json → bool) (service : Service)
    (ls : Storage) (now : Z) : Service * Storage :=
  let (storedKeys, ls) := secureRetrieve ls now (lit "llm-lab-api-keys") in
  if truthy storedKeys then
    (initializeClients construct
       {| apiKeys :=
            {| HeldKeys.openai := spread (apiKeys service) storedKeys OpenAI;
               HeldKeys.anthropic := spread (apiKeys service) storedKeys Anthropic;
               HeldKeys.google := spread (apiKeys service) storedKeys GoogleGenerativeAI;
               HeldKeys.huggingface := spread (apiKeys service) storedKeys HfInference;
               HeldKeys.mistral := spread (apiKeys service) storedKeys MistralAI |};
          clients := clients service |},
     ls)
  else (service, ls).

(** [clearAllApiKeys()]. *)
Definition clearAllApiKeys (construct : Client → json → bool) (service : Service)
    (ls : Storage) (rateLimits : gmap jsstring RateLimit)
  : Service * (Storage * gmap jsstring RateLimit) :=
  (initializeClients construct
     {| apiKeys := {| HeldKeys.openai := JStr []; HeldKeys.anthropic := JStr [];
                      HeldKeys.google := JStr []; HeldKeys.huggingface := JStr [];
                      HeldKeys.mistral := JStr [] |};
        clients := clients service |},
   clearAllSecurityData ls rateLimits).

(** The pattern a key is checked against in [updateKeys], for the four
    clients whose keys are checked. *)
Definition checkedClients : list (Client * KeyPattern) :=
  [(Anthropic, anthropic_pattern);
   (GoogleGenerativeAI, google_pattern);
   (HfInference, huggingface_pattern);
   (MistralAI, mistral_pattern)].

End SecuredApiService.

(** ** benchmarkEngine.ts *)

Module BenchmarkEngine.

Import ApiService.
Local Open Scope Q_scope.

(** [x || y] on numbers. *)
Definition orElse (x y : Z) : Z := if (x =? 0)%Z then y else x.

Definition assessOutputQuality (output : jsstring) (task : BenchmarkTask.t) : Q :=
  if bool_decide (output = []) || bool_decide (length (trim output) = 0%nat) then 0
  else
    let score := 0.5 in
    let length := jslength output in
    let score :=
      if (50 <? length)%Z && (length <? 2000)%Z then score + 0.2
      else if (2000 <=? length)%Z && (length <? 5000)%Z then score + 0.1
      else score in
    let score :=
      match BenchmarkTask.category task with
      | coding =>
          let score :=
            if includes output (lit "def ") || includes output (lit "function ")
               || includes output (lit "class ")
            then score + 0.2 else score in
          if includes output (lit "```") then score + 0.1 else score
      | reasoning =>
          let score :=
            if includes output (lit "because") || includes output (lit "therefore")
               || includes output (lit "thus")
            then score + 0.1 else score in
          if includes output (lit "step") || includes output (lit "first")
             || includes output (lit "second")
          then score + 0.1 else score
      | creative =>
          let score := if (100 <? jslength output)%Z then score + 0.1 else score in
          let sentences := splitLength 46 output in
          if (3 <? sentences)%Z then score + 0.1 else score
      | analysis =>
          let score :=
            if includes output (lit "%") || includes output (lit "trend")
               || includes output (lit "analysis")
            then score + 0.1 else score in
          if includes output (lit "recommend") || includes output (lit "suggest")
          then score + 0.1 else score
      | general => score
      end in
    let words := splitLength 32 output in
    let score :=
      if (20 <? words)%Z && negb (includes output (lit "ERROR"))
         && negb (includes output (lit "error"))
      then score + 0.1 else score in
    Qmin (Qmax score 0) 1.

(** The score of a call that answered:
    [quality * 0.8 + (1 - Math.min(latency / 10000, 1)) * 0.2]. *)
Definition combinedScore (quality : Q) (latency : Z) : Q :=
  quality * 0.8 + (1 - Qmin (inject_Z latency / 10000) 1) * 0.2.

(** The imported [apiService] and the clock, as the engine uses them (the
    tests replace the service by a mock). *)
Class Environment (W : Type) := {
  clock : W → Z * W;
  isProviderConfigured : jsstring → W → bool;
  callModel : LLMModel.t → BenchmarkTask.t → M W APIResponse.t
}.

(** What a run does to the outside, in order. *)
Inductive event :=
  | Progress (progress : Q) (currentModel : option jsstring)
  | Warn (message : jsstring)
  | CallModel (model : LLMModel.t) (task : BenchmarkTask.t).

(** The variables of a run: the world, [results] and [completed]. *)
Record Run (W : Type) := {
  world : W;
  trace : list event;
  results : list DetailedBenchmarkResult.t;
  completed : Z
}.
Arguments world {W} _.
Arguments trace {W} _.
Arguments results {W} _.
Arguments completed {W} _.

(** The [errorResult] literal, built in the not-configured branch and in
    the [catch]. *)
Definition errorResult (model : LLMModel.t) (task : BenchmarkTask.t)
    (timestamp : Z) (message : jsstring) : DetailedBenchmarkResult.t :=
  {| DetailedBenchmarkResult.modelId := LLMModel.id model;
     DetailedBenchmarkResult.taskId := BenchmarkTask.id task;
     DetailedBenchmarkResult.score := 0;
     DetailedBenchmarkResult.latency := 0;
     DetailedBenchmarkResult.outputTokens := 0;
     DetailedBenchmarkResult.inputTokens := (jslength (BenchmarkTask.prompt task) / 4)%Z;
     DetailedBenchmarkResult.cost := 0;
     DetailedBenchmarkResult.quality := 0;
     DetailedBenchmarkResult.timestamp := timestamp;
     DetailedBenchmarkResult.output := None;
     DetailedBenchmarkResult.error := Some message;
     DetailedBenchmarkResult.input := BenchmarkTask.prompt task;
     DetailedBenchmarkResult.rawOutput := [];
     DetailedBenchmarkResult.processingTime := 0 |}.

(** The [result] literal, built after [callModel] has resolved. *)
Definition answeredResult (model : LLMModel.t) (task : BenchmarkTask.t)
    (apiResponse : APIResponse.t) (startTime endTime timestamp : Z)
  : DetailedBenchmarkResult.t :=
  let failed := isSet (APIResponse.error apiResponse) in
  let quality :=
    if failed then 0 else assessOutputQuality (APIResponse.content apiResponse) task in
  let score :=
    if failed then 0 else combinedScore quality (APIResponse.latency apiResponse) in
  let inputTokens :=
    orElse (APIResponse.inputTokens apiResponse)
           (jslength (BenchmarkTask.prompt task) / 4)%Z in
  let outputTokens :=
    orElse (APIResponse.outputTokens apiResponse)
           (jslength (APIResponse.content apiResponse) / 4)%Z in
  let cost :=
    inject_Z inputTokens * LLMModel.inputPricePerToken model
    + inject_Z outputTokens * LLMModel.outputPricePerToken model in
  {| DetailedBenchmarkResult.modelId := LLMModel.id model;
     DetailedBenchmarkResult.taskId := BenchmarkTask.id task;
     DetailedBenchmarkResult.score := score;
     DetailedBenchmarkResult.latency := APIResponse.latency apiResponse;
     DetailedBenchmarkResult.outputTokens := outputTokens;
     DetailedBenchmarkResult.inputTokens := inputTokens;
     DetailedBenchmarkResult.cost := cost;
     DetailedBenchmarkResult.quality := quality;
     DetailedBenchmarkResult.timestamp := timestamp;
     DetailedBenchmarkResult.output := Some (APIResponse.content apiResponse);
     DetailedBenchmarkResult.error := APIResponse.error apiResponse;
     DetailedBenchmarkResult.input := BenchmarkTask.prompt task;
     DetailedBenchmarkResult.rawOutput := APIResponse.content apiResponse;
     DetailedBenchmarkResult.processingTime := (endTime - startTime)%Z |}.

Section Run.
Context {W : Type} {env : Environment W}.

Definition log (e : event) (st : Run W) : Run W :=
  {| world := world st; trace := trace st ++ [e];
     results := results st; completed := completed st |}.

(** [results.push(r)] at world [w], for the [completed++] that follows on
    every path. *)
Definition push (r : DetailedBenchmarkResult.t) (w : W) (st : Run W) : Run W :=
  {| world := w; trace := trace st;
     results := results st ++ [r]; completed := (completed st + 1)%Z |}.

(** The body of the inner loop, for one model and one task.  [onProgress]
    tells whether the optional callback was given; its calls are recorded
    in the trace. *)
Definition iteration (onProgress : bool) (total : Z)
    (model : LLMModel.t) (task : BenchmarkTask.t) (st : Run W) : Run W :=
  let st :=
    if onProgress
    then log (Progress (inject_Z (completed st) / inject_Z total * 100)
                       (Some (LLMModel.name model))) st
    else st in
  if negb (isProviderConfigured (LLMModel.provider model) (world st)) then
    let st :=
      log (Warn (lit "Skipping " ++ LLMModel.name model ++ lit " - provider "
                 ++ LLMModel.provider model ++ lit " not configured")) st in
    let (timestamp, w) := clock (world st) in
    push (errorResult model task timestamp
            (lit "API key not configured for " ++ LLMModel.provider model
             ++ lit ". Please add your API key to test this model.")) w st
  else
    let (startTime, w1) := clock (world st) in
    let st := log (CallModel model task) st in
    match callModel model task w1 with
    | (Returns apiResponse, w2) =>
        let (endTime, w3) := clock w2 in
        let (timestamp, w4) := clock w3 in
        push (answeredResult model task apiResponse startTime endTime timestamp) w4 st
    | (Throws error, w2) =>
        let (timestamp, w3) := clock w2 in
        push (errorResult model task timestamp
                (messageOr (lit "Unknown error occurred") error)) w3 st
    end.

(** [generateBenchmarkResults(models, tasks, onProgress)] from world [w]: the
    run after the two loops and the closing progress call. *)
Definition runBenchmark (models : list LLMModel.t) (tasks : list BenchmarkTask.t)
    (onProgress : bool) (w : W) : Run W :=
  let total := (Z.of_nat (length models) * Z.of_nat (length tasks))%Z in
  let st := {| world := w; trace := []; results := []; completed := 0 |} in
  let st :=
    foldl (λ st model, foldl (λ st task, iteration onProgress total model task st) st tasks)
          st models in
  if onProgress then log (Progress 100 None) st else st.

Definition generateBenchmarkResults (models : list LLMModel.t)
    (tasks : list BenchmarkTask.t) (onProgress : bool) (w : W)
  : list DetailedBenchmarkResult.t :=
  results (runBenchmark models tasks onProgress w).

(** *** Vocabulary for the properties of a run *)

(** The pairs in model-major, task-minor order. *)
Definition pairsOf (models : list LLMModel.t) (tasks : list BenchmarkTask.t)
  : list (LLMModel.t * BenchmarkTask.t) :=
  list_prod models tasks.

(** The states a loop passes through: the one before each element. *)
Fixpoint trajectory {A S} (step : S → A → S) (st : S) (l : list A) : list S :=
  match l with
  | [] => []
  | x :: l' => st :: trajectory step (step st x) l'
  end.

(** The run before each pair is processed. *)
Definition statesBefore (models : list LLMModel.t) (tasks : list BenchmarkTask.t)
    (onProgress : bool) (w : W) : list (Run W) :=
  let total := (Z.of_nat (length models) * Z.of_nat (length tasks))%Z in
  trajectory (λ st p, iteration onProgress total p.1 p.2 st)
    {| world := w; trace := []; results := []; completed := 0 |}
    (pairsOf models tasks).

(** The invocations of [callModel] in a trace. *)
Definition calls (tr : list event) : list (LLMModel.t * BenchmarkTask.t) :=
  omap (λ e, match e with CallModel model task => Some (model, task) | _ => None end) tr.

(** A record with [score], [quality], [cost] and [outputTokens] all 0. *)
Definition zeroed (r : DetailedBenchmarkResult.t) : Prop :=
  DetailedBenchmarkResult.score r = 0 ∧ DetailedBenchmarkResult.quality r = 0
  ∧ DetailedBenchmarkResult.cost r = 0 ∧ DetailedBenchmarkResult.outputTokens r = 0%Z.

(** What the record [r] of the pair [(model, task)] holds, by what happens
    when the pair is processed from the run [st]: the provider is not
    configured, [callModel] rejects, or [callModel] resolves. *)
Definition recordOf (model : LLMModel.t) (task : BenchmarkTask.t) (st : Run W)
    (r : DetailedBenchmarkResult.t) : Prop :=
  DetailedBenchmarkResult.modelId r = LLMModel.id model
  ∧ DetailedBenchmarkResult.taskId r = BenchmarkTask.id task
  ∧ if isProviderConfigured (LLMModel.provider model) (world st) then
      match callModel model task (clock (world st)).2 with
      | (Throws error, _) =>
          DetailedBenchmarkResult.error r
          = Some (messageOr (lit "Unknown error occurred") error)
          ∧ zeroed r
      | (Returns apiResponse, _) =>
          DetailedBenchmarkResult.error r = APIResponse.error apiResponse
          ∧ if isSet (APIResponse.error apiResponse)
            then DetailedBenchmarkResult.score r = 0
                 ∧ DetailedBenchmarkResult.quality r = 0
            else DetailedBenchmarkResult.quality r
                 = assessOutputQuality (APIResponse.content apiResponse) task
                 ∧ DetailedBenchmarkResult.score r
                   = combinedScore (DetailedBenchmarkResult.quality r)
                                   (APIResponse.latency apiResponse)
      end
    else
      DetailedBenchmarkResult.error r
      = Some (lit "API key not configured for " ++ LLMModel.provider model
              ++ lit ". Please add your API key to test this model.")
      ∧ zeroed r.

End Run.

(** [array.sort(compare)]: the stable sort the language prescribes, by
    insertion; [x] goes before the first [y] with [compare x y <= 0]. *)
Fixpoint insertSorted {A} (compare : A → A → Q) (x : A) (l : list A) : list A :=
  match l with
  | [] => [x]
  | y :: l' =>
      if Qle_bool (compare x y) 0 then x :: y :: l'
      else y :: insertSorted compare x l'
  end.

Definition sort {A} (compare : A → A → Q) (l : list A) : list A :=
  foldr (insertSorted compare) [] l.

(** [llmModels.find(m => m.id === modelId)]. *)
Definition findModel (llmModels : list LLMModel.t) (modelId : jsstring)
  : option LLMModel.t :=
  List.find (λ m, bool_decide (LLMModel.id m = modelId)) llmModels.

(** The filter of [getModelRecommendations]:
    [r.taskId === task.id && !r.error]. *)
Definition selected (task : BenchmarkTask.t) (r : DetailedBenchmarkResult.t) : bool :=
  bool_decide (DetailedBenchmarkResult.taskId r = BenchmarkTask.id task)
  && negb (isSet (DetailedBenchmarkResult.error r)).

(** The recommendation built for one result.  The scores are the exact
    values of the arithmetic; the code computes them in doubles, so two
    scores that are equal here can differ there in the last place, and the
    other way round: what is proved of the order is what holds of both. *)
Definition recommend (llmModels : list LLMModel.t) (prioritizePerformance : bool)
    (result : DetailedBenchmarkResult.t) : ModelRecommendation.t :=
  let model := findModel llmModels (DetailedBenchmarkResult.modelId result) in
  let rscore := DetailedBenchmarkResult.score result in
  let rcost := DetailedBenchmarkResult.cost result in
  let costEfficiency :=
    if Qlt_le_dec 0 rcost then rscore / rcost else rscore * 1000 in
  let performanceRating := rscore in
  let score :=
    if prioritizePerformance
    then performanceRating * 0.7 + Qmin (costEfficiency / 1000) 1 * 0.3
    else performanceRating * 0.4 + Qmin (costEfficiency / 1000) 1 * 0.6 in
  let reason :=
    if Qlt_le_dec 0.9 rscore
    then lit "Excellent performance on this task type with high-quality output"
    else if Qlt_le_dec 0.8 rscore
    then lit "Strong performance with good reliability and consistent results"
    else if Qlt_le_dec 1000 costEfficiency
    then lit "Best cost-to-performance ratio for budget-conscious applications"
    else lit "Balanced option suitable for general use cases" in
  {| ModelRecommendation.model := model;
     ModelRecommendation.score := score;
     ModelRecommendation.reason := reason;
     ModelRecommendation.costEfficiency := costEfficiency;
     ModelRecommendation.performanceRating := performanceRating |}.

(** [getModelRecommendations(task, results, prioritizePerformance)] over
    the model table [llmModels] of data/models.ts. *)
Definition getModelRecommendations (llmModels : list LLMModel.t)
    (task : BenchmarkTask.t) (results : list DetailedBenchmarkResult.t)
    (prioritizePerformance : bool) : list ModelRecommendation.t :=
  let taskResults := List.filter (selected task) results in
  if bool_decide (length taskResults = 0%nat) then []
  else
    let recommendations := map (recommend llmModels prioritizePerformance) taskResults in
    sort (λ a b, ModelRecommendation.score b - ModelRecommendation.score a)
         recommendations.

(** The calls of [onProgress] in a trace. *)
Definition progressReports (tr : list event) : list (Q * option jsstring) :=
  omap (λ e, match e with Progress progress currentModel => Some (progress, currentModel)
                        | _ => None end) tr.

End BenchmarkEngine.

(** ** Worlds to run the code in

    The doubles of the test-suite ([mockReturnValue], [mockResolvedValue],
    [mockRejectedValue]) and a scripted vendor, over a world that is the
    reading of the clock. *)

Module Doubles.

Import ApiService BenchmarkEngine.

(** The engine wired to the service object of apiService.ts. *)
Definition serviceEnvironment {W} {platform : Platform W} (this : APIService)
  : Environment W :=
  {| clock := Date_now;
     isProviderConfigured := λ provider _, ApiService.isProviderConfigured this provider;
     callModel := ApiService.callModel this |}.

(** A mocked service: [isProviderConfigured] returns [configured], every
    [callModel] settles as [reply]; the clock advances by one millisecond
    per reading and per call. *)
Definition mockEnvironment (configured : bool) (reply : outcome APIResponse.t)
  : Environment Z :=
  {| clock := λ w, (w, w + 1);
     isProviderConfigured := λ _ _, configured;
     callModel := λ _ _ w, (reply, w + 1) |}.

(** Vendors that take [duration] milliseconds per request and then all
    throw [fault], or all answer [answer] when there is none. *)
Definition vendors (duration : Z) (fault : option thrown) (answer : jsstring)
  : Platform Z :=
  let settle {A} (a : A) : M Z A :=
    λ w, (match fault with Some e => Throws e | None => Returns a end, w + duration) in
  let chat :=
    {| message_content := Some answer;
       prompt_tokens := Some 10; completion_tokens := Some 20 |} in
  {| Date_now := λ w, (w, w);
     openai_create := λ _ _, settle chat;
     anthropic_create := λ _ _,
       settle {| first_text := Some answer; input_tokens := 10; output_tokens := 20 |};
     google_generateContent := λ _ _, settle {| text := answer |};
     hf_textGeneration := λ _ _, settle {| generated_text := Some answer |};
     mistral_chat := λ _ _, settle chat |}.

(** A service with every client built, and one with none. *)
Definition allConfigured : APIService :=
  {| openai := true; anthropic := true; googleAI := true;
     huggingFace := true; mistral := true |}.
Definition noneConfigured : APIService :=
  {| openai := false; anthropic := false; googleAI := false;
     huggingFace := false; mistral := false |}.

(** The first entry of data/models.ts and the task of the engine's tests. *)
Definition gpt4o : LLMModel.t :=
  {| LLMModel.id := lit "gpt-4o";
     LLMModel.name := lit "GPT-4o";
     LLMModel.provider := lit "OpenAI";
     LLMModel.contextWindow := 128000;
     LLMModel.inputPricePerToken := 0.000005;
     LLMModel.outputPricePerToken := 0.000015;
     LLMModel.maxOutputTokens := 4096;
     LLMModel.capabilities :=
       [lit "text"; lit "code"; lit "reasoning"; lit "analysis"; lit "multimodal"];
     LLMModel.strengths :=
       [lit "Latest model"; lit "Excellent reasoning"; lit "Multimodal";
        lit "Fast responses"];
     LLMModel.weaknesses := [lit "Premium pricing"; lit "Rate limits"] |}.

Definition gpt35 : LLMModel.t :=
  {| LLMModel.id := lit "gpt-3.5";
     LLMModel.name := lit "GPT-3.5";
     LLMModel.provider := lit "OpenAI";
     LLMModel.contextWindow := 128000;
     LLMModel.inputPricePerToken := 0.000005;
     LLMModel.outputPricePerToken := 0.000015;
     LLMModel.maxOutputTokens := 4096;
     LLMModel.capabilities := [lit "text"; lit "code"];
     LLMModel.strengths := [lit "reasoning"];
     LLMModel.weaknesses := [lit "cost"] |}.

Definition mockTask : BenchmarkTask.t :=
  {| BenchmarkTask.id := lit "test-task";
     BenchmarkTask.name := lit "Test Task";
     BenchmarkTask.description := lit "A test task";
     BenchmarkTask.category := coding;
     BenchmarkTask.difficulty := medium;
     BenchmarkTask.prompt := lit "Write a function to calculate factorial";
     BenchmarkTask.expectedOutput := None |}.

Definition task2 : BenchmarkTask.t :=
  {| BenchmarkTask.id := lit "task-2";
     BenchmarkTask.name := lit "Task 2";
     BenchmarkTask.description := lit "A test task";
     BenchmarkTask.category := coding;
     BenchmarkTask.difficulty := medium;
     BenchmarkTask.prompt := lit "Write a function to calculate factorial";
     BenchmarkTask.expectedOutput := None |}.

(** A resolved response, as the engine's tests mock it. *)
Definition resolved (content : jsstring) (inputTokens outputTokens latency : Z)
  : APIResponse.t :=
  {| APIResponse.content := content;
     APIResponse.inputTokens := inputTokens;
     APIResponse.outputTokens := outputTokens;
     APIResponse.latency := latency;
     APIResponse.error := None |}.

End Doubles.

(** * Properties *)

Import SecurityService.

(** ** Strings *)

Section TrimFacts.

Lemma trimStart_suffix (s : jsstring) : ∃ p, s = p ++ trimStart s.
Proof.
  induction s as [|x s [p IH]]; simpl.
  - by exists [].
  - destruct (isWhiteSpace x).
    + exists (x :: p). simpl. by f_equal.
    + by exists [].
Qed.

Lemma trimStart_head (s : jsstring) c :
  head (trimStart s) = Some c → isWhiteSpace c = false.
Proof.
  induction s as [|x s IH]; simpl; [done|].
  destruct (isWhiteSpace x) eqn:E; [done|]. simpl. by intros [= <-].
Qed.

Lemma trimStart_id (s : jsstring) :
  (∀ c, head s = Some c → isWhiteSpace c = false) → trimStart s = s.
Proof.
  destruct s as [|x s]; simpl; [done|]. intros H. by rewrite (H x).
Qed.

Lemma trimEnd_prefix (s : jsstring) : ∃ p, s = trimEnd s ++ p.
Proof.
  destruct (trimStart_suffix (reverse s)) as [p Hp]. exists (reverse p).
  unfold trimEnd. rewrite <- reverse_app, <- Hp. by rewrite reverse_involutive.
Qed.

Lemma trimEnd_last (s : jsstring) c :
  last (trimEnd s) = Some c → isWhiteSpace c = false.
Proof. unfold trimEnd. rewrite last_reverse. apply trimStart_head. Qed.

Lemma trimEnd_id (s : jsstring) :
  (∀ c, last s = Some c → isWhiteSpace c = false) → trimEnd s = s.
Proof.
  intros H. unfold trimEnd. rewrite trimStart_id, reverse_involutive; [done|].
  intros c. rewrite head_reverse. apply H.
Qed.

Lemma trim_head (s : jsstring) c :
  head (trim s) = Some c → isWhiteSpace c = false.
Proof.
  unfold trim. destruct (trimEnd_prefix (trimStart s)) as [p Hp].
  destruct (trimEnd (trimStart s)) as [|x r] eqn:E; [done|].
  simpl. intros [= <-]. apply (trimStart_head s). by rewrite Hp.
Qed.

Lemma trim_last (s : jsstring) c :
  last (trim s) = Some c → isWhiteSpace c = false.
Proof. apply trimEnd_last. Qed.

Lemma trim_id (s : jsstring) :
  (∀ c, head s = Some c → isWhiteSpace c = false) →
  (∀ c, last s = Some c → isWhiteSpace c = false) → trim s = s.
Proof. intros Hh Hl. unfold trim. by rewrite trimStart_id, trimEnd_id. Qed.

Lemma trim_trim (s : jsstring) : trim (trim s) = trim s.
Proof. apply trim_id; [apply trim_head | apply trim_last]. Qed.

Lemma trim_subset (s : jsstring) c : c ∈ trim s → c ∈ s.
Proof.
  unfold trim. destruct (trimEnd_prefix (trimStart s)) as [p Hp].
  destruct (trimStart_suffix s) as [q Hq]. intros Hc.
  rewrite Hq, Hp. set_solver.
Qed.

End TrimFacts.

(** ** [sanitizeInput] *)

Section Sanitize.

Lemma replaceAll_Forall (P : N → Prop) c r (s : jsstring) :
  Forall P r → Forall (λ x, x ≠ c → P x) s → Forall P (replaceAll c r s).
Proof.
  intros Hr. induction 1 as [|x s Hx _ IH]; simpl; [constructor|].
  apply Forall_app. split; [|done].
  destruct (N.eqb_spec x c); [done|]. constructor; [by apply Hx|constructor].
Qed.

Lemma replaceAll_absent c r (s : jsstring) : c ∉ s → replaceAll c r s = s.
Proof.
  induction s as [|x s IH]; simpl; [done|]. intros Hc.
  destruct (N.eqb_spec x c) as [->|_]; [set_solver|].
  simpl. f_equal. apply IH. set_solver.
Qed.

(** After the five replacements none of the escaped characters is left. *)
Lemma replacements_clean (s : jsstring) :
  Forall (λ c, c ∉ escaped)
    (replaceAll 47 (lit "&#x2F;")
      (replaceAll 39 (lit "&#x27;")
        (replaceAll 34 (lit "&quot;")
          (replaceAll 62 (lit "&gt;")
            (replaceAll 60 (lit "&lt;") s))))).
Proof.
  assert (H1 : Forall (λ x, x ≠ 60%N) (replaceAll 60 (lit "&lt;") s)).
  { apply replaceAll_Forall; [by repeat constructor|]. by apply Forall_forall. }
  assert (H2 : Forall (λ x, x ≠ 60%N ∧ x ≠ 62%N)
                 (replaceAll 62 (lit "&gt;") (replaceAll 60 (lit "&lt;") s))).
  { apply replaceAll_Forall; [by repeat constructor|].
    eapply Forall_impl; [exact H1|]. simpl. tauto. }
  match type of H2 with Forall _ ?t => set (s2 := t) in * end.
  assert (H3 : Forall (λ x, x ≠ 60%N ∧ x ≠ 62%N ∧ x ≠ 34%N)
                 (replaceAll 34 (lit "&quot;") s2)).
  { apply replaceAll_Forall; [by repeat constructor|].
    eapply Forall_impl; [exact H2|]. simpl. tauto. }
  match type of H3 with Forall _ ?t => set (s3 := t) in * end.
  assert (H4 : Forall (λ x, x ≠ 60%N ∧ x ≠ 62%N ∧ x ≠ 34%N ∧ x ≠ 39%N)
                 (replaceAll 39 (lit "&#x27;") s3)).
  { apply replaceAll_Forall; [by repeat constructor|].
    eapply Forall_impl; [exact H3|]. simpl. tauto. }
  match type of H4 with Forall _ ?t => set (s4 := t) in * end.
  assert (H5 : Forall (λ x, x ≠ 60%N ∧ x ≠ 62%N ∧ x ≠ 34%N ∧ x ≠ 39%N ∧ x ≠ 47%N)
                 (replaceAll 47 (lit "&#x2F;") s4)).
  { apply replaceAll_Forall; [by repeat constructor|].
    eapply Forall_impl; [exact H4|]. simpl. tauto. }
  eapply Forall_impl; [exact H5|]. simpl. intros x (?&?&?&?&?) Hin.
  unfold escaped in Hin.
  repeat (apply elem_of_cons in Hin as [->|Hin]; [done|]).
  by apply elem_of_nil in Hin.
Qed.

Lemma sanitizeString_clean (s : jsstring) :
  Forall (λ c, c ∉ escaped) (sanitizeString s).
Proof.
  apply Forall_forall. intros c Hc%trim_subset.
  by eapply Forall_forall in Hc; [|apply replacements_clean].
Qed.

Lemma sanitizeString_fixpoint (s : jsstring) :
  Forall (λ c, c ∉ escaped) s → trim s = s → sanitizeString s = s.
Proof.
  intros Hs Ht. unfold sanitizeString.
  assert (Habs : ∀ c, c ∈ escaped → c ∉ s).
  { intros c Hc Hin. eapply Forall_forall in Hs; [|exact Hin]. done. }
  assert (He : ∀ c, bool_decide (c ∈ escaped) = true → c ∉ s).
  { intros c Hc. by apply Habs, (bool_decide_eq_true_1 _ Hc). }
  rewrite (replaceAll_absent 60 _ s), (replaceAll_absent 62 _ s),
    (replaceAll_absent 34 _ s), (replaceAll_absent 39 _ s),
    (replaceAll_absent 47 _ s); auto.
Qed.

(** C7.  For a string argument the result of [sanitizeInput] holds none of
    [<], [>], the double quote, the single quote and [/], neither starts nor
    ends with white space, and is left unchanged by a second pass; any
    argument that is not a string gives the empty string. *)
Theorem sanitizeInput_postcondition (input : jsvalue) :
  match input with
  | VString s =>
      let out := sanitizeInput (VString s) in
      Forall (λ c, c ∉ escaped) out
      ∧ (∀ c, head out = Some c → isWhiteSpace c = false)
      ∧ (∀ c, last out = Some c → isWhiteSpace c = false)
      ∧ sanitizeInput (VString out) = out
  | _ => sanitizeInput input = []
  end.
Proof.
  destruct input as [| |b|n|s|]; try reflexivity.
  simpl. split; [apply sanitizeString_clean|].
  split; [apply trim_head|]. split; [apply trim_last|].
  apply sanitizeString_fixpoint; [apply sanitizeString_clean|apply trim_trim].
Qed.

End Sanitize.

(** ** [assessOutputQuality] and the combined score *)

Section Quality.
Import BenchmarkEngine.
Local Open Scope Q_scope.

Lemma clamp_bounds (s : Q) : 0.5 <= s → 0.5 <= Qmin (Qmax s 0) 1 ∧ Qmin (Qmax s 0) 1 <= 1.
Proof.
  intros Hs. split; [|apply Q.le_min_r].
  apply Q.min_glb; [|lra]. eapply Qle_trans; [exact Hs|apply Q.le_max_l].
Qed.

Lemma blank_output (output : jsstring) :
  bool_decide (output = []) || bool_decide (length (trim output) = 0%nat)
  = bool_decide (trim output = []).
Proof.
  destruct output as [|c s]; [done|]. simpl.
  destruct (trim (c :: s)); by simpl.
Qed.

(** The quality of an answer is 0 when it is blank and lies between one
    half and one otherwise. *)
Lemma assessOutputQuality_range (output : jsstring) (task : BenchmarkTask.t) :
  if bool_decide (trim output = [])
  then assessOutputQuality output task = 0
  else 0.5 <= assessOutputQuality output task ∧ assessOutputQuality output task <= 1.
Proof.
  unfold assessOutputQuality. rewrite blank_output.
  destruct (bool_decide (trim output = [])); [done|].
  apply clamp_bounds.
  destruct (BenchmarkTask.category task);
    repeat match goal with
           | |- context [if ?b then _ else _] => destruct b
           end; lra.
Qed.

Lemma latency_share_bounds (latency : Z) :
  (0 <= latency)%Z →
  0 <= Qmin (inject_Z latency / 10000) 1 ∧ Qmin (inject_Z latency / 10000) 1 <= 1.
Proof.
  intros Hl. split; [|apply Q.le_min_r].
  apply Q.min_glb; [|lra].
  apply Qle_shift_div_l; [lra|]. rewrite Qmult_0_l.
  change 0 with (inject_Z 0). by rewrite <- Zle_Qle.
Qed.

Lemma combinedScore_bounds (quality : Q) (latency : Z) :
  0 <= quality → quality <= 1 → (0 <= latency)%Z →
  0 <= combinedScore quality latency ∧ combinedScore quality latency <= 1.
Proof.
  intros Hq0 Hq1 Hl. unfold combinedScore.
  destruct (latency_share_bounds latency Hl) as [Hm0 Hm1].
  set (m := Qmin _ _) in *. clearbody m. lra.
Qed.

End Quality.

Section Score.
Import ApiService BenchmarkEngine Doubles.
Local Open Scope Q_scope.

(** C8, as stated, fails: the score is not clamped from above when the
    latency reported by the service is negative.  A resolved answer "ok"
    with latency -100000 ms gets the score 0.5 * 0.8 + 11 * 0.2 = 2.6. *)
Lemma combined_score_above_one :
  ∃ r, generateBenchmarkResults (env := mockEnvironment true
           (Returns (resolved (lit "ok") 10 20 (-100000))))
         [gpt4o] [mockTask] false 0%Z = [r]
       ∧ DetailedBenchmarkResult.quality r == 0.5
       ∧ DetailedBenchmarkResult.score r == 2.6
       ∧ 1 < DetailedBenchmarkResult.score r.
Proof. eexists. split; [reflexivity|]. by vm_compute. Qed.

End Score.

(** ** [getModelRecommendations] *)

Section SortFacts.
Import BenchmarkEngine.
Local Open Scope Q_scope.

Context {A : Type} (key : A → Q).

(** The comparator [(a, b) => key b - key a] puts the larger key first. *)
Let compare (a b : A) : Q := key b - key a.
Let before (a b : A) : Prop := key b <= key a.

Lemma insertSorted_Permutation (x : A) (l : list A) :
  insertSorted compare x l ≡ₚ x :: l.
Proof.
  induction l as [|y l IH]; simpl; [done|].
  destruct (Qle_bool (compare x y) 0); [done|].
  rewrite IH. apply Permutation_swap.
Qed.

Lemma sort_Permutation (l : list A) : sort compare l ≡ₚ l.
Proof.
  induction l as [|x l IH]; simpl; [done|].
  fold (sort compare l). by rewrite insertSorted_Permutation, IH.
Qed.

Lemma insertSorted_StronglySorted (x : A) (l : list A) :
  StronglySorted before l → StronglySorted before (insertSorted compare x l).
Proof.
  induction 1 as [|y l Hl IH Hy]; simpl.
  - repeat constructor.
  - destruct (Qle_bool (compare x y) 0) eqn:E.
    + apply Qle_bool_iff in E. unfold compare in E.
      assert (Hxy : before x y) by (unfold before; lra).
      constructor; [by constructor|]. constructor; [done|].
      eapply Forall_impl; [exact Hy|]. unfold before in *. intros z Hz. lra.
    + assert (Hyx : before y x).
      { unfold before. destruct (Qlt_le_dec (key y) (key x)) as [Hlt|Hle]; [|done].
        exfalso. assert (Qle_bool (compare x y) 0 = true); [|congruence].
        apply Qle_bool_iff. unfold compare. lra. }
      constructor; [done|].
      rewrite insertSorted_Permutation. by constructor.
Qed.

Lemma sort_StronglySorted (l : list A) : StronglySorted before (sort compare l).
Proof.
  induction l as [|x l IH]; simpl; [constructor|].
  by apply insertSorted_StronglySorted.
Qed.

End SortFacts.

Section Recommendations.
Import ApiService BenchmarkEngine Doubles.
Local Open Scope Q_scope.

(** The filter of the code keeps the results of the task whose error is
    absent or the empty string. *)
Lemma selected_spec (task : BenchmarkTask.t) (r : DetailedBenchmarkResult.t) :
  selected task r = true ↔
  DetailedBenchmarkResult.taskId r = BenchmarkTask.id task
  ∧ (DetailedBenchmarkResult.error r = None ∨ DetailedBenchmarkResult.error r = Some []).
Proof.
  unfold selected. rewrite andb_true_iff, bool_decide_eq_true, negb_true_iff.
  destruct (DetailedBenchmarkResult.error r) as [[|c e]|]; simpl; naive_solver.
Qed.

Lemma filter_selected (task : BenchmarkTask.t) (results : list DetailedBenchmarkResult.t) :
  List.filter (selected task) results
  = filter (λ r, DetailedBenchmarkResult.taskId r = BenchmarkTask.id task
                 ∧ (DetailedBenchmarkResult.error r = None
                    ∨ DetailedBenchmarkResult.error r = Some [])) results.
Proof.
  induction results as [|r l IH]; [done|].
  rewrite filter_cons. simpl. rewrite IH.
  destruct (selected task r) eqn:E; case_decide as Hd; try done.
  - apply selected_spec in E. done.
  - apply selected_spec in Hd. congruence.
Qed.

(** C10, as stated, fails: a result whose error field is set to the empty
    string passes the filter [!r.error].  The record the engine builds when
    [callModel] rejects with [new Error('')] is such a result, and it is
    recommended although no result of the task has its error unset. *)
Lemma recommendation_for_empty_error :
  let results :=
    generateBenchmarkResults (env := mockEnvironment true (Throws (ErrorObject [])))
      [gpt4o] [mockTask] false 0%Z in
  map DetailedBenchmarkResult.error results = [Some []]
  ∧ filter (λ r, DetailedBenchmarkResult.taskId r = BenchmarkTask.id mockTask
                 ∧ DetailedBenchmarkResult.error r = None) results = []
  ∧ length (getModelRecommendations [gpt4o] mockTask results true) = 1%nat.
Proof. by vm_compute. Qed.

(** C10, amended.  [getModelRecommendations] returns exactly one
    recommendation per result whose taskId equals the task's id and whose
    error field is unset or the empty string, in non-increasing order of
    the combined recommendation score, and the empty list when there is no
    such result. *)
Theorem getModelRecommendations_sorted (llmModels : list LLMModel.t)
    (task : BenchmarkTask.t) (results : list DetailedBenchmarkResult.t)
    (prioritizePerformance : bool) :
  let wanted :=
    filter (λ r, DetailedBenchmarkResult.taskId r = BenchmarkTask.id task
                 ∧ (DetailedBenchmarkResult.error r = None
                    ∨ DetailedBenchmarkResult.error r = Some [])) results in
  let recommendations :=
    getModelRecommendations llmModels task results prioritizePerformance in
  recommendations ≡ₚ map (recommend llmModels prioritizePerformance) wanted
  ∧ length recommendations = length wanted
  ∧ StronglySorted
      (λ a b, ModelRecommendation.score b <= ModelRecommendation.score a)
      recommendations
  ∧ (wanted = [] → recommendations = []).
Proof.
  intros wanted recommendations.
  assert (Hperm : recommendations ≡ₚ map (recommend llmModels prioritizePerformance) wanted).
  { unfold recommendations, getModelRecommendations. rewrite filter_selected.
    fold wanted. case_bool_decide as Hn.
    - by destruct wanted.
    - apply (sort_Permutation ModelRecommendation.score). }
  split; [exact Hperm|]. split; [by rewrite Hperm, length_map|]. split.
  - unfold recommendations, getModelRecommendations.
    case_bool_decide; [constructor|].
    apply (sort_StronglySorted ModelRecommendation.score).
  - intros Hw. rewrite Hw in Hperm. by apply Permutation_nil_r in Hperm.
Qed.

End Recommendations.

(** ** [checkRateLimit] *)

Section Limits.

(** The count is an integer: it has reached the limit exactly when it has
    reached the limit rounded up. *)
Lemma reached_ceiling (maxRequests : Q) (count : Z) :
  Qle_bool maxRequests (inject_Z count) = (count >=? Qceiling maxRequests).
Proof.
  apply eq_true_iff_eq. rewrite Qle_bool_iff, Z.geb_le. split.
  - intros H. apply Qceiling_resp_le in H. by rewrite Qceiling_Z in H.
  - intros H. eapply Qle_trans; [apply Qle_ceiling|]. by rewrite <- Zle_Qle.
Qed.

(** So a limit answers as the limit rounded up does. *)
Lemma checkRateLimit_ceiling (rateLimits : gmap jsstring RateLimit) (now : Z)
    (provider : jsstring) (maxRequests : Q) (windowMs : Z) :
  checkRateLimit rateLimits now provider maxRequests windowMs
  = checkRateLimit rateLimits now provider (inject_Z (Qceiling maxRequests)) windowMs.
Proof.
  unfold checkRateLimit. destruct (rateLimits !! _) as [current|]; [|done].
  by rewrite !reached_ceiling, Qceiling_Z.
Qed.

Lemma checkRateLimits_ceiling (provider : jsstring) (maxRequests : Q) (windowMs : Z)
    (nows : list Z) :
  ∀ rateLimits,
    checkRateLimits rateLimits provider maxRequests windowMs nows
    = checkRateLimits rateLimits provider (inject_Z (Qceiling maxRequests)) windowMs nows.
Proof.
  induction nows as [|now rest IH]; intros rateLimits; [done|].
  cbn [checkRateLimits]. by rewrite <- checkRateLimit_ceiling, IH.
Qed.

End Limits.

Section RateLimit.

Variables (provider : jsstring) (limit windowMs : Z).
Hypothesis positive : 1 <= limit.

Let key : jsstring := lit "ratelimit_" ++ provider.

(** What holds between the stored entry and the answers given since the
    window was opened. *)
Let tracks (rateLimits : gmap jsstring RateLimit) (current : list bool) : Prop :=
  match rateLimits !! key with
  | None => current = []
  | Some entry => count entry = granted current ∧ 1 <= count entry <= limit
  end.

Lemma granted_snoc (w : list bool) (b : bool) :
  granted (w ++ [b]) = granted w + (if b then 1 else 0).
Proof.
  unfold granted. rewrite filter_app, length_app, filter_cons, filter_nil.
  destruct b; case_decide; simpl; try done; lia.
Qed.

Lemma windowsFrom_nonempty (current : list bool) (answers : list (bool * bool)) :
  windowsFrom current answers ≠ [].
Proof.
  revert current. induction answers as [|[[] allowed] rest IH]; intros current; simpl;
    [done|done|apply IH].
Qed.

Lemma last_windowsFrom (w current : list bool) (answers : list (bool * bool)) :
  List.last (w :: windowsFrom current answers) []
  = List.last (windowsFrom current answers) [].
Proof.
  pose proof (windowsFrom_nonempty current answers).
  by destruct (windowsFrom current answers).
Qed.

Lemma windowsFrom_bound (nows : list Z) :
  ∀ rateLimits current,
    tracks rateLimits current →
    let run := checkRateLimits rateLimits provider (inject_Z limit) windowMs nows in
    Forall (λ w, granted w <= limit) (windowsFrom current run.1)
    ∧ tracks run.2 (List.last (windowsFrom current run.1) []).
Proof.
  induction nows as [|now rest IH]; intros rateLimits current Htr; simpl.
  - split; [|done]. constructor; [|constructor].
    unfold tracks in Htr. destruct (rateLimits !! key) as [e|].
    + lia.
    + subst current. unfold granted. simpl. lia.
  - unfold opensWindow, checkRateLimit. fold key.
    unfold tracks in Htr.
    destruct (rateLimits !! key) as [entry|] eqn:E.
    + destruct Htr as [Hc Hb]. rewrite reached_ceiling, Qceiling_Z.
      destruct (now >? resetTime entry) eqn:Hnow; simpl.
      * destruct (IH (<[key:={| count := 1; resetTime := now + windowMs |}]> rateLimits)
                     [true]) as [IH1 IH2].
        { unfold tracks. rewrite lookup_insert_eq. simpl. unfold granted. simpl. lia. }
        split; [constructor; [lia|exact IH1]|].
        match goal with
        | |- tracks _ (match windowsFrom ?c ?a with [] => ?w | _ :: _ => _ end) =>
            pose proof (last_windowsFrom w c a) as Hl
        end.
        simpl in Hl. rewrite Hl. exact IH2.
      * destruct (count entry >=? limit) eqn:Hfull; simpl.
        -- apply (IH rateLimits (current ++ [false])).
           unfold tracks. rewrite E, granted_snoc. lia.
        -- apply (IH _ (current ++ [true])).
           unfold tracks. rewrite lookup_insert_eq, granted_snoc. simpl. lia.
    + subst current. simpl.
      destruct (IH (<[key:={| count := 1; resetTime := now + windowMs |}]> rateLimits)
                   [true]) as [IH1 IH2].
      { unfold tracks. rewrite lookup_insert_eq. simpl. unfold granted. simpl. lia. }
      split; [constructor; [unfold granted; simpl; lia|exact IH1]|].
      match goal with
        | |- tracks _ (match windowsFrom ?c ?a with [] => ?w | _ :: _ => _ end) =>
            pose proof (last_windowsFrom w c a) as Hl
        end.
        simpl in Hl. rewrite Hl. exact IH2.
Qed.

End RateLimit.

(** C4, as stated, fails for a limit below one: the first call of a window
    is let through whatever [maxRequests] is, so with [maxRequests = 0] a
    call returns true and the stored count is 1. *)
Lemma checkRateLimit_zero_limit :
  let answer := checkRateLimit ∅ 1000 (lit "openai") 0 60000 in
  answer.1 = true
  ∧ answer.2 !! lit "ratelimit_openai" = Some {| count := 1; resetTime := 61000 |}
  ∧ (count <$> answer.2 !! lit "ratelimit_openai") = Some 1
  ∧ 0 < 1.
Proof. by vm_compute. Qed.

(** It fails for a limit that is not whole, too: [maxRequests] is a number,
    and with 1.5 the second call of a window is let through, since
    [1 >= 1.5] is false; two calls return true and the stored count is 2,
    both above 1.5. *)
Lemma checkRateLimit_fractional_limit :
  let run := checkRateLimits ∅ (lit "openai") (3 # 2) 60000 [1000; 1001; 1002] in
  run.1.*2 = [true; true; false]
  ∧ windows run.1 = [[]; [true; true; false]]
  ∧ run.2 !! lit "ratelimit_openai" = Some {| count := 2; resetTime := 61000 |}
  ∧ (3 # 2 < inject_Z 2)%Q.
Proof. by vm_compute. Qed.

(** C4, amended.  With [maxRequests > 0], for every provider and every
    sequence of [checkRateLimit(provider, maxRequests, windowMs)] calls on a
    service that holds no entry for the provider yet: at most [maxRequests]
    rounded up calls return true within any single window (from a call that
    opens one to the next such call), and the stored count is never above
    [maxRequests] rounded up; for a whole [maxRequests] that is
    [maxRequests] itself.  A call after the window's [resetTime] has passed
    returns true and stores the count 1. *)
Theorem checkRateLimit_window_bound (rateLimits : gmap jsstring RateLimit)
    (provider : jsstring) (maxRequests : Q) (windowMs : Z) (nows : list Z) :
  (0 < maxRequests)%Q →
  rateLimits !! (lit "ratelimit_" ++ provider) = None →
  let run := checkRateLimits rateLimits provider maxRequests windowMs nows in
  Forall (λ window, granted window <= Qceiling maxRequests) (windows run.1)
  ∧ (∀ entry, run.2 !! (lit "ratelimit_" ++ provider) = Some entry →
              1 <= count entry <= Qceiling maxRequests)
  ∧ (∀ limit : Z, (maxRequests == inject_Z limit)%Q → Qceiling maxRequests = limit)
  ∧ (∀ limits current now,
       limits !! (lit "ratelimit_" ++ provider) = Some current →
       now > resetTime current →
       checkRateLimit limits now provider maxRequests windowMs
       = (true, <[lit "ratelimit_" ++ provider :=
                    {| count := 1; resetTime := now + windowMs |}]> limits)).
Proof.
  intros Hmax Hnone run.
  assert (Hceil : 1 <= Qceiling maxRequests).
  { pose proof (Qle_ceiling maxRequests) as Hc.
    assert (0 < inject_Z (Qceiling maxRequests))%Q as Hpos by (eapply Qlt_le_trans; done).
    change 0%Q with (inject_Z 0) in Hpos. rewrite <- Zlt_Qlt in Hpos. lia. }
  destruct (windowsFrom_bound provider (Qceiling maxRequests) windowMs Hceil nows
              rateLimits []) as [Hw Ht]; [by rewrite Hnone|].
  rewrite <- checkRateLimits_ceiling in Hw, Ht.
  fold run in Hw, Ht. split; [exact Hw|]. split; [|split].
  - intros entry He. rewrite He in Ht. tauto.
  - intros limit Hl. by rewrite Hl, Qceiling_Z.
  - intros limits current now Hc Hnow. unfold checkRateLimit. rewrite Hc.
    by rewrite (proj2 (Z.gtb_gt _ _) Hnow).
Qed.

Lemma checkRateLimit_window_bound_witness :
  let run := checkRateLimits ∅ (lit "rate-limit-test") 5 60000 [0; 1; 2; 3; 4; 5] in
  (0 < 5)%Q
  ∧ (∅ : gmap jsstring RateLimit) !! (lit "ratelimit_" ++ lit "rate-limit-test") = None
  ∧ run.1.*2 = [true; true; true; true; true; false]
  ∧ Forall (λ window, granted window <= 5) (windows run.1).
Proof.
  intros run.
  assert (H5 : (0 < 5)%Q) by done.
  assert (Hn : (∅ : gmap jsstring RateLimit)
               !! (lit "ratelimit_" ++ lit "rate-limit-test") = None)
    by reflexivity.
  split; [exact H5|]. split; [exact Hn|]. split; [reflexivity|].
  exact (proj1 (checkRateLimit_window_bound ∅ (lit "rate-limit-test") 5 60000
                  [0; 1; 2; 3; 4; 5] H5 Hn)).
Defined.

(** ** [validateApiKey] *)

Section ApiKeys.

(** Whatever the provider, a key that is not blank is judged by the pattern
    the table holds for the provider's key, applied to the trimmed key; a
    provider key the table does not hold makes every such key valid. *)
Lemma validateApiKey_by_pattern (provider key : jsstring) :
  trim key ≠ [] →
  isValid (validateApiKey provider key)
  = match API_KEY_PATTERNS (providerKeyOf provider) with
    | Some pattern => test pattern (trim key)
    | None => true
    end.
Proof.
  intros Hk. unfold validateApiKey.
  assert (bool_decide (key = []) || bool_decide (length (trim key) = 0%nat) = false) as ->.
  { apply orb_false_iff. split; apply bool_decide_eq_false.
    - by intros ->.
    - by destruct (trim key). }
  destruct (API_KEY_PATTERNS (providerKeyOf provider)) as [pattern|]; [|done].
  by destruct (test pattern (trim key)).
Qed.

(** C2.  The format of an OpenAI key is never checked: the key the pattern
    table is read at loses its first [ai], so ['openai'] and ['OpenAI']
    become ['open'], which the table does not have.  The key
    ['invalid-key'] does not match [/^sk-[a-zA-Z0-9]{20,}$/] and is still
    reported valid, with the warning for unknown providers, where the
    test-suite expects [isValid: false] and an error; so is every key that
    is not blank. *)
Theorem validateApiKey_openai_unchecked :
  providerKeyOf (lit "openai") = lit "open"
  ∧ providerKeyOf (lit "OpenAI") = lit "open"
  ∧ API_KEY_PATTERNS (lit "open") = None
  ∧ test openai_pattern (lit "invalid-key") = false
  ∧ validateApiKey (lit "openai") (lit "invalid-key")
    = {| isValid := true; error := None;
         warning := Some (lit "Unknown provider - cannot validate key format") |}
  ∧ validateApiKey (lit "OpenAI") (lit "invalid-key")
    = {| isValid := true; error := None;
         warning := Some (lit "Unknown provider - cannot validate key format") |}
  ∧ (∀ key, trim key ≠ [] → isValid (validateApiKey (lit "openai") key) = true).
Proof.
  repeat split; try reflexivity.
  intros key Hkey. by rewrite validateApiKey_by_pattern.
Qed.

(** The other four provider names reach their patterns. *)
Lemma providerKeyOf_supported :
  API_KEY_PATTERNS (providerKeyOf (lit "Anthropic")) = Some anthropic_pattern
  ∧ API_KEY_PATTERNS (providerKeyOf (lit "Google")) = Some google_pattern
  ∧ API_KEY_PATTERNS (providerKeyOf (lit "Meta")) = Some huggingface_pattern
  ∧ API_KEY_PATTERNS (providerKeyOf (lit "Mistral AI")) = Some mistral_pattern.
Proof. repeat split; reflexivity. Qed.

End ApiKeys.

(** ** [generateBenchmarkResults] *)

Section Loops.
Import ApiService BenchmarkEngine.

Context {W : Type} {env : Environment W}.
Variables (onProgress : bool) (total : Z).

Let step (st : Run W) (p : LLMModel.t * BenchmarkTask.t) : Run W :=
  iteration onProgress total p.1 p.2 st.

Lemma calls_snoc (tr : list event) (e : event) :
  calls (tr ++ [e]) = calls tr ++ calls [e].
Proof. unfold calls. by rewrite omap_app. Qed.

(** One pass through the loop body: exactly one record is pushed, it is the
    record of the pair, [completed] goes up by one and [callModel] is
    invoked once if the provider is configured and not at all otherwise. *)
Lemma iteration_facts (model : LLMModel.t) (task : BenchmarkTask.t) (st : Run W) :
  ∃ r,
    results (iteration onProgress total model task st) = results st ++ [r]
    ∧ recordOf model task st r
    ∧ completed (iteration onProgress total model task st) = completed st + 1
    ∧ calls (trace (iteration onProgress total model task st))
      = calls (trace st)
        ++ (if isProviderConfigured (LLMModel.provider model) (world st)
            then [(model, task)] else []).
Proof.
  unfold iteration, recordOf.
  set (st1 := if onProgress then log _ st else st).
  assert (Hw : world st1 = world st) by (unfold st1; by destruct onProgress).
  assert (Hr : results st1 = results st) by (unfold st1; by destruct onProgress).
  assert (Hc : completed st1 = completed st) by (unfold st1; by destruct onProgress).
  assert (Ht : calls (trace st1) = calls (trace st)).
  { unfold st1. destruct onProgress; [|done]. simpl.
    by rewrite calls_snoc, app_nil_r. }
  rewrite Hw.
  destruct (isProviderConfigured (LLMModel.provider model) (world st)); simpl.
  - destruct (clock (world st)) as [startTime w1]; simpl.
    destruct (callModel model task w1) as [[apiResponse|error] w2].
    + destruct (clock w2) as [endTime w3]. destruct (clock w3) as [timestamp w4].
      eexists. simpl. rewrite Hr, Hc, calls_snoc, Ht.
      repeat split; try reflexivity.
      unfold answeredResult; simpl.
      by destruct (isSet (APIResponse.error apiResponse)).
    + destruct (clock w2) as [timestamp w3].
      eexists. simpl. rewrite Hr, Hc, calls_snoc, Ht. by repeat split.
  - rewrite Hw. destruct (clock (world st)) as [timestamp w1]; simpl.
    eexists. rewrite Hr, Hc, calls_snoc, Ht, !app_nil_r. by repeat split.
Qed.

Lemma loop_facts (l : list (LLMModel.t * BenchmarkTask.t)) :
  ∀ st, ∃ rs cs,
    results (foldl step st l) = results st ++ rs
    ∧ Forall3 (λ p s r, recordOf p.1 p.2 s r) l (trajectory step st l) rs
    ∧ calls (trace (foldl step st l)) = calls (trace st) ++ cs
    ∧ cs `sublist_of` l
    ∧ completed (foldl step st l) = completed st + Z.of_nat (length l).
Proof.
  induction l as [|[model task] l IH]; intros st; simpl.
  - exists [], []. rewrite !app_nil_r. repeat split; [constructor|done|lia].
  - destruct (iteration_facts model task st) as (r & Hr & Hrec & Hc & Ht).
    destruct (IH (step st (model, task))) as (rs & cs & Hrs & Hall & Hcs & Hsub & Hcompl).
    assert (Hstep : step st (model, task) = iteration onProgress total model task st)
      by reflexivity.
    rewrite Hstep in *.
    exists (r :: rs).
    exists ((if isProviderConfigured (LLMModel.provider model) (world st)
             then [(model, task)] else []) ++ cs).
    split; [rewrite Hrs, Hr; by rewrite <- app_assoc|].
    split; [by constructor|].
    split; [rewrite Hcs, Ht; by rewrite <- app_assoc|].
    split; [|rewrite Hcompl, Hc; lia].
    destruct (isProviderConfigured _ _); simpl.
    + by apply sublist_skip.
    + by apply sublist_cons.
Qed.

End Loops.

Section Pairs.
Import ApiService BenchmarkEngine.

(** The two nested loops visit the pairs in model-major order. *)
Lemma nested_loops {S A B} (f : S → A → B → S) (l : list A) (k : list B) :
  ∀ s, foldl (λ s a, foldl (λ s b, f s a b) s k) s l
       = foldl (λ s p, f s p.1 p.2) s (list_prod l k).
Proof.
  induction l as [|a l IH]; intros s; simpl; [done|].
  rewrite foldl_app, <- IH. f_equal.
  change (map (λ y, (a, y)) k) with ((λ y, (a, y)) <$> k). by rewrite foldl_fmap.
Qed.

Lemma pairs_lookup {A B} (l : list A) (k : list B) (i j : nat) (a : A) (b : B) :
  l !! i = Some a → k !! j = Some b →
  list_prod l k !! (i * length k + j)%nat = Some (a, b).
Proof.
  revert i. induction l as [|x l IH]; intros i Ha Hb; [done|].
  simpl. destruct i as [|i]; simpl in *.
  - injection Ha as ->. rewrite lookup_app_l.
    + change (map (λ y, (a, y)) k) with ((λ y, (a, y)) <$> k).
      by rewrite list_lookup_fmap, Hb.
    + rewrite length_map. by eapply lookup_lt_Some.
  - rewrite lookup_app_r; rewrite length_map; [|lia].
    replace (length k + i * length k + j - length k)%nat
      with (i * length k + j)%nat by lia.
    by apply IH.
Qed.

Context {W : Type} {env : Environment W}.

(** The run of [generateBenchmarkResults]: one record per pair, in the order
    of the pairs, each the record of its pair from the run reached before
    it; [callModel] is invoked for a subsequence of the pairs. *)
Lemma runBenchmark_facts (models : list LLMModel.t) (tasks : list BenchmarkTask.t)
    (onProgress : bool) (w : W) :
  let run := runBenchmark models tasks onProgress w in
  Forall3 (λ p st r, recordOf p.1 p.2 st r)
    (pairsOf models tasks) (statesBefore models tasks onProgress w) (results run)
  ∧ calls (trace run) `sublist_of` pairsOf models tasks
  ∧ completed run = Z.of_nat (length (pairsOf models tasks)).
Proof.
  unfold runBenchmark, statesBefore, pairsOf.
  set (total := Z.of_nat (length models) * Z.of_nat (length tasks)).
  set (st0 := {| world := w; trace := []; results := []; completed := 0 |}).
  rewrite (nested_loops (λ st model task, iteration onProgress total model task st)).
  destruct (loop_facts onProgress total (list_prod models tasks) st0)
    as (rs & cs & Hrs & Hall & Hcs & Hsub & Hcompl).
  simpl in Hrs, Hcs, Hcompl.
  set (st := foldl _ st0 _) in *.
  assert (Hlog : ∀ e, results (log e st) = results st
                      ∧ completed (log e st) = completed st) by done.
  assert (Hcalls : calls (trace (log (Progress 100 None) st)) = calls (trace st)).
  { simpl. by rewrite calls_snoc, app_nil_r. }
  destruct onProgress;
    [rewrite Hcalls; destruct (Hlog (Progress 100 None)) as [-> ->]|];
    rewrite Hrs, Hcs, Hcompl; by repeat split.
Qed.

End Pairs.

Section Order.
Import ApiService BenchmarkEngine Doubles.

Context {W : Type} {env : Environment W}.

Lemma trajectory_lookup {A S} (step : S → A → S) (l : list A) :
  ∀ (st : S) (k : nat), (k < length l)%nat →
    trajectory step st l !! k = Some (foldl step st (take k l)).
Proof.
  induction l as [|x l IH]; intros st k Hk; simpl in *; [lia|].
  destruct k as [|k]; [done|]. simpl. apply IH. lia.
Qed.

Lemma trajectory_length {A S} (step : S → A → S) (l : list A) (st : S) :
  length (trajectory step st l) = length l.
Proof. revert st. induction l as [|x l IH]; intros st; simpl; [done|]. by rewrite IH. Qed.

(** Sequential processing: when the pair at position [k] is reached, the
    records of the [k] pairs before it, and no others, have been pushed. *)
Lemma state_before_pair (models : list LLMModel.t) (tasks : list BenchmarkTask.t)
    (onProgress : bool) (w : W) (k : nat) (st : Run W) :
  statesBefore models tasks onProgress w !! k = Some st →
  results st = take k (generateBenchmarkResults models tasks onProgress w)
  ∧ completed st = Z.of_nat k.
Proof.
  unfold generateBenchmarkResults, runBenchmark, statesBefore, pairsOf.
  set (total := Z.of_nat (length models) * Z.of_nat (length tasks)).
  set (st0 := {| world := w; trace := []; results := []; completed := 0 |}).
  set (step := λ (st : Run W) (p : LLMModel.t * BenchmarkTask.t),
                 iteration onProgress total p.1 p.2 st).
  intros Hst.
  assert (Hk : (k < length (list_prod models tasks))%nat).
  { apply lookup_lt_Some in Hst. by rewrite trajectory_length in Hst. }
  rewrite trajectory_lookup in Hst by done. injection Hst as <-.
  rewrite (nested_loops (λ st model task, iteration onProgress total model task st)).
  fold step.
  destruct (loop_facts onProgress total (take k (list_prod models tasks)) st0)
    as (rs1 & cs1 & Hrs1 & Hall1 & _ & _ & Hc1).
  fold step in Hrs1, Hall1, Hc1. simpl in Hrs1, Hc1.
  destruct (loop_facts onProgress total (drop k (list_prod models tasks))
              (foldl step st0 (take k (list_prod models tasks))))
    as (rs2 & cs2 & Hrs2 & _ & _ & _ & _).
  fold step in Hrs2. rewrite <- foldl_app, take_drop in Hrs2.
  assert (Hlen : length rs1 = k).
  { apply Forall3_length_lr in Hall1. rewrite <- Hall1, length_take. lia. }
  split.
  - assert (Hres : ∀ st' : Run W,
                     results (if onProgress then log (Progress 100 None) st' else st')
                     = results st') by (intros; by destruct onProgress).
    rewrite Hres, Hrs2, Hrs1, take_app_length'; done.
  - rewrite Hc1, length_take. lia.
Qed.

(** C5.  The pairs are processed one after the other in model-major,
    task-minor order: for [i < |models|] and [j < |tasks|] the result at
    position [i * |tasks| + j] is the record of [models[i]] and [tasks[j]],
    built when exactly the records of the earlier pairs had been pushed. *)
Theorem generateBenchmarkResults_order (models : list LLMModel.t)
    (tasks : list BenchmarkTask.t) (onProgress : bool) (w : W)
    (i j : nat) (model : LLMModel.t) (task : BenchmarkTask.t) :
  models !! i = Some model →
  tasks !! j = Some task →
  let k := (i * length tasks + j)%nat in
  let results := generateBenchmarkResults models tasks onProgress w in
  ∃ st r,
    results !! k = Some r
    ∧ DetailedBenchmarkResult.modelId r = LLMModel.id model
    ∧ DetailedBenchmarkResult.taskId r = BenchmarkTask.id task
    ∧ statesBefore models tasks onProgress w !! k = Some st
    ∧ BenchmarkEngine.results st = take k results
    ∧ recordOf model task st r.
Proof.
  intros Hi Hj k res.
  destruct (runBenchmark_facts models tasks onProgress w) as (Hall & _ & _).
  pose proof (pairs_lookup models tasks i j model task Hi Hj) as Hp. fold k in Hp.
  destruct (Forall3_lookup_l _ _ _ _ _ _ Hall Hp) as (st & r & Hst & Hr & Hrec).
  exists st, r. simpl in Hrec.
  destruct (state_before_pair models tasks onProgress w k st Hst) as [Hres _].
  repeat split; try done; apply Hrec.
Qed.

End Order.

Section OrderExample.
Import ApiService BenchmarkEngine Doubles.

Lemma generateBenchmarkResults_order_witness :
  let results :=
    generateBenchmarkResults
      (env := mockEnvironment true (Returns (resolved (lit "Test response") 5 10 1000)))
      [gpt4o; gpt35] [mockTask; task2] false 0 in
  [gpt4o; gpt35] !! 1%nat = Some gpt35
  ∧ [mockTask; task2] !! 0%nat = Some mockTask
  ∧ ∃ r, results !! 2%nat = Some r
         ∧ DetailedBenchmarkResult.modelId r = lit "gpt-3.5"
         ∧ DetailedBenchmarkResult.taskId r = lit "test-task".
Proof.
  intros results.
  assert (Hi : [gpt4o; gpt35] !! 1%nat = Some gpt35) by reflexivity.
  assert (Hj : [mockTask; task2] !! 0%nat = Some mockTask) by reflexivity.
  split; [exact Hi|]. split; [exact Hj|].
  destruct (generateBenchmarkResults_order
              (env := mockEnvironment true (Returns (resolved (lit "Test response") 5 10 1000)))
              [gpt4o; gpt35] [mockTask; task2] false 0 1 0 gpt35 mockTask Hi Hj)
    as (st & r & Hr & Hm & Ht & _).
  exists r. by repeat split.
Defined.

End OrderExample.

Section Records.
Import ApiService BenchmarkEngine Doubles.
Local Open Scope Q_scope.


End Records.

Section RecordsOfARun.
Import ApiService BenchmarkEngine.

Context {W : Type} {env : Environment W}.


End RecordsOfARun.

Section Scores.
Import ApiService BenchmarkEngine.
Local Open Scope Q_scope.

Lemma Forall3_right {A B C} (P : A → B → C → Prop) l k k' :
  Forall3 P l k k' → Forall (λ z, ∃ x y, P x y z) k'.
Proof. induction 1; constructor; eauto. Qed.

Context {W : Type} {env : Environment W}.

(** C8, amended.  [assessOutputQuality] is 0 for an empty or blank output
    and lies in [0.5, 1] for any other; hence the combined score
    [quality * 0.8 + (1 - min(latency / 10000, 1)) * 0.2] lies in [0, 1]
    for a latency that is not negative, and so does every score
    [generateBenchmarkResults] records when the service reports no
    negative latency. *)
Theorem quality_and_score_bounds (models : list LLMModel.t)
    (tasks : list BenchmarkTask.t) (onProgress : bool) (w : W) :
  (∀ model task w0 apiResponse w1,
     callModel model task w0 = (Returns apiResponse, w1) →
     (0 <= APIResponse.latency apiResponse)%Z) →
  (∀ output task,
     if bool_decide (trim output = []) then assessOutputQuality output task = 0
     else 0.5 <= assessOutputQuality output task
          ∧ assessOutputQuality output task <= 1)
  ∧ (∀ output task latency,
       (0 <= latency)%Z →
       0 <= combinedScore (assessOutputQuality output task) latency
       ∧ combinedScore (assessOutputQuality output task) latency <= 1)
  ∧ Forall (λ r, 0 <= DetailedBenchmarkResult.score r
                 ∧ DetailedBenchmarkResult.score r <= 1)
      (generateBenchmarkResults models tasks onProgress w).
Proof.
  intros Hlatency.
  assert (Hq : ∀ output task, 0 <= assessOutputQuality output task
                              ∧ assessOutputQuality output task <= 1).
  { intros output task. pose proof (assessOutputQuality_range output task) as H.
    destruct (bool_decide (trim output = [])); [rewrite H|]; lra. }
  split; [exact assessOutputQuality_range|].
  split; [intros output task latency Hl; by apply combinedScore_bounds; try apply Hq|].
  destruct (runBenchmark_facts models tasks onProgress w) as (Hall & _ & _).
  apply Forall3_right in Hall. eapply Forall_impl; [exact Hall|].
  intros r ([model task] & st & _ & _ & Hrec). simpl in Hrec.
  destruct (isProviderConfigured _ _).
  - destruct (callModel model task _) as [[apiResponse|error] w1] eqn:Ecall.
    + destruct Hrec as [_ Hrec].
      destruct (isSet (APIResponse.error apiResponse)).
      * destruct Hrec as [-> _]. lra.
      * destruct Hrec as [-> ->].
        apply combinedScore_bounds; [apply Hq..|]. by eapply Hlatency.
    + destruct Hrec as (_ & -> & _). lra.
  - destruct Hrec as (_ & -> & _). lra.
Qed.

End Scores.

Section ScoresExample.
Import ApiService BenchmarkEngine Doubles.
Local Open Scope Q_scope.

Lemma quality_and_score_bounds_witness :
  let reply :=
    resolved (lit "def factorial(n): return 1 if n <= 1 else n * factorial(n-1)")
             10 20 1500 in
  (∀ (model : LLMModel.t) (task : BenchmarkTask.t) w0 apiResponse w1,
     callModel (Environment := mockEnvironment true (Returns reply)) model task w0
     = (Returns apiResponse, w1) →
     (0 <= APIResponse.latency apiResponse)%Z)
  ∧ Forall (λ r, 0 <= DetailedBenchmarkResult.score r
                 ∧ DetailedBenchmarkResult.score r <= 1)
      (generateBenchmarkResults (env := mockEnvironment true (Returns reply))
         [gpt4o] [mockTask] true 0%Z).
Proof.
  intros reply.
  assert (Hl : ∀ (model : LLMModel.t) (task : BenchmarkTask.t) w0 apiResponse w1,
             callModel (Environment := mockEnvironment true (Returns reply)) model task w0
             = (Returns apiResponse, w1) →
             (0 <= APIResponse.latency apiResponse)%Z).
  { intros model task w0 apiResponse w1 [= <- _]. simpl. lia. }
  split; [exact Hl|].
  exact (proj2 (proj2 (quality_and_score_bounds
                         (env := mockEnvironment true (Returns reply))
                         [gpt4o] [mockTask] true 0%Z Hl))).
Defined.

End ScoresExample.

(** ** [callModel] *)

Section CallModel.
Import ApiService Doubles.

(** C9, as stated, fails: the error field is the message of what was
    thrown, and an SDK that throws [new Error('')] leaves it empty. *)
Lemma callModel_empty_error :
  ∃ response w,
    callModel (platform := vendors 1500 (Some (ErrorObject [])) [])
      allConfigured gpt4o mockTask 0
    = (Returns response, w)
    ∧ APIResponse.content response = []
    ∧ APIResponse.error response = Some []
    ∧ isSet (APIResponse.error response) = false.
Proof. by eexists _, _. Qed.

Context {W : Type} {platform : Platform W}.

(** A request to a vendor that answers gives a response without error. *)
Lemma answered_without_error {R} (configured : bool) (message : jsstring)
    (request : M W R) (build : R → Z → APIResponse.t) (w : W)
    (response : APIResponse.t) (w' : W) :
  (∀ r t, APIResponse.error (build r t) = None) →
  (if negb configured then throw (ErrorObject message)
   else bind request (λ r, bind now (λ t, ret (build r t)))) w
  = (Returns response, w') →
  APIResponse.error response = None.
Proof.
  intros Hb. destruct configured; simpl; [|done].
  unfold bind, now, perform, ret.
  destruct (request w) as [[r|e] w1]; [|done].
  destruct (Date_now w1) as [t w2]. by intros [= <- _].
Qed.

Lemma dispatch_without_error (this : APIService) (model : LLMModel.t)
    (task : BenchmarkTask.t) (startTime : Z) (w : W)
    (response : APIResponse.t) (w' : W) :
  dispatch this model task startTime w = (Returns response, w') →
  APIResponse.error response = None.
Proof.
  unfold dispatch, callOpenAI, callAnthropic, callGoogle, callHuggingFace, callMistral.
  repeat case_bool_decide; try done;
    by apply answered_without_error.
Qed.

Lemma dispatch_unsupported (this : APIService) (model : LLMModel.t)
    (task : BenchmarkTask.t) (startTime : Z) (w : W) :
  ¬ supported (LLMModel.provider model) →
  dispatch this model task startTime w
  = (Throws (ErrorObject (lit "Unsupported provider: " ++ LLMModel.provider model)), w).
Proof.
  unfold supported, dispatch. intros Hs.
  repeat case_bool_decide; try done; exfalso; apply Hs;
    match goal with H : _ = _ |- _ => rewrite H end;
    repeat first [apply list_elem_of_here | apply list_elem_of_further].
Qed.

(** C9, amended.  [callModel] never rejects: it resolves to a response.
    When the model's provider is unsupported, its client is not configured
    or the provider call throws, the response has content [''], usage
    [{0, 0}] and an error field that is set: to the message of the thrown
    Error, which is not empty for the service's own errors ("Unsupported
    provider: ...") but is whatever the SDK put there otherwise, or to
    "Unknown error" when what was thrown is not an Error.  When the call
    succeeds the error field is absent. *)
Theorem callModel_never_rejects (this : APIService) (model : LLMModel.t)
    (task : BenchmarkTask.t) (w : W) :
  ∃ response w',
    callModel this model task w = (Returns response, w')
    ∧ match dispatch this model task (Date_now w).1 (Date_now w).2 with
      | (Throws error, _) =>
          APIResponse.content response = []
          ∧ APIResponse.inputTokens response = 0
          ∧ APIResponse.outputTokens response = 0
          ∧ APIResponse.error response = Some (messageOr (lit "Unknown error") error)
          ∧ (¬ supported (LLMModel.provider model) →
             APIResponse.error response
             = Some (lit "Unsupported provider: " ++ LLMModel.provider model)
             ∧ isSet (APIResponse.error response) = true)
      | (Returns answer, _) =>
          response = answer ∧ APIResponse.error response = None
      end.
Proof.
  unfold callModel, bind, tryCatch, now, perform, ret.
  destruct (Date_now w) as [startTime w1] eqn:E1; simpl.
  destruct (dispatch this model task startTime w1) as [[answer|error] w2] eqn:E2.
  - eexists _, _. split; [reflexivity|]. split; [done|].
    by eapply dispatch_without_error.
  - destruct (Date_now w2) as [t w3].
    eexists _, _. split; [reflexivity|]. simpl. repeat split.
    + rewrite dispatch_unsupported in E2 by done. by injection E2 as <- _.
    + rewrite dispatch_unsupported in E2 by done. by injection E2 as <- _.
Qed.

End CallModel.

(** ** [JSON.parse] inverts [JSON.stringify] *)

Section Digits.

Local Ltac zdm := Z.div_mod_to_equations; lia.

Lemma digitChar_decimal (d : Z) :
  0 <= d < 10 → isDigit (digitChar d) = true ∧ Z.of_N (digitChar d) - 48 = d.
Proof.
  intros Hd. unfold digitChar, isDigit.
  destruct (Z.ltb_spec d 10); [|lia].
  split; [apply andb_true_iff; split; apply N.leb_le|]; lia.
Qed.

Lemma digitsValue_snoc (ds : jsstring) (c : N) :
  digitsValue (ds ++ [c]) = digitsValue ds * 10 + (Z.of_N c - 48).
Proof. unfold digitsValue. by rewrite fold_left_app. Qed.

(** The decimal digits of a natural number: they are digits, they denote the
    number, and the first of them is 0 only for the number 0. *)
Lemma digitsOf_decimal (fuel : nat) :
  ∀ n acc, 0 <= n < 2 ^ Z.of_nat (S fuel) →
    ∃ d ds,
      digitsOf (S fuel) 10 n acc = d :: ds ++ acc
      ∧ Forall (λ c, isDigit c = true) (d :: ds)
      ∧ digitsValue (d :: ds) = n
      ∧ (d = 48%N → ds = []).
Proof.
  assert (Hone : ∀ n acc, 0 <= n → n / 10 = 0 →
            ∃ d ds,
              digitChar (n mod 10) :: acc = d :: ds ++ acc
              ∧ Forall (λ c, isDigit c = true) (d :: ds)
              ∧ digitsValue (d :: ds) = n
              ∧ (d = 48%N → ds = [])).
  { intros n acc Hn Hz. destruct (digitChar_decimal (n mod 10)) as [Hd Hv]; [zdm|].
    exists (digitChar (n mod 10)), []. simpl.
    split; [done|]. split; [by repeat constructor|]. split; [|done].
    unfold digitsValue. simpl. zdm. }
  induction fuel as [|fuel IH]; intros n acc Hn.
  - change (2 ^ Z.of_nat 1) with 2 in Hn. simpl.
    assert (n / 10 = 0) as Hz by zdm. rewrite Hz. simpl. apply Hone; lia.
  - rewrite Nat2Z.inj_succ, Z.pow_succ_r in Hn by lia.
    change (digitsOf (S (S fuel)) 10 n acc)
      with (if n / 10 =? 0 then digitChar (n mod 10) :: acc
            else digitsOf (S fuel) 10 (n / 10) (digitChar (n mod 10) :: acc)).
    destruct (digitChar_decimal (n mod 10)) as [Hd Hv]; [zdm|].
    destruct (Z.eqb_spec (n / 10) 0) as [Hz|Hz]; [apply Hone; lia|].
    destruct (IH (n / 10) (digitChar (n mod 10) :: acc)) as (d & ds & E & Hall & Hval & Hz0);
      [zdm|].
    exists d, (ds ++ [digitChar (n mod 10)]). rewrite E.
    split; [by rewrite <- app_assoc|].
    split; [rewrite app_comm_cons; apply Forall_app; split; [done|by repeat constructor]|].
    split.
    + rewrite app_comm_cons, digitsValue_snoc, Hval. zdm.
    + intros ->. specialize (Hz0 eq_refl). subst ds.
      unfold digitsValue in Hval. simpl in Hval. zdm.
Qed.

Lemma spanDigits_app (ds rest : jsstring) :
  Forall (λ c, isDigit c = true) ds →
  (∀ c, head rest = Some c → isDigit c = false) →
  spanDigits (ds ++ rest) = (ds, rest).
Proof.
  intros Hds Hrest. induction Hds as [|c ds Hc _ IH]; simpl.
  - destruct rest as [|c rest]; [done|]. simpl. by rewrite (Hrest c).
  - by rewrite Hc, IH.
Qed.

Lemma parseNumber_toString (n : Z) (rest : jsstring) :
  delimited rest →
  parseNumber (toStringRadix 10 n ++ rest) = Some (n, rest).
Proof.
  intros Hrest.
  assert (Hfuel : 0 <= Z.abs n < 2 ^ Z.of_nat (S (Z.to_nat (Z.log2 (Z.abs n))))).
  { split; [lia|]. rewrite Nat2Z.inj_succ, Z2Nat.id by apply Z.log2_nonneg.
    destruct (Z.eq_dec (Z.abs n) 0) as [->|]; [done|]. apply Z.log2_spec. lia. }
  destruct (digitsOf_decimal _ (Z.abs n) [] Hfuel) as (d & ds & E & Hall & Hval & Hz0).
  rewrite app_nil_r in E.
  assert (Hnat : parseNatural ((d :: ds) ++ rest) = Some (Z.abs n, rest)).
  { unfold parseNatural. rewrite spanDigits_app; [|done|].
    - assert ((d =? 48)%N && negb (bool_decide (ds = [])) = false) as ->.
      { destruct (N.eqb_spec d 48) as [->|]; [|done]. by rewrite Hz0. }
      rewrite Hval. destruct rest as [|c rest]; [done|].
      simpl in Hrest. by destruct Hrest as [->|[->| ->]].
    - destruct rest as [|c rest]; [done|]. simpl. intros ? [= <-].
      simpl in Hrest. by destruct Hrest as [->|[->| ->]]. }
  unfold toStringRadix. rewrite E. unfold parseNumber.
  destruct (Z.ltb_spec n 0).
  - simpl. simpl in Hnat. rewrite Hnat. simpl. do 2 f_equal. lia.
  - assert ((d =? 45)%N = false) as Hd.
    { apply N.eqb_neq. intros ->. by inversion Hall. }
    simpl. rewrite Hd. simpl in Hnat. rewrite Hnat. do 2 f_equal. lia.
Qed.

End Digits.

Section Strings.

Local Ltac ncases :=
  repeat match goal with
         | |- context [(?a <=? ?b)%N] => destruct (N.leb_spec a b); try lia
         | |- context [(?a <? ?b)%N] => destruct (N.ltb_spec a b); try lia
         | |- context [(?a =? ?b)%N] => destruct (N.eqb_spec a b); try lia
         end.

Lemma hexValue_hexChar (d : N) : (d < 16)%N → hexValue (hexChar d) = Some d.
Proof.
  intros Hd. unfold hexValue, hexChar, digitChar, isDigit.
  destruct (Z.ltb_spec (Z.of_N d) 10).
  - replace (Z.to_N (48 + Z.of_N d)) with (48 + d)%N by lia.
    ncases. simpl. f_equal. lia.
  - replace (Z.to_N (87 + Z.of_N d)) with (87 + d)%N by lia.
    ncases. simpl. f_equal. lia.
Qed.

(** A code unit is the value of its four hexadecimal digits. *)
Lemma unicodeEscape_value (c : N) :
  (c < 65536)%N →
  (c / 4096 mod 16 * 4096 + c / 256 mod 16 * 256 + c / 16 mod 16 * 16 + c mod 16 = c)%N.
Proof.
  intros Hc.
  replace (c / 4096)%N with (c / 16 / 16 / 16)%N by (by rewrite !N.Div0.div_div).
  replace (c / 256)%N with (c / 16 / 16)%N by (by rewrite !N.Div0.div_div).
  pose proof (N.Div0.div_mod c 16) as H1.
  pose proof (N.Div0.div_mod (c / 16) 16) as H2.
  pose proof (N.Div0.div_mod (c / 16 / 16) 16) as H3.
  assert (c / 16 / 16 / 16 < 16)%N as H4.
  { rewrite !N.Div0.div_div. apply N.Div0.div_lt_upper_bound. simpl. lia. }
  rewrite (N.mod_small _ _ H4).
  set (a := (c / 16)%N) in *. set (b := (a / 16)%N) in *.
  set (d := (b / 16)%N) in *. lia.
Qed.

Lemma parseChars_unicodeEscape (c : N) (s : jsstring) :
  (c < 65536)%N →
  parseChars (unicodeEscape c ++ s) = p ← parseChars s; Some (c :: p.1, p.2).
Proof.
  intros Hc. unfold unicodeEscape. simpl.
  rewrite !hexValue_hexChar by (apply N.mod_lt; lia). simpl.
  by rewrite unicodeEscape_value.
Qed.

(** Reading back the characters of a quoted string. *)
Lemma parseChars_quoteChars (n : nat) :
  ∀ s rest, (length s <= n)%nat →
    parseChars (quoteChars s ++ 34%N :: rest) = Some (s, rest).
Proof.
  induction n as [|n IH]; intros s rest Hlen.
  { destruct s; [done|simpl in Hlen; lia]. }
  destruct s as [|c s]; [done|]. simpl in Hlen.
  assert (IHs : parseChars (quoteChars s ++ 34%N :: rest) = Some (s, rest))
    by (apply IH; lia).
  cbn [quoteChars].
  destruct (N.eqb_spec c 34) as [->|H34]; [simpl; by rewrite IHs|].
  destruct (N.eqb_spec c 92) as [->|H92]; [simpl; by rewrite IHs|].
  destruct (N.eqb_spec c 8) as [->|H8]; [simpl; by rewrite IHs|].
  destruct (N.eqb_spec c 9) as [->|H9]; [simpl; by rewrite IHs|].
  destruct (N.eqb_spec c 10) as [->|H10]; [simpl; by rewrite IHs|].
  destruct (N.eqb_spec c 12) as [->|H12]; [simpl; by rewrite IHs|].
  destruct (N.eqb_spec c 13) as [->|H13]; [simpl; by rewrite IHs|].
  assert (Hplain : ∀ (x : N) (t : jsstring), (32 <= x)%N → x ≠ 34%N → x ≠ 92%N →
            parseChars (x :: t) = p ← parseChars t; Some (x :: p.1, p.2)).
  { intros x t Hx Hq Hb. simpl. by ncases. }
  destruct (N.ltb_spec c 32) as [Hlow|Hlow].
  { rewrite <- app_assoc, parseChars_unicodeEscape by lia. by rewrite IHs. }
  unfold isHighSurrogate, isLowSurrogate.
  destruct (N.leb_spec 55296 c) as [Hh1|Hh1]; cbn [andb app].
  - destruct (N.leb_spec c 56319) as [Hh2|Hh2]; cbn [andb app].
    + destruct s as [|d s].
      * rewrite (parseChars_unicodeEscape c (34%N :: rest)) by lia. done.
      * destruct (N.leb_spec 56320 d) as [Hl1|Hl1]; cbn [andb app].
        -- destruct (N.leb_spec d 57343) as [Hl2|Hl2]; cbn [andb app].
           ++ change (c :: d :: quoteChars s ++ 34%N :: rest)
                with (c :: d :: (quoteChars s ++ 34%N :: rest)).
              rewrite Hplain by lia. rewrite Hplain by lia.
              rewrite IH by (simpl in Hlen; lia). done.
           ++ rewrite <- app_assoc, parseChars_unicodeEscape by lia. by rewrite IHs.
        -- rewrite <- app_assoc, parseChars_unicodeEscape by lia. by rewrite IHs.
    + destruct (N.leb_spec 56320 c) as [Hl1|Hl1]; cbn [andb app].
      * destruct (N.leb_spec c 57343) as [Hl2|Hl2]; cbn [andb app].
        -- rewrite <- app_assoc, parseChars_unicodeEscape by lia. by rewrite IHs.
        -- change (c :: quoteChars s ++ 34%N :: rest)
             with (c :: (quoteChars s ++ 34%N :: rest)).
           rewrite Hplain by lia. by rewrite IHs.
      * lia.
  - destruct (N.leb_spec 56320 c) as [Hl1|Hl1]; [lia|]. cbn [andb app].
    change (c :: quoteChars s ++ 34%N :: rest)
      with (c :: (quoteChars s ++ 34%N :: rest)).
    rewrite Hplain by lia. by rewrite IHs.
Qed.

End Strings.

Section Values.

Lemma json_nested_ind (P : json → Prop) :
  P JNull → (∀ b, P (JBool b)) → (∀ n, P (JNum n)) → (∀ s, P (JStr s)) →
  (∀ items, Forall P items → P (JArr items)) →
  (∀ members, Forall (λ m, P m.2) members → P (JObj members)) →
  ∀ v, P v.
Proof.
  intros Hnull Hbool Hnum Hstr Harr Hobj.
  fix IH 1. intros [| b | n | s | items | members].
  - exact Hnull.
  - apply Hbool.
  - apply Hnum.
  - apply Hstr.
  - apply Harr. induction items as [|v items IHitems]; constructor;
      [apply IH|exact IHitems].
  - apply Hobj. induction members as [|[k v] members IHm]; constructor;
      [apply IH|exact IHm].
Qed.

(** The first character of a number: a minus sign or a digit. *)
Lemma number_head (n : Z) :
  ∃ c s, toStringRadix 10 n = c :: s ∧ (c = 45%N ∨ isDigit c = true).
Proof.
  unfold toStringRadix.
  assert (Hfuel : 0 <= Z.abs n < 2 ^ Z.of_nat (S (Z.to_nat (Z.log2 (Z.abs n))))).
  { split; [lia|]. rewrite Nat2Z.inj_succ, Z2Nat.id by apply Z.log2_nonneg.
    destruct (Z.eq_dec (Z.abs n) 0) as [->|]; [done|]. apply Z.log2_spec. lia. }
  destruct (digitsOf_decimal _ (Z.abs n) [] Hfuel) as (d & ds & E & Hall & _).
  rewrite E. destruct (n <? 0); eexists _, _; split; try reflexivity; [by left|].
  right. by inversion Hall.
Qed.

Lemma parseElements_join (items : list json) :
  Forall readsBack items → items ≠ [] →
  ∀ fuel rest, (length (joinComma (map JSON_stringify items)) < fuel)%nat →
    parseElements fuel (joinComma (map JSON_stringify items) ++ 93%N :: rest)
    = Some (items, rest).
Proof.
  induction 1 as [|v items Hv Hitems IH]; [done|]. intros _ fuel rest Hfuel.
  destruct fuel as [|fuel]; [lia|].
  destruct items as [|v' items].
  - simpl in *. rewrite Hv; [|lia|by right; left]. simpl. done.
  - change (joinComma (map JSON_stringify (v :: v' :: items)))
      with (JSON_stringify v ++ 44%N :: joinComma (map JSON_stringify (v' :: items))) in *.
    rewrite length_app in Hfuel. simpl in Hfuel.
    rewrite <- app_assoc. cbn [parseElements].
    rewrite Hv; [|lia|by left]. simpl.
    change (joinComma (JSON_stringify v' :: map JSON_stringify items))
      with (joinComma (map JSON_stringify (v' :: items))).
    rewrite IH; [done|done|]. simpl. simpl in Hfuel. lia.
Qed.

Lemma memberText_app (m : jsstring * json) (rest : jsstring) :
  memberText m ++ rest
  = 34%N :: (quoteChars m.1 ++ 34%N :: 58%N :: (JSON_stringify m.2 ++ rest)).
Proof. unfold memberText, quote. simpl. by rewrite <- !app_assoc. Qed.

Lemma memberText_length (m : jsstring * json) :
  (length (JSON_stringify m.2) < length (memberText m))%nat.
Proof. unfold memberText, quote. simpl. rewrite !length_app. simpl. lia. Qed.

Lemma parseMembers_join (members : list (jsstring * json)) :
  Forall (λ m, readsBack m.2) members → members ≠ [] →
  ∀ fuel rest, (length (joinComma (map memberText members)) < fuel)%nat →
    parseMembers fuel (joinComma (map memberText members) ++ 125%N :: rest)
    = Some (members, rest).
Proof.
  induction 1 as [|m members Hm Hmembers IH]; [done|]. intros _ fuel rest Hfuel.
  destruct fuel as [|fuel]; [lia|].
  pose proof (memberText_length m) as Hlen.
  destruct members as [|m' members].
  - change (joinComma (map memberText [m])) with (memberText m) in *.
    rewrite memberText_app.
    cbn [parseMembers skipWs]. simpl.
    erewrite parseChars_quoteChars by reflexivity. simpl.
    rewrite Hm; [|lia|by right; right]. simpl. by destruct m.
  - change (joinComma (map memberText (m :: m' :: members)))
      with (memberText m ++ 44%N :: joinComma (map memberText (m' :: members))) in *.
    rewrite length_app in Hfuel. cbn [length] in Hfuel.
    rewrite <- app_assoc, memberText_app.
    cbn [parseMembers skipWs]. simpl.
    erewrite parseChars_quoteChars by reflexivity. simpl.
    rewrite Hm; [|lia|by left]. simpl.
    change (joinComma (memberText m' :: map memberText members))
      with (joinComma (map memberText (m' :: members))).
    rewrite IH; [by destruct m|done|]. lia.
Qed.

(** No value starts with white space or with a closing bracket. *)
Lemma value_start (v : json) :
  ∃ c t, JSON_stringify v = c :: t ∧ isJsonWs c = false ∧ (c =? 93)%N = false.
Proof.
  destruct v as [|[]|n|s|items|members]; try by eexists _, _.
  destruct (number_head n) as (c & s & E & Hc). exists c, s. split; [done|].
  destruct Hc as [->|Hd]; [done|]. unfold isDigit in Hd.
  apply andb_true_iff in Hd as [H1%N.leb_le H2%N.leb_le]. unfold isJsonWs.
  repeat match goal with
         | |- context [(c =? ?k)%N] => destruct (N.eqb_spec c k); [lia|]
         end. done.
Qed.

Lemma joinComma_cons (x : jsstring) (xs : list jsstring) :
  ∃ t, joinComma (x :: xs) = x ++ t.
Proof. destruct xs; [exists []; by rewrite app_nil_r|by eexists]. Qed.

(** Every value is read back from its text. *)
Lemma stringify_readsBack (v : json) : readsBack v.
Proof.
  induction v as [|b|n|s|items IH|members IH] using json_nested_ind;
    intros fuel rest Hfuel Hrest.
  - destruct fuel as [|fuel]; [simpl in Hfuel; lia|]. reflexivity.
  - destruct fuel as [|fuel]; [destruct b; simpl in Hfuel; lia|]. by destruct b.
  - destruct (number_head n) as (c & s & E & Hc).
    pose proof (parseNumber_toString n rest Hrest) as Hp.
    simpl JSON_stringify in *. rewrite E in *.
    destruct fuel as [|fuel]; [simpl in Hfuel; lia|].
    assert (Hstart : isJsonWs c = false ∧ (c =? 110)%N = false ∧ (c =? 116)%N = false
                     ∧ (c =? 102)%N = false ∧ (c =? 34)%N = false
                     ∧ (c =? 91)%N = false ∧ (c =? 123)%N = false).
    { destruct Hc as [->|Hd]; [done|]. unfold isDigit in Hd.
      apply andb_true_iff in Hd as [H1%N.leb_le H2%N.leb_le].
      unfold isJsonWs.
      repeat match goal with
             | |- context [(c =? ?k)%N] => destruct (N.eqb_spec c k); [lia|]
             end. done. }
    destruct Hstart as (H0 & H1 & H2 & H3 & H4 & H5 & H6).
    cbn [parseValue skipWs app]. rewrite H0, H1, H2, H3, H4, H5, H6.
    change (c :: s ++ rest) with ((c :: s) ++ rest). by rewrite Hp.
  - destruct fuel as [|fuel]; [simpl in Hfuel; lia|].
    change (JSON_stringify (JStr s) ++ rest)
      with (34%N :: (quoteChars s ++ [34%N]) ++ rest).
    rewrite <- app_assoc. cbn [parseValue skipWs app]. simpl.
    by erewrite parseChars_quoteChars by reflexivity.
  - change (JSON_stringify (JArr items))
      with (91%N :: joinComma (map JSON_stringify items) ++ [93%N]) in *.
    simpl in Hfuel. rewrite length_app in Hfuel. simpl in Hfuel.
    destruct fuel as [|fuel]; [lia|].
    rewrite <- app_comm_cons, <- app_assoc. cbn [parseValue skipWs app]. simpl.
    destruct items as [|v items]; [done|].
    set (text := joinComma (map JSON_stringify (v :: items)) ++ 93%N :: rest).
    assert (Hhead : ∃ c t, text = c :: t ∧ isJsonWs c = false ∧ (c =? 93)%N = false).
    { destruct (value_start v) as (c & t & E & Hws & Hc).
      destruct (joinComma_cons (JSON_stringify v) (map JSON_stringify items)) as [t' E'].
      exists c, (t ++ t' ++ 93%N :: rest). split; [|done].
      unfold text. change (map JSON_stringify (v :: items))
        with (JSON_stringify v :: map JSON_stringify items).
      rewrite E', E. by rewrite <- !app_assoc. }
    destruct Hhead as (c & t & E & Hws & Hc).
    assert (Hskip : skipWs text = c :: t) by (rewrite E; simpl; by rewrite Hws).
    rewrite Hskip, Hc. unfold text.
    rewrite parseElements_join; [done|done|done|lia].
  - change (JSON_stringify (JObj members))
      with (123%N :: joinComma (map memberText members) ++ [125%N]) in *.
    simpl in Hfuel. rewrite length_app in Hfuel. simpl in Hfuel.
    destruct fuel as [|fuel]; [lia|].
    rewrite <- app_comm_cons, <- app_assoc. cbn [parseValue skipWs app]. simpl.
    destruct members as [|m members]; [done|].
    set (text := joinComma (map memberText (m :: members)) ++ 125%N :: rest).
    assert (Hhead : ∃ t, text = 34%N :: t).
    { destruct (joinComma_cons (memberText m) (map memberText members)) as [t' E'].
      unfold text. change (map memberText (m :: members))
        with (memberText m :: map memberText members).
      rewrite E'. unfold memberText, quote. by eexists. }
    destruct Hhead as (t & E).
    assert (Hskip : skipWs text = 34%N :: t) by (by rewrite E).
    rewrite Hskip. simpl. unfold text.
    rewrite parseMembers_join; [done|done|done|lia].
Qed.

(** [JSON.parse(JSON.stringify(v))] is [v]. *)
Lemma JSON_parse_stringify (v : json) : JSON_parse (JSON_stringify v) = Some v.
Proof.
  unfold JSON_parse.
  pose proof (stringify_readsBack v (S (length (JSON_stringify v))) []) as H.
  rewrite app_nil_r in H. rewrite H; [done|lia|done].
Qed.

End Values.

(** ** [secureStore] and [secureRetrieve] *)

Section SecureStorage.

Lemma digitsOf_nonempty (fuel : nat) (radix n : Z) (acc : jsstring) :
  acc ≠ [] → digitsOf fuel radix n acc ≠ [].
Proof.
  revert n acc. induction fuel as [|fuel IH]; intros n acc Hacc; simpl; [done|].
  destruct (n / radix =? 0); [done|]. by apply IH.
Qed.

Lemma toStringRadix_nonempty (radix n : Z) : toStringRadix radix n ≠ [].
Proof.
  unfold toStringRadix. destruct (n <? 0); [done|].
  simpl. destruct (_ / radix =? 0); [done|]. by apply digitsOf_nonempty.
Qed.

Lemma generateChecksum_nonempty (data : jsstring) : generateChecksum data ≠ [].
Proof. apply toStringRadix_nonempty. Qed.

(** The three fields of the record [secureStore] writes. *)
Lemma sealed_fields (now : Z) (value : json) :
  getProp (sealed now value) (lit "value") = Value value
  ∧ getProp (sealed now value) (lit "timestamp") = Value (JNum now)
  ∧ getProp (sealed now value) (lit "checksum")
    = Value (JStr (generateChecksum (JSON_stringify value))).
Proof. repeat split; reflexivity. Qed.

(** C3, as stated, fails for the falsy values: [secureRetrieve] takes a
    stored value that is [''], [0] or [false] for a missing field, returns
    [null] and removes the entry. *)
Lemma falsy_values_are_lost :
  let ls := {| items := ∅; quota := 1000 |} in
  let now := 1700000000000 in
  Forall (λ value,
            ∃ ls', secureStore ls now (lit "k") value = Some ls'
                   ∧ is_Some (getItem ls' (lit "k"))
                   ∧ (secureRetrieve ls' now (lit "k")).1 = JNull
                   ∧ getItem (secureRetrieve ls' now (lit "k")).2 (lit "k") = None)
         [JStr []; JNum 0; JBool false].
Proof.
  intros ls now.
  do 3 (constructor;
        [eexists; split; [by vm_compute|]; split; [by eexists|]; by vm_compute|]).
  constructor.
Qed.

(** C3, amended.  For every key and every value that is truthy (not [''],
    [0], [false] or [null]): after [secureStore(key, value)] has succeeded
    at a clock reading other than 0, a [secureRetrieve(key)] within the
    30-day age limit, with no write in between, returns the value and
    leaves the storage as it is. *)
Theorem secureStore_secureRetrieve (ls ls' : Storage) (now now' : Z)
    (key : jsstring) (value : json) :
  truthy value = true →
  now ≠ 0 →
  now' - now <= maxAge →
  secureStore ls now key value = Some ls' →
  secureRetrieve ls' now' key = (value, ls').
Proof.
  intros Hv Hnow Hage Hstore.
  assert (Hparse := JSON_parse_stringify (sealed now value)).
  assert (JSON_stringify (sealed now value) ≠ []) as Hne by done.
  unfold secureStore, setItem in Hstore.
  set (text := JSON_stringify (sealed now value)) in *.
  destruct (_ <=? _)%nat; [|done]. injection Hstore as <-.
  unfold secureRetrieve, getItem. simpl. rewrite lookup_insert_eq.
  rewrite (bool_decide_eq_false_2 _ Hne), Hparse.
  destruct (sealed_fields now value) as (-> & -> & ->). simpl.
  rewrite Hv. simpl.
  assert ((now =? 0) = false) as -> by by apply Z.eqb_neq.
  pose proof (generateChecksum_nonempty (JSON_stringify value)) as Hc.
  rewrite (bool_decide_eq_false_2 _ Hc). simpl.
  rewrite bool_decide_eq_true_2 by done. simpl.
  by assert ((now' - now >? maxAge) = false) as -> by lia.
Qed.

Lemma secureStore_secureRetrieve_witness :
  let value := JObj [(lit "key1", JStr (lit "value1")); (lit "key2", JStr (lit "value2"))] in
  let ls := {| items := ∅; quota := 1000 |} in
  ∃ ls',
    truthy value = true
    ∧ secureStore ls 1700000000000 (lit "test-key") value = Some ls'
    ∧ secureRetrieve ls' 1700000000001 (lit "test-key") = (value, ls').
Proof.
  intros value ls. eexists.
  assert (Hv : truthy value = true) by reflexivity.
  split; [exact Hv|].
  assert (Hs : secureStore ls 1700000000000 (lit "test-key") value = Some _)
    by (vm_compute; reflexivity).
  split; [exact Hs|].
  refine (secureStore_secureRetrieve ls _ 1700000000000 1700000000001
            (lit "test-key") value Hv _ _ Hs); [lia|unfold maxAge; lia].
Defined.

End SecureStorage.

Section Grammar.

Lemma parseNatural_scans (s : jsstring) (n : Z) (r : jsstring) :
  parseNatural s = Some (n, r) →
  ∃ d ds, spanDigits s = (d :: ds, r)
          ∧ (d =? 48)%N && negb (bool_decide (ds = [])) = false
          ∧ scanNeither r = Some r.
Proof.
  unfold parseNatural. destruct (spanDigits s) as [[|d ds] rest]; [done|].
  destruct ((d =? 48)%N && negb (bool_decide (ds = []))) eqn:E; [done|].
  destruct rest as [|c rest].
  - intros [= <- <-]. by exists d, ds.
  - destruct ((c =? 46) || (c =? 101) || (c =? 69))%N eqn:Ec; [done|].
    intros [= <- <-]. exists d, ds. repeat split; try done.
    unfold scanNeither. by rewrite Ec.
Qed.

Lemma parseNumber_scans (s : jsstring) (n : Z) (r : jsstring) :
  parseNumber s = Some (n, r) → scanNumber false s = Some r.
Proof.
  unfold parseNumber, scanNumber. destruct s as [|c s]; [done|].
  destruct (c =? 45)%N.
  - destruct (parseNatural s) as [[m r']|] eqn:E; [|done]. simpl. intros [= <- <-].
    by apply parseNatural_scans in E as (d & ds & -> & -> & ->).
  - intros E.
    by apply parseNatural_scans in E as (d & ds & -> & -> & ->).
Qed.

Lemma scanNumber_parses (s r : jsstring) :
  scanNumber false s = Some r → ∃ n, parseNumber s = Some (n, r).
Proof.
  assert (Hnat : ∀ t, (match spanDigits t with
                       | ([], _) => None
                       | (d :: ds, rest) =>
                           if (d =? 48)%N && negb (bool_decide (ds = [])) then None
                           else scanNeither rest
                       end = Some r) → ∃ n, parseNatural t = Some (n, r)).
  { intros t. unfold parseNatural. destruct (spanDigits t) as [[|d ds] rest]; [done|].
    destruct ((d =? 48)%N && negb (bool_decide (ds = []))); [done|].
    unfold scanNeither. destruct rest as [|c rest]; [intros [= <-]; by eexists|].
    destruct ((c =? 46) || (c =? 101) || (c =? 69))%N; [done|].
    intros [= <-]. by eexists. }
  unfold scanNumber, parseNumber. destruct s as [|c s]; [done|].
  destruct (c =? 45)%N.
  - intros H. destruct (Hnat s H) as [n ->]. by eexists.
  - intros H. by apply Hnat.
Qed.

(** A number with a fraction or an exponent is a number of the grammar. *)
Lemma scanNumber_fractions (s r : jsstring) :
  scanNumber false s = Some r → scanNumber true s = Some r.
Proof.
  unfold scanNumber. destruct (spanDigits _) as [[|d ds] rest]; [done|].
  destruct (_ && _); [done|]. unfold scanNeither, scanFraction, scanExponent.
  destruct rest as [|c rest]; [by intros [= <-]|].
  destruct ((c =? 46) || (c =? 101) || (c =? 69))%N eqn:Ec; [done|].
  intros [= <-].
  apply orb_false_iff in Ec as [Ec E69]. apply orb_false_iff in Ec as [E46 E101].
  rewrite E46. simpl. by rewrite E101, E69.
Qed.

(** The scanner accepts what the parser reads, and stops where it stops. *)
Lemma parse_scans (fuel : nat) :
  (∀ s v r, parseValue fuel s = Some (v, r) → scanValue false fuel s = Some r)
  ∧ (∀ s vs r, parseElements fuel s = Some (vs, r) → scanElements false fuel s = Some r)
  ∧ (∀ s ms r, parseMembers fuel s = Some (ms, r) → scanMembers false fuel s = Some r).
Proof.
  induction fuel as [|fuel (IHv & IHe & IHm)]; [by repeat split|].
  split; [|split].
  - intros s v r. cbn [parseValue scanValue].
    destruct (skipWs s) as [|c rest]; [done|].
    destruct (c =? 110)%N.
    { unfold parseLiteral. destruct (stripPrefix _ rest); [|done]. by intros [= <- <-]. }
    destruct (c =? 116)%N.
    { unfold parseLiteral. destruct (stripPrefix _ rest); [|done]. by intros [= <- <-]. }
    destruct (c =? 102)%N.
    { unfold parseLiteral. destruct (stripPrefix _ rest); [|done]. by intros [= <- <-]. }
    destruct (c =? 34)%N.
    { destruct (parseChars rest) as [p|]; [|done]. simpl. by intros [= <- <-]. }
    destruct (c =? 91)%N.
    { destruct (skipWs rest) as [|d rest']; [done|].
      destruct (d =? 93)%N; [by intros [= <- <-]|].
      destruct (parseElements fuel rest) as [p|] eqn:E; [|done]. simpl. intros [= <- <-].
      destruct p as [vs r]. by apply IHe in E. }
    destruct (c =? 123)%N.
    { destruct (skipWs rest) as [|d rest']; [done|].
      destruct (d =? 125)%N; [by intros [= <- <-]|].
      destruct (parseMembers fuel rest) as [p|] eqn:E; [|done]. simpl. intros [= <- <-].
      destruct p as [ms r]. by apply IHm in E. }
    destruct (parseNumber (c :: rest)) as [p|] eqn:E; [|done]. simpl. intros [= <- <-].
    destruct p as [n r]. by apply parseNumber_scans in E.
  - intros s vs r. cbn [parseElements scanElements].
    destruct (parseValue fuel s) as [[v after]|] eqn:E; [|done].
    apply IHv in E. rewrite E. simpl.
    destruct (skipWs after) as [|d rest]; [done|].
    destruct (d =? 44)%N.
    { destruct (parseElements fuel rest) as [[vs' r']|] eqn:E'; [|done].
      simpl. intros [= <- <-]. by apply IHe in E'. }
    destruct (d =? 93)%N; [|done]. by intros [= <- <-].
  - intros s ms r. cbn [parseMembers scanMembers].
    destruct (skipWs s) as [|q s1]; [done|].
    destruct (q =? 34)%N; [|done].
    destruct (parseChars s1) as [k|]; [|done]. simpl.
    destruct (skipWs k.2) as [|colon s2]; [done|].
    destruct (colon =? 58)%N; [|done].
    destruct (parseValue fuel s2) as [[v after]|] eqn:E; [|done].
    apply IHv in E. rewrite E. simpl.
    destruct (skipWs after) as [|d rest]; [done|].
    destruct (d =? 44)%N.
    { destruct (parseMembers fuel rest) as [[ms' r']|] eqn:E'; [|done].
      simpl. intros [= <- <-]. by apply IHm in E'. }
    destruct (d =? 125)%N; [|done]. by intros [= <- <-].
Qed.

(** And the parser reads what the scanner accepts without fractions. *)
Lemma scans_parse (fuel : nat) :
  (∀ s r, scanValue false fuel s = Some r → ∃ v, parseValue fuel s = Some (v, r))
  ∧ (∀ s r, scanElements false fuel s = Some r → ∃ vs, parseElements fuel s = Some (vs, r))
  ∧ (∀ s r, scanMembers false fuel s = Some r → ∃ ms, parseMembers fuel s = Some (ms, r)).
Proof.
  induction fuel as [|fuel (IHv & IHe & IHm)]; [by repeat split|].
  split; [|split].
  - intros s r. cbn [parseValue scanValue].
    destruct (skipWs s) as [|c rest]; [done|].
    destruct (c =? 110)%N.
    { unfold parseLiteral. intros ->. by eexists. }
    destruct (c =? 116)%N.
    { unfold parseLiteral. intros ->. by eexists. }
    destruct (c =? 102)%N.
    { unfold parseLiteral. intros ->. by eexists. }
    destruct (c =? 34)%N.
    { destruct (parseChars rest) as [p|]; [|done]. simpl. intros [= <-]. by eexists. }
    destruct (c =? 91)%N.
    { destruct (skipWs rest) as [|d rest']; [done|].
      destruct (d =? 93)%N; [intros [= <-]; by eexists|].
      intros H. destruct (IHe _ _ H) as [vs ->]. by eexists. }
    destruct (c =? 123)%N.
    { destruct (skipWs rest) as [|d rest']; [done|].
      destruct (d =? 125)%N; [intros [= <-]; by eexists|].
      intros H. destruct (IHm _ _ H) as [ms ->]. by eexists. }
    intros H. destruct (scanNumber_parses _ _ H) as [n ->]. by eexists.
  - intros s r. cbn [parseElements scanElements].
    destruct (scanValue false fuel s) as [after|] eqn:E; [|done].
    destruct (IHv _ _ E) as [v ->]. simpl.
    destruct (skipWs after) as [|d rest]; [done|].
    destruct (d =? 44)%N.
    { intros H. destruct (IHe _ _ H) as [vs ->]. by eexists. }
    destruct (d =? 93)%N; [|done]. intros [= <-]. by eexists.
  - intros s r. cbn [parseMembers scanMembers].
    destruct (skipWs s) as [|q s1]; [done|].
    destruct (q =? 34)%N; [|done].
    destruct (parseChars s1) as [k|]; [|done]. simpl.
    destruct (skipWs k.2) as [|colon s2]; [done|].
    destruct (colon =? 58)%N; [|done].
    destruct (scanValue false fuel s2) as [after|] eqn:E; [|done].
    destruct (IHv _ _ E) as [v ->]. simpl.
    destruct (skipWs after) as [|d rest]; [done|].
    destruct (d =? 44)%N.
    { intros H. destruct (IHm _ _ H) as [ms ->]. by eexists. }
    destruct (d =? 125)%N; [|done]. intros [= <-]. by eexists.
Qed.

(** What is accepted without fractions is accepted with them. *)
Lemma scan_fractions (fuel : nat) :
  (∀ s r, scanValue false fuel s = Some r → scanValue true fuel s = Some r)
  ∧ (∀ s r, scanElements false fuel s = Some r → scanElements true fuel s = Some r)
  ∧ (∀ s r, scanMembers false fuel s = Some r → scanMembers true fuel s = Some r).
Proof.
  induction fuel as [|fuel (IHv & IHe & IHm)]; [by repeat split|].
  split; [|split].
  - intros s r. cbn [scanValue].
    destruct (skipWs s) as [|c rest]; [done|].
    repeat match goal with
           | |- context [if (c =? ?k)%N then _ else _] => destruct (c =? k)%N; [try done|]
           end.
    + destruct (skipWs rest) as [|d rest']; [done|].
      destruct (d =? 93)%N; [done|]. apply IHe.
    + destruct (skipWs rest) as [|d rest']; [done|].
      destruct (d =? 125)%N; [done|]. apply IHm.
    + apply scanNumber_fractions.
  - intros s r. cbn [scanElements].
    destruct (scanValue false fuel s) as [after|] eqn:E; [|done].
    rewrite (IHv _ _ E). simpl.
    destruct (skipWs after) as [|d rest]; [done|].
    destruct (d =? 44)%N; [apply IHe|done].
  - intros s r. cbn [scanMembers].
    destruct (skipWs s) as [|q s1]; [done|].
    destruct (q =? 34)%N; [|done].
    destruct (parseChars s1) as [k|]; [|done]. simpl.
    destruct (skipWs k.2) as [|colon s2]; [done|].
    destruct (colon =? 58)%N; [|done].
    destruct (scanValue false fuel s2) as [after|] eqn:E; [|done].
    rewrite (IHv _ _ E). simpl.
    destruct (skipWs after) as [|d rest]; [done|].
    destruct (d =? 44)%N; [apply IHm|done].
Qed.

(** The model reads exactly the JSON texts whose numbers are integers in
    plain digits; they are JSON texts. *)
Lemma JSON_parse_reads (text : jsstring) :
  is_Some (JSON_parse text) ↔ isIntegerJSONText text = true.
Proof.
  unfold JSON_parse, isIntegerJSONText, scanText. split.
  - intros [v Hv].
    destruct (parseValue (S (length text)) text) as [[w r]|] eqn:E; [|done].
    apply (parse_scans (S (length text))) in E. rewrite E. simpl in *.
    destruct (skipWs r); [|done]. by apply bool_decide_eq_true_2.
  - destruct (scanValue false (S (length text)) text) as [r|] eqn:E; [|done].
    destruct (proj1 (scans_parse (S (length text))) _ _ E) as [v ->]. simpl.
    intros Hr. apply bool_decide_eq_true_1 in Hr. rewrite Hr. by eexists.
Qed.

Lemma isIntegerJSONText_isJSONText (text : jsstring) :
  isIntegerJSONText text = true → isJSONText text = true.
Proof.
  unfold isIntegerJSONText, isJSONText, scanText.
  destruct (scanValue false (S (length text)) text) as [r|] eqn:E; [|done].
  by rewrite (proj1 (scan_fractions (S (length text))) _ _ E).
Qed.

(** So a text that is not JSON is not read. *)
Lemma not_JSON_not_parsed (text : jsstring) :
  isJSONText text = false → JSON_parse text = None.
Proof.
  intros H. destruct (JSON_parse text) as [v|] eqn:E; [|done].
  assert (isJSONText text = true); [|congruence].
  apply isIntegerJSONText_isJSONText, JSON_parse_reads. by eexists.
Qed.

End Grammar.

Section Integrity.

(** C6, as stated, fails for the empty blob: [''] is not valid JSON, but
    [!stored] takes it for a missing entry, so [secureRetrieve] returns
    [null] and leaves the entry where it is. *)
Lemma empty_blob_is_kept :
  let ls := {| items := {[ lit "k" := [] ]}; quota := 1000 |} in
  getItem ls (lit "k") = Some []
  ∧ JSON_parse [] = None
  ∧ (secureRetrieve ls 1700000000000 (lit "k")).1 = JNull
  ∧ getItem (secureRetrieve ls 1700000000000 (lit "k")).2 (lit "k") = Some [].
Proof. by vm_compute. Qed.

(** C6, amended.  If the blob stored under a key is not empty and is not
    valid JSON, or is JSON the model reads (its numbers integers in plain
    digits) and lacks one of the fields value, timestamp and checksum, or
    its checksum is not the checksum recomputed from the stored value (a
    plain value), or its time stamp is a number more than 30 days old, then
    [secureRetrieve] returns [null] and removes the entry of the key. *)
Theorem secureRetrieve_integrity (ls : Storage) (now : Z) (key stored : jsstring) :
  getItem ls key = Some stored →
  stored ≠ [] →
  failsIntegrity now stored →
  secureRetrieve ls now key = (JNull, removeItem ls key)
  ∧ getItem (secureRetrieve ls now key).2 key = None.
Proof.
  intros Hget Hne Hfail.
  assert (Hgone : getItem (removeItem ls key) key = None)
    by apply lookup_delete_eq.
  enough (secureRetrieve ls now key = (JNull, removeItem ls key)) as ->; [done|].
  unfold secureRetrieve. rewrite Hget.
  rewrite (bool_decide_eq_false_2 _ Hne).
  destruct Hfail as [Hsyntax|(data & Hparse & Hfail)].
  { by rewrite (not_JSON_not_parsed _ Hsyntax). }
  rewrite Hparse.
  destruct (getProp data (lit "value")) as [| |value]; [done..|].
  destruct (getProp data (lit "timestamp")) as [| |timestamp];
    [simpl; by rewrite orb_true_r..|].
  destruct (getProp data (lit "checksum")) as [| |checksum];
    [simpl; by rewrite !orb_true_r..|].
  destruct (falsy (Value value) || falsy (Value timestamp) || falsy (Value checksum));
    [done|].
  destruct Hfail as [[_ Hsum]|(t & -> & _ & Hold)].
  - assert (match checksum with
            | JStr c => bool_decide (c = generateChecksum (JSON_stringify value))
            | _ => false
            end = false) as ->; [|done].
    destruct checksum as [| | |c| |]; try done.
    apply bool_decide_eq_false_2. by intros ->.
  - destruct (negb _); [done|]. cbn [toNumber].
    by assert ((now - t >? maxAge) = true) as -> by lia.
Qed.

Lemma secureRetrieve_integrity_witness :
  let stored :=
    JSON_stringify
      (JObj [(lit "value", JObj [(lit "test", JStr (lit "data"))]);
             (lit "timestamp", JNum 1700000000000);
             (lit "checksum", JStr (lit "corrupted"))]) in
  let ls := {| items := {[ lit "test-integrity" := stored ]}; quota := 1000 |} in
  getItem ls (lit "test-integrity") = Some stored
  ∧ stored ≠ []
  ∧ failsIntegrity 1700000000001 stored
  ∧ secureRetrieve ls 1700000000001 (lit "test-integrity")
    = (JNull, removeItem ls (lit "test-integrity")).
Proof.
  intros stored ls.
  assert (Hget : getItem ls (lit "test-integrity") = Some stored)
    by apply lookup_singleton_eq.
  assert (Hne : stored ≠ []) by done.
  assert (Hfail : failsIntegrity 1700000000001 stored).
  { right. eexists. split; [apply JSON_parse_stringify|].
    left. split; [reflexivity|]. vm_compute. discriminate. }
  split; [exact Hget|]. split; [exact Hne|]. split; [exact Hfail|].
  exact (proj1 (secureRetrieve_integrity ls 1700000000001 (lit "test-integrity")
                  stored Hget Hne Hfail)).
Defined.

(** The other ways to fail: a text that is not JSON at all, and one that is
    JSON but holds no record.  And what is left out above: a text with a
    fraction or an exponent in it, which is JSON, though the model does not
    read it. *)
Lemma failsIntegrity_examples :
  failsIntegrity 0 (lit "{not json")
  ∧ failsIntegrity 0 (lit "[1, 2]")
  ∧ isJSONText (lit "[1.5e3, -0.25E-2, 0]") = true
  ∧ isIntegerJSONText (lit "[1.5e3, -0.25E-2, 0]") = false
  ∧ JSON_parse (lit "[1.5e3, -0.25E-2, 0]") = None
  ∧ map isJSONText [lit "-0"; lit "0.5"; lit "1e3"; lit "1E+3"; lit " [ ] "; lit "{}"]
    = [true; true; true; true; true; true]
  ∧ map isJSONText [lit "01"; lit "1."; lit ".5"; lit "1e"; lit "1e+"; lit "+1";
                    lit "-"; lit "0x10"; lit "[1,]"; lit "nul"; lit "1 2"]
    = [false; false; false; false; false; false; false; false; false; false; false].
Proof.
  split; [by left|]. split; [|by vm_compute].
  right. eexists. split; [by vm_compute|]. done.
Qed.

End Integrity.

(** * Further properties of the code *)

(** ** [validateApiKey]: blank keys, and the providers whose keys are checked *)

Section KeyVerdicts.

(** A key that is empty or all white space is refused whatever the
    provider, and white space around a key does not change the verdict. *)
Theorem validateApiKey_blank_key (provider key : jsstring) :
  (trim key = [] →
   validateApiKey provider key = rejected (lit "API key cannot be empty"))
  ∧ validateApiKey provider (trim key) = validateApiKey provider key.
Proof.
  split.
  - intros Hk. unfold validateApiKey. rewrite Hk. simpl.
    by rewrite orb_true_r.
  - unfold validateApiKey. rewrite trim_trim.
    destruct (trim key) as [|c k] eqn:E; simpl.
    + by rewrite orb_true_r.
    + assert (key ≠ []) as Hne by (intros ->; done).
      by rewrite (bool_decide_eq_false_2 _ Hne).
Qed.

(** For the provider names that reach a pattern of the table, in any
    letter case, a key that is not blank is accepted exactly when it matches
    the pattern once trimmed, and refused with the format message, which
    quotes the provider name as given, otherwise. *)
Theorem validateApiKey_checked_providers (provider key : jsstring)
    (pattern : KeyPattern) :
  (toLowerCase provider, pattern) ∈ checkedProviders →
  trim key ≠ [] →
  validateApiKey provider key
  = if test pattern (trim key) then accepted
    else rejected (lit "Invalid " ++ provider
                   ++ lit " API key format. Please check your key.").
Proof.
  intros Hp Hk. unfold validateApiKey.
  assert (bool_decide (key = []) || bool_decide (length (trim key) = 0%nat) = false) as ->.
  { apply orb_false_iff. split; apply bool_decide_eq_false.
    - by intros ->.
    - by destruct (trim key). }
  unfold providerKeyOf.
  unfold checkedProviders in Hp.
  repeat (apply elem_of_cons in Hp as [Hp|Hp];
          [injection Hp as -> ->; simpl; by destruct (test _ (trim key))|]).
  by apply elem_of_nil in Hp.
Qed.

Lemma validateApiKey_checked_providers_witness :
  (toLowerCase (lit "Anthropic"), anthropic_pattern) ∈ checkedProviders
  ∧ trim (lit " sk-ant-short ") ≠ []
  ∧ validateApiKey (lit "Anthropic") (lit " sk-ant-short ")
    = rejected (lit "Invalid Anthropic API key format. Please check your key.").
Proof.
  assert (Hp : (toLowerCase (lit "Anthropic"), anthropic_pattern) ∈ checkedProviders)
    by (apply elem_of_cons; by left).
  assert (Hk : trim (lit " sk-ant-short ") ≠ []) by (by vm_compute).
  split; [exact Hp|]. split; [exact Hk|].
  exact (validateApiKey_checked_providers (lit "Anthropic") (lit " sk-ant-short ")
           anthropic_pattern Hp Hk).
Defined.

End KeyVerdicts.

(** ** [validateTaskData] *)

Section TaskData.

Lemma required_spec (v : option fieldValue) (s : jsstring) :
  required v = Some s ↔ v = Some (PString s) ∧ trim s ≠ [].
Proof.
  unfold required. destruct v as [[|b|n|t|l]|]; try (split; [done|by intros [? ?]]).
  destruct (bool_decide (t = []) || bool_decide (length (trim t) = 0%nat)) eqn:E.
  - split; [done|]. intros [[= ->] Hs].
    apply orb_true_iff in E as [E|E]; apply bool_decide_eq_true_1 in E.
    + by subst.
    + by destruct (trim s).
  - apply orb_false_iff in E as [_ E]. apply bool_decide_eq_false_1 in E.
    split.
    + intros [= ->]. split; [done|]. by intros Ht; rewrite Ht in E.
    + by intros [[= ->] _].
Qed.

Lemma longerThan_spec (limit : Z) (v : option fieldValue) :
  0 <= limit →
  longerThan limit v = false ↔ ∀ n, lengthOf v = Some n → (n <= inject_Z limit)%Q.
Proof.
  intros Hl. unfold longerThan, holds, lengthOf.
  destruct v as [[|b|n|t|[l|]]|]; simpl; rewrite ?andb_false_r;
    try (split; [by intros|done]).
  - split.
    + intros H n [= <-]. apply andb_false_iff in H as [H|H].
      * apply negb_false_iff, bool_decide_eq_true_1 in H. subst.
        unfold jslength. simpl. by rewrite <- Zle_Qle.
      * by apply negb_false_iff, Qle_bool_iff in H.
    + intros H. apply andb_false_iff. right. apply negb_false_iff, Qle_bool_iff.
      by apply H.
  - split.
    + intros H n [= <-]. by apply negb_false_iff, Qle_bool_iff in H.
    + intros H. apply negb_false_iff, Qle_bool_iff. by apply H.
Qed.

Lemma outside_spec (allowed : list jsstring) (v : option fieldValue) :
  outside allowed v = false
  ↔ (holds v = true → ∃ c, c ∈ allowed ∧ v = Some (PString c)).
Proof.
  unfold outside. destruct (holds v) eqn:Hv; simpl.
  - rewrite negb_false_iff. split.
    + intros H _. destruct v as [[|b|n|t|l]|]; try done.
      apply bool_decide_eq_true_1 in H. eauto.
    + intros H. destruct (H eq_refl) as (c & Hc & ->).
      by apply bool_decide_eq_true_2.
  - split; [by intros|done].
Qed.

(** What [validateTaskData] accepts, and what it answers otherwise. *)
Lemma validateTaskData_wellFormed (taskData : taskArgument) :
  (validateTaskData taskData = accepted
   ↔ ∃ members, taskData = TaskObject members ∧ wellFormed members)
  ∧ (validateTaskData taskData = accepted
     ∨ ∃ message, message ≠ [] ∧ validateTaskData taskData = rejected message).
Proof.
  destruct taskData as [v|members]; simpl.
  { split; [split; [done|by intros (? & ? & ?)]|]. right; eexists; (split; [|reflexivity]); done. }
  unfold wellFormed.
  destruct (required (readField (lit "name") members)) as [name|] eqn:En.
  2:{ split; [|right; eexists; (split; [|reflexivity]); done].
      split; [done|]. intros (? & [= <-] & (name & Hn & Ht & _) & _).
      assert (required (readField (lit "name") members) = Some name) as Hr
        by (by apply required_spec).
      congruence. }
  destruct (required (readField (lit "prompt") members)) as [prompt|] eqn:Ep.
  2:{ split; [|right; eexists; (split; [|reflexivity]); done].
      split; [done|]. intros (? & [= <-] & _ & (prompt & Hn & Ht & _) & _).
      assert (required (readField (lit "prompt") members) = Some prompt) as Hr
        by (by apply required_spec).
      congruence. }
  apply required_spec in En as [En Hnt], Ep as [Ep Hpt].
  destruct (jslength name >? 200) eqn:E1.
  { split; [|right; eexists; (split; [|reflexivity]); done].
    split; [done|]. intros (? & [= <-] & (? & Hn & _ & ?) & _).
    rewrite En in Hn. injection Hn as <-. lia. }
  destruct (jslength prompt >? 10000) eqn:E2.
  { split; [|right; eexists; (split; [|reflexivity]); done].
    split; [done|]. intros (? & [= <-] & _ & (? & Hn & _ & ?) & _).
    rewrite Ep in Hn. injection Hn as <-. lia. }
  destruct (longerThan 500 _) eqn:E3.
  { split; [|right; eexists; (split; [|reflexivity]); done].
    split; [done|]. intros (? & [= <-] & _ & _ & H & _).
    apply longerThan_spec in H; [congruence|lia]. }
  destruct (longerThan 2000 _) eqn:E4.
  { split; [|right; eexists; (split; [|reflexivity]); done].
    split; [done|]. intros (? & [= <-] & _ & _ & _ & H & _).
    apply longerThan_spec in H; [congruence|lia]. }
  destruct (outside validCategories _) eqn:E5.
  { split; [|right; eexists; (split; [|reflexivity]); done].
    split; [done|]. intros (? & [= <-] & _ & _ & _ & _ & H & _).
    apply outside_spec in H. congruence. }
  destruct (outside validDifficulties _) eqn:E6.
  { split; [|right; eexists; (split; [|reflexivity]); done].
    split; [done|]. intros (? & [= <-] & _ & _ & _ & _ & _ & H).
    apply outside_spec in H. congruence. }
  split; [|by left]. split; [|done]. intros _. exists members. split; [done|].
  split; [exists name; repeat split; [done..|lia]|].
  split; [exists prompt; repeat split; [done..|lia]|].
  split; [apply longerThan_spec; [lia|done]|].
  split; [apply longerThan_spec; [lia|done]|].
  split; by apply outside_spec.
Qed.

(** [validateTaskData] accepts exactly the objects that are well formed;
    anything else is refused with a message that is not empty, and never
    with a warning.  The limits of the description and of the expected
    output are not for strings alone: an array, or any object with a
    [length], above the limit is refused as a long string is. *)
Theorem validateTaskData_accepts (taskData : taskArgument) :
  (validateTaskData taskData = accepted
   ↔ ∃ members, taskData = TaskObject members ∧ wellFormed members)
  ∧ (validateTaskData taskData = accepted
     ∨ ∃ message, message ≠ [] ∧ validateTaskData taskData = rejected message)
  ∧ (∀ members length,
       (readField (lit "description") members = Some (PObject (Some length))
        ∧ (500 < length)%Q)
       ∨ (readField (lit "expectedOutput") members = Some (PObject (Some length))
          ∧ (2000 < length)%Q) →
       isValid (validateTaskData (TaskObject members)) = false).
Proof.
  destruct (validateTaskData_wellFormed taskData) as [Hacc Hverdict].
  split; [exact Hacc|]. split; [exact Hverdict|].
  intros members length Hlong.
  destruct (validateTaskData_wellFormed (TaskObject members)) as [Hiff [Hv|(m & _ & ->)]];
    [exfalso|done].
  apply Hiff in Hv as (? & [= <-] & _ & _ & Hd & He & _).
  destruct Hlong as [[Hf Hl]|[Hf Hl]].
  - rewrite Hf in Hd. specialize (Hd _ eq_refl). by apply (Qlt_not_le _ _ Hl).
  - rewrite Hf in He. specialize (He _ eq_refl). by apply (Qlt_not_le _ _ Hl).
Qed.

End TaskData.

(** ** [sanitizeInput], character by character *)

Section Entities.

Lemma replaceAll_app c r (s t : jsstring) :
  replaceAll c r (s ++ t) = replaceAll c r s ++ replaceAll c r t.
Proof.
  induction s as [|x s IH]; simpl; [done|]. by rewrite IH, app_assoc.
Qed.

Lemma replaceAll_flat_map c r (f : N → jsstring) (s : jsstring) :
  replaceAll c r (flat_map f s) = flat_map (λ x, replaceAll c r (f x)) s.
Proof.
  induction s as [|x s IH]; simpl; [done|]. by rewrite replaceAll_app, IH.
Qed.

Lemma replaceAll_each c r (s : jsstring) :
  replaceAll c r s = flat_map (λ x, if (x =? c)%N then r else [x]) s.
Proof. induction s as [|x s IH]; simpl; [done|]. by rewrite IH. Qed.

(** The five passes do not see each other's output: together they replace
    each character by its entity. *)
Lemma replacements_entity (s : jsstring) :
  replaceAll 47 (lit "&#x2F;")
    (replaceAll 39 (lit "&#x27;")
      (replaceAll 34 (lit "&quot;")
        (replaceAll 62 (lit "&gt;")
          (replaceAll 60 (lit "&lt;") s))))
  = flat_map entity s.
Proof.
  rewrite (replaceAll_each 60), !replaceAll_flat_map.
  apply flat_map_ext. intros x. unfold entity.
  destruct (x =? 60)%N eqn:E1; [reflexivity|].
  cbn [replaceAll app]. rewrite app_nil_r.
  destruct (x =? 62)%N eqn:E2; [reflexivity|].
  cbn [replaceAll app]. rewrite app_nil_r.
  destruct (x =? 34)%N eqn:E3; [reflexivity|].
  cbn [replaceAll app]. rewrite app_nil_r.
  destruct (x =? 39)%N eqn:E4; [reflexivity|].
  cbn [replaceAll app]. rewrite app_nil_r.
  by destruct (x =? 47)%N eqn:E5.
Qed.

Lemma entity_whitespace (c : N) : isWhiteSpace c = true → entity c = [c].
Proof.
  intros Hc. unfold entity.
  destruct (N.eqb_spec c 60) as [->|_]; [done|].
  destruct (N.eqb_spec c 62) as [->|_]; [done|].
  destruct (N.eqb_spec c 34) as [->|_]; [done|].
  destruct (N.eqb_spec c 39) as [->|_]; [done|].
  by destruct (N.eqb_spec c 47) as [->|_].
Qed.

Lemma entity_head (c : N) :
  isWhiteSpace c = false →
  ∃ first rest, entity c = first :: rest ∧ isWhiteSpace first = false.
Proof.
  intros Hc. unfold entity.
  destruct (c =? 60)%N; [by eexists _, _|].
  destruct (c =? 62)%N; [by eexists _, _|].
  destruct (c =? 34)%N; [by eexists _, _|].
  destruct (c =? 39)%N; [by eexists _, _|].
  destruct (c =? 47)%N; by eexists _, _.
Qed.

Lemma entity_last (c : N) :
  isWhiteSpace c = false →
  ∃ front final, entity c = front ++ [final] ∧ isWhiteSpace final = false.
Proof.
  intros Hc. unfold entity.
  destruct (c =? 60)%N; [by exists (lit "&lt"), 59%N|].
  destruct (c =? 62)%N; [by exists (lit "&gt"), 59%N|].
  destruct (c =? 34)%N; [by exists (lit "&quot"), 59%N|].
  destruct (c =? 39)%N; [by exists (lit "&#x27"), 59%N|].
  destruct (c =? 47)%N; [by exists (lit "&#x2F"), 59%N|].
  by exists [], c.
Qed.

Lemma entity_length (c : N) : (1 <= length (entity c) <= 6)%nat.
Proof.
  unfold entity.
  repeat match goal with |- context [if ?b then _ else _] => destruct b end;
    simpl; lia.
Qed.

Lemma trimStart_entities (s : jsstring) :
  trimStart (flat_map entity s) = flat_map entity (trimStart s).
Proof.
  induction s as [|c s IH]; [done|]. cbn [flat_map trimStart].
  destruct (isWhiteSpace c) eqn:Hc.
  - rewrite (entity_whitespace c Hc). cbn [app trimStart]. by rewrite Hc.
  - destruct (entity_head c Hc) as (first & rest & He & Hf).
    rewrite He. cbn [app trimStart flat_map]. by rewrite Hf, He.
Qed.

Lemma trimEnd_snoc (s : jsstring) (c : N) :
  trimEnd (s ++ [c]) = if isWhiteSpace c then trimEnd s else s ++ [c].
Proof.
  unfold trimEnd. rewrite reverse_snoc. simpl.
  destruct (isWhiteSpace c); [done|].
  by rewrite reverse_cons, reverse_involutive.
Qed.

Lemma trimEnd_entities (s : jsstring) :
  trimEnd (flat_map entity s) = flat_map entity (trimEnd s).
Proof.
  induction s as [|c s IH] using rev_ind; [done|].
  rewrite flat_map_app. cbn [flat_map]. rewrite app_nil_r, (trimEnd_snoc s c).
  destruct (isWhiteSpace c) eqn:Hc.
  - by rewrite (entity_whitespace c Hc), trimEnd_snoc, Hc.
  - destruct (entity_last c Hc) as (front & final & He & Hf).
    rewrite flat_map_app. cbn [flat_map].
    rewrite app_nil_r, He, app_assoc, trimEnd_snoc.
    by rewrite Hf.
Qed.

Lemma trim_length (s : jsstring) : (length (trim s) <= length s)%nat.
Proof.
  unfold trim. destruct (trimEnd_prefix (trimStart s)) as [p Hp].
  destruct (trimStart_suffix s) as [q Hq].
  apply (f_equal length) in Hp, Hq. rewrite length_app in Hp, Hq. lia.
Qed.

Lemma entities_length (s : jsstring) :
  (length s <= length (flat_map entity s) <= 6 * length s)%nat.
Proof.
  induction s as [|c s IH]; cbn [flat_map length]; [lia|].
  rewrite length_app. pose proof (entity_length c). lia.
Qed.

Lemma sanitizeString_entities (s : jsstring) :
  sanitizeString s = flat_map entity (trim s).
Proof.
  unfold sanitizeString. rewrite replacements_entity. unfold trim.
  by rewrite trimStart_entities, trimEnd_entities.
Qed.

(** [sanitizeInput] trims its argument and writes each of the five
    characters as its entity, every other character as it is, in the
    order of the text; so the result is at least as long as the trimmed
    argument and at most six times as long. *)
Theorem sanitizeInput_entities (s : jsstring) :
  sanitizeInput (VString s) = flat_map entity (trim s)
  ∧ (length (trim s) <= length (sanitizeInput (VString s)) <= 6 * length (trim s))%nat.
Proof.
  simpl. rewrite sanitizeString_entities. split; [done|]. apply entities_length.
Qed.

End Entities.

(** ** The form that creates a custom task *)

Section CreateTask.
Import TaskSelector.

Lemma sanitizeString_not_blank (s : jsstring) :
  trim s ≠ [] → sanitizeString s ≠ [].
Proof.
  intros Hs. rewrite sanitizeString_entities.
  destruct (trim s) as [|c t]; [done|]. cbn [flat_map].
  pose proof (entity_length c) as Hc. intros He.
  apply (f_equal length) in He. rewrite length_app in He. simpl in He. lia.
Qed.

Lemma sanitizeString_length (s : jsstring) (limit : Z) :
  jslength s <= limit → (Z.of_nat (length (sanitizeString s)) <= 6 * limit)%Z.
Proof.
  unfold jslength. intros Hs. rewrite sanitizeString_entities.
  pose proof (entities_length (trim s)). pose proof (trim_length s). lia.
Qed.

(** What [validateAndCreateTask] hands on.  A task is created only from a
    form that [validateTaskData] accepts; its name and prompt are not
    empty; none of its four texts holds one of the characters
    [sanitizeInput] escapes, and each is at most six times as long as the
    limit validated for it; its category and difficulty are those of the
    form, empty or of the lists.  Otherwise exactly one error is set: the
    message of [validateTaskData], never the fallback text, or the one for
    unsafe content. *)
Theorem validateAndCreateTask_result (newTask : NewTask.t) :
  match validateAndCreateTask newTask with
  | inr task =>
      validateTaskData (taskData newTask) = accepted
      ∧ NewTask.name task ≠ [] ∧ NewTask.prompt task ≠ []
      ∧ Forall (λ text, Forall (λ c, c ∉ escaped) text)
          [NewTask.name task; NewTask.description task;
           NewTask.prompt task; NewTask.expectedOutput task]
      ∧ jslength (NewTask.name task) <= 1200
      ∧ jslength (NewTask.description task) <= 3000
      ∧ jslength (NewTask.prompt task) <= 60000
      ∧ jslength (NewTask.expectedOutput task) <= 12000
      ∧ NewTask.category task = NewTask.category newTask
      ∧ NewTask.difficulty task = NewTask.difficulty newTask
      ∧ (NewTask.category task = [] ∨ NewTask.category task ∈ validCategories)
      ∧ (NewTask.difficulty task = [] ∨ NewTask.difficulty task ∈ validDifficulties)
  | inl errors =>
      ∃ message,
        errors = [message] ∧ message ≠ []
        ∧ (validateTaskData (taskData newTask) = rejected message
           ∨ validateTaskData (taskData newTask) = accepted
             ∧ message = lit "Task content contains potentially unsafe elements")
  end.
Proof.
  unfold validateAndCreateTask.
  destruct (validateTaskData_wellFormed (taskData newTask)) as [Hacc [Hv|(m & Hm & Hv)]].
  2:{ rewrite Hv. simpl. exists m. destruct m as [|c m]; [done|]. by repeat split; [..|left]. }
  rewrite Hv. cbn [isValid accepted negb].
  destruct (existsb _ _).
  { eexists. split; [reflexivity|]. split; [done|]. by right. }
  apply Hacc in Hv as (members & [= <-] & (name & Hn & Hnt & Hnl) & (prompt & Hp & Hpt & Hpl)
                       & Hd & He & Hc & Hf).
  injection Hn as <-. injection Hp as <-.
  specialize (Hd _ eq_refl). specialize (He _ eq_refl).
  change (500%Q) with (inject_Z 500) in Hd. change (2000%Q) with (inject_Z 2000) in He.
  rewrite <- Zle_Qle in Hd, He.
  split; [done|]. split; [by apply sanitizeString_not_blank|].
  split; [by apply sanitizeString_not_blank|].
  split; [repeat constructor; apply sanitizeString_clean|].
  split; [by apply (sanitizeString_length _ 200)|].
  split; [by apply (sanitizeString_length _ 500)|].
  split; [by apply (sanitizeString_length _ 10000)|].
  split; [by apply (sanitizeString_length _ 2000)|].
  split; [done|]. split; [done|]. split.
  - destruct (NewTask.category newTask) as [|c cat] eqn:E; [by left|right].
    destruct (Hc eq_refl) as (c' & Hin & [= <-]). done.
  - destruct (NewTask.difficulty newTask) as [|c dif] eqn:E; [by left|right].
    destruct (Hf eq_refl) as (c' & Hin & [= <-]). done.
Qed.

End CreateTask.

(** ** [generateChecksum] as a polynomial *)

Section Checksum.

Lemma toInt32_range (z : Z) : - 2 ^ 31 <= toInt32 z < 2 ^ 31.
Proof. unfold toInt32. pose proof (Z.mod_pos_bound (z + 2 ^ 31) (2 ^ 32)). lia. Qed.

Lemma toInt32_congruent (a b : Z) :
  a mod 2 ^ 32 = b mod 2 ^ 32 → toInt32 a = toInt32 b.
Proof.
  intros H. unfold toInt32.
  by rewrite (Z.add_mod a), (Z.add_mod b), H by lia.
Qed.

Lemma toInt32_mod (z : Z) : toInt32 z mod 2 ^ 32 = z mod 2 ^ 32.
Proof.
  unfold toInt32. rewrite Zminus_mod_idemp_l. f_equal. lia.
Qed.

(** One step of the loop: the hash times 31 plus the code unit, wrapped to
    32 bits. *)
Lemma checksumStep_wraps (hash : Z) (char : N) :
  checksumStep hash char = toInt32 (31 * hash + Z.of_N char).
Proof.
  unfold checksumStep. apply toInt32_congruent.
  rewrite <- Z.add_sub_swap, Zminus_mod, Zplus_mod, toInt32_mod.
  rewrite <- Zplus_mod, <- Zminus_mod. f_equal. lia.
Qed.

Lemma checksum_fold (data : jsstring) (h : Z) :
  fold_left checksumStep data (toInt32 h)
  = toInt32 (fold_left (λ h c, 31 * h + Z.of_N c) data h).
Proof.
  revert h. induction data as [|c data IH]; intros h; simpl; [done|].
  rewrite <- IH. f_equal. rewrite checksumStep_wraps.
  apply toInt32_congruent.
  by rewrite Zplus_mod, Zmult_mod, toInt32_mod, <- Zmult_mod, <- Zplus_mod.
Qed.

Lemma generateChecksum_wraps (data : jsstring) :
  generateChecksum data = toStringRadix 36 (toInt32 (polynomial data)).
Proof.
  unfold generateChecksum, polynomial.
  by rewrite <- checksum_fold.
Qed.

(** The checksum is the base-31 value of the code units, wrapped to a
    signed 32-bit integer and printed in base 36: the two-step arithmetic of
    the loop, with its shift and its [hash & hash], loses nothing else. *)
Theorem generateChecksum_polynomial (data : jsstring) :
  generateChecksum data = toStringRadix 36 (toInt32 (polynomial data))
  ∧ - 2 ^ 31 <= toInt32 (polynomial data) < 2 ^ 31
  ∧ toInt32 (polynomial data) mod 2 ^ 32 = polynomial data mod 2 ^ 32.
Proof.
  split; [apply generateChecksum_wraps|]. split; [apply toInt32_range|apply toInt32_mod].
Qed.

End Checksum.

(** ** More on the secure storage *)

Section StoredRecords.

(** Reading the record [secureStore] wrote at [now]: the value before the
    age limit has passed, [null] and the entry removed after it. *)
Lemma retrieve_sealed (ls : Storage) (now now' : Z) (key : jsstring) (value : json) :
  truthy value = true →
  now ≠ 0 →
  getItem ls key = Some (JSON_stringify (sealed now value)) →
  secureRetrieve ls now' key
  = if now' - now >? maxAge then (JNull, removeItem ls key) else (value, ls).
Proof.
  intros Hv Hnow Hget.
  assert (Hparse := JSON_parse_stringify (sealed now value)).
  assert (JSON_stringify (sealed now value) ≠ []) as Hne by done.
  set (text := JSON_stringify (sealed now value)) in *.
  unfold secureRetrieve. rewrite Hget.
  rewrite (bool_decide_eq_false_2 _ Hne), Hparse.
  destruct (sealed_fields now value) as (-> & -> & ->). simpl.
  rewrite Hv. simpl.
  assert ((now =? 0) = false) as -> by by apply Z.eqb_neq.
  pose proof (generateChecksum_nonempty (JSON_stringify value)) as Hc.
  rewrite (bool_decide_eq_false_2 _ Hc). simpl.
  rewrite bool_decide_eq_true_2 by done. simpl.
  by destruct (now' - now >? maxAge).
Qed.

Lemma secureStore_getItem (ls ls' : Storage) (now : Z) (key : jsstring) (value : json) :
  secureStore ls now key value = Some ls' →
  getItem ls' key = Some (JSON_stringify (sealed now value))
  ∧ (∀ other, other ≠ key → getItem ls' other = getItem ls other)
  ∧ quota ls' = quota ls.
Proof.
  unfold secureStore, setItem, getItem. intros Hs.
  destruct (_ <=? _)%nat; [|done]. injection Hs as <-. simpl.
  split; [apply lookup_insert_eq|]. split; [|done].
  intros other Ho. by apply lookup_insert_ne.
Qed.

(** The same for any value and any clock reading at the time of writing:
    a falsy value or a time stamp of 0 makes the record one with a missing
    field. *)
Lemma retrieve_sealed_any (ls : Storage) (now now' : Z) (key : jsstring) (value : json) :
  getItem ls key = Some (JSON_stringify (sealed now value)) →
  secureRetrieve ls now' key
  = if negb (truthy value) || (now =? 0) || (now' - now >? maxAge)
    then (JNull, removeItem ls key) else (value, ls).
Proof.
  intros Hget.
  destruct (truthy value) eqn:Hv; [destruct (Z.eqb_spec now 0) as [->|Hnow]|].
  - assert (Hparse := JSON_parse_stringify (sealed 0 value)).
    assert (JSON_stringify (sealed 0 value) ≠ []) as Hne by done.
    set (text := JSON_stringify (sealed 0 value)) in *.
    unfold secureRetrieve. rewrite Hget.
    rewrite (bool_decide_eq_false_2 _ Hne), Hparse.
    destruct (sealed_fields 0 value) as (-> & -> & ->). simpl.
    rewrite Hv. by simpl.
  - by rewrite (retrieve_sealed ls now now' key value Hv Hnow Hget).
  - assert (Hparse := JSON_parse_stringify (sealed now value)).
    assert (JSON_stringify (sealed now value) ≠ []) as Hne by done.
    set (text := JSON_stringify (sealed now value)) in *.
    unfold secureRetrieve. rewrite Hget.
    rewrite (bool_decide_eq_false_2 _ Hne), Hparse.
    destruct (sealed_fields now value) as (-> & -> & ->). simpl.
    rewrite Hv. by simpl.
Qed.

(** A stored value expires: more than 30 days after [secureStore] has
    written it (30 days are 2592000000 ms), [secureRetrieve] returns [null]
    and removes the entry, so that the next read finds nothing. *)
Theorem secureRetrieve_expired (ls ls' : Storage) (now now' : Z)
    (key : jsstring) (value : json) :
  secureStore ls now key value = Some ls' →
  now' - now > 2592000000 →
  secureRetrieve ls' now' key = (JNull, removeItem ls' key)
  ∧ getItem (secureRetrieve ls' now' key).2 key = None.
Proof.
  intros Hstore Hold.
  apply secureStore_getItem in Hstore as (Hget & _ & _).
  rewrite (retrieve_sealed_any ls' now now' key value Hget).
  assert ((now' - now >? maxAge) = true) as -> by (unfold maxAge; lia).
  rewrite orb_true_r.
  split; [done|]. apply lookup_delete_eq.
Qed.

Lemma secureRetrieve_expired_witness :
  let value := JObj [(lit "test", JStr (lit "data"))] in
  let ls := {| items := ∅; quota := 1000 |} in
  ∃ ls',
    secureStore ls 1700000000000 (lit "test-expired") value = Some ls'
    ∧ 1702678400000 - 1700000000000 > 2592000000
    ∧ secureRetrieve ls' 1702678400000 (lit "test-expired")
      = (JNull, removeItem ls' (lit "test-expired")).
Proof.
  intros value ls. eexists.
  assert (Hs : secureStore ls 1700000000000 (lit "test-expired") value = Some _)
    by (vm_compute; reflexivity).
  assert (Hold : 1702678400000 - 1700000000000 > 2592000000) by lia.
  split; [exact Hs|]. split; [exact Hold|].
  exact (proj1 (secureRetrieve_expired ls _ 1700000000000 1702678400000
                  (lit "test-expired") value Hs Hold)).
Defined.

(** Whatever the storage holds, [secureRetrieve] touches no entry but the
    one of its key, which it leaves as it is or removes. *)
Lemma secureRetrieve_storage (ls : Storage) (now : Z) (key : jsstring) :
  (secureRetrieve ls now key).2 = ls
  ∨ (secureRetrieve ls now key).1 = JNull
    ∧ (secureRetrieve ls now key).2 = removeItem ls key.
Proof.
  unfold secureRetrieve.
  repeat match goal with
         | |- context [match ?x with _ => _ end] => destruct x; simpl
         end; auto.
Qed.

Lemma secureRetrieve_truthy (ls : Storage) (now : Z) (key : jsstring) :
  (secureRetrieve ls now key).1 = JNull
  ∨ truthy (secureRetrieve ls now key).1 = true
    ∧ (secureRetrieve ls now key).2 = ls.
Proof.
  unfold secureRetrieve.
  destruct (getItem ls key) as [stored|]; [|by left].
  destruct (bool_decide (stored = [])); [by left|].
  destruct (JSON_parse stored) as [data|]; [|by left].
  destruct (getProp data (lit "value")) as [| |value]; [by left| |].
  { simpl. by left. }
  destruct (falsy (Value value) || _ || _) eqn:E; [by left|].
  apply orb_false_iff in E as [E _]. apply orb_false_iff in E as [E _].
  simpl in E. apply negb_false_iff in E.
  repeat match goal with
         | |- context [match ?x with _ => _ end] => destruct x; simpl
         end; auto.
Qed.

End StoredRecords.

(** ** What the checksum cannot tell apart *)

Section Collisions.

Lemma quoteChars_app (n : nat) :
  ∀ (p : jsstring) (c : N) (t : jsstring),
    (length p <= n)%nat → isLowSurrogate c = false →
    quoteChars (p ++ c :: t) = quoteChars p ++ quoteChars (c :: t).
Proof.
  induction n as [|n IH]; intros p c t Hlen Hc.
  { destruct p; [done|simpl in Hlen; lia]. }
  destruct p as [|x p]; [done|]. simpl in Hlen.
  assert (IHp : quoteChars (p ++ c :: t) = quoteChars p ++ quoteChars (c :: t))
    by (apply IH; [lia|done]).
  change ((x :: p) ++ c :: t) with (x :: (p ++ c :: t)).
  set (tail := quoteChars (c :: t)) in *.
  cbn [quoteChars].
  repeat match goal with
         | |- context [if (x =? ?k)%N then _ else _] =>
             destruct (x =? k)%N; [by rewrite IHp|]
         end.
  destruct (x <? 32)%N; [by rewrite IHp, app_assoc|].
  destruct (isHighSurrogate x).
  - destruct p as [|d p].
    + cbn [app]. rewrite Hc. done.
    + cbn [app] in *. destruct (isLowSurrogate d).
      * cbn [app]. do 2 f_equal. apply IH; [simpl in Hlen; lia|done].
      * by rewrite IHp, app_assoc.
  - destruct (isLowSurrogate x); [by rewrite IHp, app_assoc|].
    by rewrite IHp.
Qed.

Lemma checksum_Aa_BB (p s : jsstring) :
  generateChecksum (p ++ lit "Aa" ++ s) = generateChecksum (p ++ lit "BB" ++ s).
Proof.
  rewrite !generateChecksum_wraps. do 2 f_equal.
  unfold polynomial. rewrite !fold_left_app. cbn [lit list_ascii_of_string map app fold_left].
  f_equal. change (Z.of_N (N_of_ascii "A")) with 65. change (Z.of_N (N_of_ascii "a")) with 97.
  change (Z.of_N (N_of_ascii "B")) with 66. lia.
Qed.

Lemma quote_Aa_BB (p s : jsstring) :
  generateChecksum (quote (p ++ lit "Aa" ++ s))
  = generateChecksum (quote (p ++ lit "BB" ++ s)).
Proof.
  unfold quote.
  change (p ++ lit "Aa" ++ s) with (p ++ 65%N :: 97%N :: s).
  change (p ++ lit "BB" ++ s) with (p ++ 66%N :: 66%N :: s).
  rewrite (quoteChars_app (length p) p 65 (97%N :: s)) by done.
  rewrite (quoteChars_app (length p) p 66 (66%N :: s)) by done.
  change (quoteChars (65%N :: 97%N :: s)) with (lit "Aa" ++ quoteChars s).
  change (quoteChars (66%N :: 66%N :: s)) with (lit "BB" ++ quoteChars s).
  rewrite <- !app_assoc.
  apply (checksum_Aa_BB (34%N :: quoteChars p) (quoteChars s ++ [34%N])).
Qed.

(** The checksum does not tell [Aa] from [BB] (31 * 65 + 97 = 31 * 66 + 66):
    two texts that differ by the one against the other at some place have
    the same checksum.  So for a stored string value in which [Aa] is
    exchanged for [BB] and the checksum left as it was, the record is the
    very record [secureStore] writes for the changed value, and
    [secureRetrieve] returns the changed value. *)
Theorem generateChecksum_collision (front back : jsstring) (ls : Storage)
    (now now' : Z) (key : jsstring) :
  let original := JStr (front ++ lit "Aa" ++ back) in
  let changed := JStr (front ++ lit "BB" ++ back) in
  let tampered :=
    JObj [(lit "value", changed);
          (lit "timestamp", JNum now);
          (lit "checksum", JStr (generateChecksum (JSON_stringify original)))] in
  generateChecksum (front ++ lit "Aa" ++ back)
  = generateChecksum (front ++ lit "BB" ++ back)
  ∧ tampered = sealed now changed
  ∧ (now ≠ 0 → now' - now <= maxAge →
     getItem ls key = Some (JSON_stringify tampered) →
     secureRetrieve ls now' key = (changed, ls)).
Proof.
  intros original changed tampered.
  assert (Ht : tampered = sealed now changed).
  { unfold tampered, sealed, original, changed. cbn [JSON_stringify].
    by rewrite quote_Aa_BB. }
  split; [apply checksum_Aa_BB|]. split; [exact Ht|].
  intros Hnow Hage Hget. rewrite Ht in Hget.
  rewrite (retrieve_sealed ls now now' key changed); [|by destruct front|done..].
  by assert ((now' - now >? maxAge) = false) as -> by lia.
Qed.

End Collisions.

(** ** The secure storage, key by key *)

Section StorageFrame.

Lemma secureRetrieve_value_of_item (ls1 ls2 : Storage) (now : Z) (key : jsstring) :
  getItem ls1 key = getItem ls2 key →
  (secureRetrieve ls1 now key).1 = (secureRetrieve ls2 now key).1.
Proof.
  intros H. unfold secureRetrieve. rewrite H.
  repeat match goal with
         | |- context [match ?x with _ => _ end] => destruct x; simpl
         end; auto.
Qed.

(** The entries are independent: storing or retrieving under one key
    changes neither the blob stored under another key nor what
    [secureRetrieve] returns for it. *)
Theorem secureStorage_other_keys (ls : Storage) (now : Z) (key other : jsstring) :
  other ≠ key →
  getItem (secureRetrieve ls now key).2 other = getItem ls other
  ∧ (∀ t, (secureRetrieve (secureRetrieve ls now key).2 t other).1
          = (secureRetrieve ls t other).1)
  ∧ (∀ value ls', secureStore ls now key value = Some ls' →
       getItem ls' other = getItem ls other
       ∧ ∀ t, (secureRetrieve ls' t other).1 = (secureRetrieve ls t other).1).
Proof.
  intros Ho.
  assert (H1 : getItem (secureRetrieve ls now key).2 other = getItem ls other).
  { destruct (secureRetrieve_storage ls now key) as [->|[_ ->]]; [done|].
    unfold getItem, removeItem. simpl. by apply lookup_delete_ne. }
  split; [exact H1|]. split.
  - intros t. by apply secureRetrieve_value_of_item.
  - intros value ls' Hs. apply secureStore_getItem in Hs as (_ & Hs & _).
    split; [by apply Hs|]. intros t. apply secureRetrieve_value_of_item. by apply Hs.
Qed.

Lemma secureStorage_other_keys_witness :
  let ls := {| items := {[ lit "other-data" := lit "should-remain" ]}; quota := 1000 |} in
  lit "other-data" ≠ lit "llm-lab-api-keys"
  ∧ getItem (secureRetrieve ls 1700000000000 (lit "llm-lab-api-keys")).2 (lit "other-data")
    = getItem ls (lit "other-data").
Proof.
  intros ls.
  assert (Ho : lit "other-data" ≠ lit "llm-lab-api-keys") by done.
  split; [exact Ho|].
  exact (proj1 (secureStorage_other_keys ls 1700000000000 (lit "llm-lab-api-keys")
                  (lit "other-data") Ho)).
Defined.

Lemma secureRetrieve_null (ls : Storage) (now : Z) (key : jsstring) :
  (secureRetrieve ls now key).1 = JNull →
  getItem (secureRetrieve ls now key).2 key = None
  ∨ getItem (secureRetrieve ls now key).2 key = Some [].
Proof.
  intros Hnull.
  destruct (secureRetrieve_truthy ls now key) as [_|[Ht _]];
    [|by rewrite Hnull in Ht].
  destruct (secureRetrieve_storage ls now key) as [Hs|[_ ->]];
    [|left; apply lookup_delete_eq].
  rewrite Hs. revert Hnull Hs. unfold secureRetrieve.
  destruct (getItem ls key) as [stored|] eqn:Hget; [|by left].
  case_bool_decide as Hstored; [subst; by right|].
  intros Hnull Hs. exfalso.
  assert (Hgone : getItem (removeItem ls key) key = None) by apply lookup_delete_eq.
  revert Hnull Hs.
  repeat match goal with
         | |- context [match ?x with _ => _ end] => destruct x eqn:?; simpl
         end;
    intros Hnull Hs; try (rewrite Hs in Hgone; congruence).
  subst. simpl in *. congruence.
Qed.

(** What [secureRetrieve] returns is [null] or a truthy value, never
    [''], [0] or [false].  A second call at the same time returns the
    same and changes nothing more; and once the answer is [null] it stays
    [null] at any later reading of the clock, until the key is written
    again. *)
Theorem secureRetrieve_again (ls : Storage) (now : Z) (key : jsstring) :
  let first := secureRetrieve ls now key in
  (first.1 = JNull ∨ truthy first.1 = true)
  ∧ secureRetrieve first.2 now key = first
  ∧ (first.1 = JNull → ∀ later, secureRetrieve first.2 later key = (JNull, first.2)).
Proof.
  intros first. split; [|split].
  - destruct (secureRetrieve_truthy ls now key) as [?|[? _]]; auto.
  - unfold first.
    destruct (secureRetrieve_storage ls now key) as [Hs|[Hn Hs]].
    + by rewrite Hs.
    + rewrite Hs. unfold secureRetrieve at 1.
      assert (getItem (removeItem ls key) key = None) as -> by apply lookup_delete_eq.
      rewrite <- Hs, <- Hn. by destruct (secureRetrieve ls now key).
  - intros Hnull later. unfold first in *.
    destruct (secureRetrieve_null ls now key Hnull) as [Hg|Hg];
      unfold secureRetrieve at 1; by rewrite Hg.
Qed.

End StorageFrame.

(** ** More on the rate limiter *)

Section RateLimitWindows.

Lemma ratelimit_key_ne (provider other : jsstring) :
  other ≠ provider → lit "ratelimit_" ++ provider ≠ lit "ratelimit_" ++ other.
Proof. intros Ho He. by apply app_inv_head in He. Qed.

Lemma checkRateLimit_other (rateLimits : gmap jsstring RateLimit) (now : Z)
    (provider : jsstring) (maxRequests : Q) (windowMs : Z) (k : jsstring) :
  k ≠ lit "ratelimit_" ++ provider →
  (checkRateLimit rateLimits now provider maxRequests windowMs).2 !! k = rateLimits !! k.
Proof.
  intros Hk. unfold checkRateLimit.
  destruct (rateLimits !! (lit "ratelimit_" ++ provider)) as [current|];
    [destruct (now >? resetTime current); [|destruct (Qle_bool _ _)]|];
    simpl; try done; by apply lookup_insert_ne.
Qed.

Lemma checkRateLimit_answer (limits1 limits2 : gmap jsstring RateLimit) (now : Z)
    (provider : jsstring) (maxRequests : Q) (windowMs : Z) :
  limits1 !! (lit "ratelimit_" ++ provider) = limits2 !! (lit "ratelimit_" ++ provider) →
  (checkRateLimit limits1 now provider maxRequests windowMs).1
  = (checkRateLimit limits2 now provider maxRequests windowMs).1.
Proof.
  intros H. unfold checkRateLimit. rewrite H.
  destruct (limits2 !! _) as [current|]; [|done].
  destruct (now >? resetTime current); [done|].
  by destruct (Qle_bool _ _).
Qed.

(** The providers are limited one by one: a call for one provider changes
    neither the entry of another provider nor the answer the other will
    get; and a call that is refused changes nothing at all. *)
Theorem checkRateLimit_providers (rateLimits : gmap jsstring RateLimit) (now : Z)
    (provider other : jsstring) (maxRequests : Q) (windowMs : Z) :
  other ≠ provider →
  let answer := checkRateLimit rateLimits now provider maxRequests windowMs in
  answer.2 !! (lit "ratelimit_" ++ other) = rateLimits !! (lit "ratelimit_" ++ other)
  ∧ (∀ now' maxRequests' windowMs',
       (checkRateLimit answer.2 now' other maxRequests' windowMs').1
       = (checkRateLimit rateLimits now' other maxRequests' windowMs').1)
  ∧ (answer.1 = false → answer.2 = rateLimits).
Proof.
  intros Ho answer.
  assert (H : answer.2 !! (lit "ratelimit_" ++ other)
              = rateLimits !! (lit "ratelimit_" ++ other)).
  { apply checkRateLimit_other. intros He. by apply (ratelimit_key_ne provider other). }
  split; [exact H|]. split.
  - intros now' maxRequests' windowMs'. by apply checkRateLimit_answer.
  - clear H. unfold answer, checkRateLimit.
    destruct (rateLimits !! _) as [current|]; [|by simpl].
    destruct (now >? resetTime current); [by simpl|].
    by destruct (Qle_bool _ _); simpl.
Qed.

Lemma checkRateLimit_providers_witness :
  let limits := (checkRateLimit ∅ 0 (lit "OpenAI") 10 60000).2 in
  lit "Anthropic" ≠ lit "OpenAI"
  ∧ limits !! (lit "ratelimit_" ++ lit "Anthropic") = None
  ∧ (checkRateLimit limits 1 (lit "Anthropic") 10 60000).1 = true.
Proof.
  intros limits.
  assert (Ho : lit "Anthropic" ≠ lit "OpenAI") by done.
  destruct (checkRateLimit_providers ∅ 0 (lit "OpenAI") (lit "Anthropic") 10 60000 Ho)
    as (H1 & H2 & _).
  split; [exact Ho|]. split; [exact H1|]. exact (H2 1 10%Q 60000).
Defined.

Section Window.

Variables (provider : jsstring) (limit windowMs : Z).

Let key : jsstring := lit "ratelimit_" ++ provider.

(** Within a window that holds [k] calls already, the call number [k + i]
    is let through exactly when [k + i] is below the limit. *)
Lemma window_answers (reset : Z) (later : list Z) :
  Forall (λ t, t <= reset) later →
  ∀ (k : Z) (rateLimits : gmap jsstring RateLimit),
    1 <= k →
    rateLimits !! key
    = Some {| count := Z.min k (Z.max 1 limit); resetTime := reset |} →
    (checkRateLimits rateLimits provider (inject_Z limit) windowMs later).1
    = (λ i : nat, (false, bool_decide (k + Z.of_nat i < Z.max 1 limit)))
      <$> seq 0 (length later).
Proof.
  induction 1 as [|t later Ht _ IH]; intros k rateLimits Hk Hentry; [done|].
  cbn [checkRateLimits length seq fmap list_fmap fst snd].
  assert (Hopen : opensWindow rateLimits t provider = false).
  { unfold opensWindow. fold key. rewrite Hentry. simpl. lia. }
  rewrite Hopen.
  unfold checkRateLimit at 1 2. fold key. rewrite Hentry. cbn [resetTime count].
  assert ((t >? reset) = false) as -> by lia.
  rewrite Z.add_0_r, reached_ceiling, Qceiling_Z.
  destruct (Z.min k (Z.max 1 limit) >=? limit) eqn:E; cbn [fst snd].
  - rewrite bool_decide_eq_false_2 by lia. f_equal.
    rewrite (IH k rateLimits Hk Hentry).
    rewrite <- (fmap_S_seq 0), <- list_fmap_compose. apply list_fmap_ext.
    intros _ i _. simpl. f_equal. apply bool_decide_ext. lia.
  - rewrite bool_decide_eq_true_2 by lia. f_equal.
    rewrite (IH (k + 1)); [| lia |].
    + rewrite <- (fmap_S_seq 0), <- list_fmap_compose. apply list_fmap_ext.
      intros _ i _. simpl. f_equal. apply bool_decide_ext. lia.
    + rewrite lookup_insert_eq. do 2 f_equal. lia.
Qed.

End Window.

(** For an integer, being below the limit rounded up is being below the
    limit. *)
Lemma below_ceiling (maxRequests : Q) (i : Z) :
  i < Qceiling maxRequests ↔ (inject_Z i < maxRequests)%Q.
Proof.
  pose proof (reached_ceiling maxRequests i) as H.
  destruct (Qle_bool maxRequests (inject_Z i)) eqn:E.
  - symmetry in H. apply Z.geb_le in H. apply Qle_bool_iff in E.
    split; [lia|]. intros Hlt. exfalso. by apply (Qlt_not_le _ _ Hlt).
  - assert (i < Qceiling maxRequests) as Hlt.
    { destruct (Z.geb_spec i (Qceiling maxRequests)); [done|lia]. }
    split; [intros _|done].
    apply Qnot_le_lt. intros Hle. apply Qle_bool_iff in Hle. congruence.
Qed.

(** From the call that opens a window, and for as long as the clock has not
    passed the window's reset time, the calls are let through until
    [maxRequests] of them were (rounded up when [maxRequests] is not whole,
    and one if it is below one) and refused from then on: no call is
    refused before the limit is reached. *)
Theorem checkRateLimit_fresh_window (rateLimits : gmap jsstring RateLimit)
    (provider : jsstring) (maxRequests : Q) (windowMs now : Z) (later : list Z) :
  opensWindow rateLimits now provider = true →
  Forall (λ t, t <= now + windowMs) later →
  (checkRateLimits rateLimits provider maxRequests windowMs (now :: later)).1.*2
  = (λ i : nat, bool_decide (Z.of_nat i < Z.max 1 (Qceiling maxRequests)))
    <$> seq 0 (S (length later)).
Proof.
  intros Hopen Hlater.
  rewrite checkRateLimits_ceiling.
  cbn [checkRateLimits length seq fmap list_fmap fst snd].
  assert (Hfirst : checkRateLimit rateLimits now provider
                     (inject_Z (Qceiling maxRequests)) windowMs
                   = (true, <[lit "ratelimit_" ++ provider :=
                                {| count := 1; resetTime := now + windowMs |}]> rateLimits)).
  { unfold checkRateLimit, opensWindow in *.
    destruct (rateLimits !! _) as [current|]; [|done]. by rewrite Hopen. }
  rewrite Hfirst. cbn [fst snd]. rewrite bool_decide_eq_true_2 by lia. f_equal.
  rewrite (window_answers provider (Qceiling maxRequests) windowMs (now + windowMs)
             later Hlater 1); [|lia|].
  - rewrite <- list_fmap_compose, <- (fmap_S_seq 0), <- list_fmap_compose.
    apply list_fmap_ext. intros _ i _. simpl. apply bool_decide_ext. lia.
  - rewrite lookup_insert_eq. do 2 f_equal. lia.
Qed.

Lemma checkRateLimit_fresh_window_witness :
  opensWindow ∅ 0 (lit "reset-test") = true
  ∧ Forall (λ t, t <= 0 + 1) [0; 1; 1]
  ∧ (checkRateLimits ∅ (lit "reset-test") 3 1 [0; 0; 1; 1]).1.*2
    = [true; true; true; false].
Proof.
  assert (Ho : opensWindow ∅ 0 (lit "reset-test") = true) by reflexivity.
  assert (Hl : Forall (λ t, t <= 0 + 1) [0; 1; 1]) by (repeat constructor; lia).
  split; [exact Ho|]. split; [exact Hl|].
  exact (checkRateLimit_fresh_window ∅ (lit "reset-test") 3 1 0 [0; 1; 1] Ho Hl).
Defined.

End RateLimitWindows.

(** ** [clearAllSecurityData] and [checkEnvironmentSecurity] *)

Section Housekeeping.

(** After [clearAllSecurityData] the stored API keys and custom tasks are
    gone, so that [secureRetrieve] returns [null] for both; every other
    item of the storage is as it was; and the next call of any provider
    passes the rate limiter, whatever the limit. *)
Theorem clearAllSecurityData_clears (ls : Storage)
    (rateLimits : gmap jsstring RateLimit) :
  let cleared := clearAllSecurityData ls rateLimits in
  (∀ now, secureRetrieve cleared.1 now (lit "llm-lab-api-keys") = (JNull, cleared.1)
          ∧ secureRetrieve cleared.1 now (lit "llm-lab-custom-tasks") = (JNull, cleared.1))
  ∧ (∀ key, key ≠ lit "llm-lab-api-keys" → key ≠ lit "llm-lab-custom-tasks" →
            getItem cleared.1 key = getItem ls key)
  ∧ (∀ now provider maxRequests windowMs,
       (checkRateLimit cleared.2 now provider maxRequests windowMs).1 = true).
Proof.
  intros cleared. split; [|split].
  - intros now. unfold secureRetrieve, cleared, clearAllSecurityData, getItem, removeItem.
    cbn [fst items].
    rewrite lookup_delete_ne by done. by rewrite !lookup_delete_eq.
  - intros key H1 H2. unfold cleared, clearAllSecurityData, getItem, removeItem.
    cbn [fst items]. by rewrite !lookup_delete_ne.
  - intros now provider maxRequests windowMs.
    unfold cleared, clearAllSecurityData, checkRateLimit. cbn [snd].
    by rewrite lookup_empty.
Qed.

Lemma setItem_items (ls ls' : Storage) (key value : jsstring) :
  setItem ls key value = Some ls' → items ls' = <[key := value]> (items ls).
Proof. unfold setItem. destruct (_ <=? _)%nat; [|done]. by intros [= <-]. Qed.

(** The environment is reported secure exactly when the page is served
    over https or from localhost, no http resource is found on an https
    page, and the probe write to [localStorage] goes through; a missing
    Content-Security-Policy only adds a warning.  The probe removes the
    item [security-test], whether it was there before or not, and leaves
    every other item as it was. *)
Theorem checkEnvironmentSecurity_report (browser : Browser) (ls : Storage) :
  let result := checkEnvironmentSecurity browser ls in
  let https := protocol browser = lit "https:" in
  let probe := setItem ls (lit "security-test") (lit "test") in
  (isSecure result.1 = true
   ↔ (https ∨ hostname browser = lit "localhost")
     ∧ ¬ (https ∧ insecureResource browser = true)
     ∧ is_Some probe)
  ∧ (isSecure result.1 = true →
     warnings result.1
     = if cspMeta browser then []
       else [lit "Content Security Policy not detected. XSS protection may be limited."])
  ∧ (isSecure result.1 = false → warnings result.1 ≠ [])
  ∧ (∀ key, key ≠ lit "security-test" → getItem result.2 key = getItem ls key)
  ∧ (is_Some probe → getItem result.2 (lit "security-test") = None)
  ∧ (probe = None → result.2 = ls).
Proof.
  intros result https probe.
  assert (Hstorage : result.2 = match probe with
                                | Some ls' => removeItem ls' (lit "security-test")
                                | None => ls
                                end).
  { unfold result, checkEnvironmentSecurity. fold probe.
    by destruct probe, (_ && _), (_ && _), (negb _). }
  assert (Hreport : ∀ p h, bool_decide https = p →
            bool_decide (hostname browser = lit "localhost") = h →
            isSecure result.1
            = (p || h) && negb (p && insecureResource browser)
              && bool_decide (is_Some probe)
            ∧ (isSecure result.1 = true →
               warnings result.1
               = if cspMeta browser then []
                 else [lit "Content Security Policy not detected. XSS protection may be limited."])
            ∧ (isSecure result.1 = false → warnings result.1 ≠ [])).
  { intros p h Hp Hh. unfold result, checkEnvironmentSecurity. fold probe.
    unfold https in Hp. rewrite Hp, Hh.
    destruct p, h, (insecureResource browser), (cspMeta browser), probe; by cbn. }
  destruct (Hreport _ _ eq_refl eq_refl) as (Hsecure & Hwarn & Hinsecure).
  split; [|split; [exact Hwarn|split; [exact Hinsecure|]]].
  - rewrite Hsecure. unfold https.
    assert (Hnone : ¬ is_Some (@None Storage)) by (by intros [? ?]).
    destruct (decide (protocol browser = lit "https:")) as [Hp|Hp];
      [rewrite (bool_decide_eq_true_2 _ Hp)|rewrite (bool_decide_eq_false_2 _ Hp)];
      (destruct (decide (hostname browser = lit "localhost")) as [Hh|Hh];
       [rewrite (bool_decide_eq_true_2 _ Hh)|rewrite (bool_decide_eq_false_2 _ Hh)]);
      destruct (insecureResource browser), probe as [ls'|];
      rewrite ?bool_decide_eq_true_2 by (by eexists);
      rewrite ?bool_decide_eq_false_2 by done;
      cbn [andb orb negb]; split; try done; try tauto;
      intros _; (split; [tauto|split; [by intros [? ?]|by eexists]]).
  - rewrite Hstorage. split; [|split].
    + intros key Hkey. destruct probe as [ls'|] eqn:Hprobe; [|done].
      unfold getItem, removeItem. cbn [items].
      rewrite (setItem_items _ _ _ _ Hprobe).
      by rewrite lookup_delete_ne, lookup_insert_ne.
    + intros [ls' Hls']. rewrite Hls'. apply lookup_delete_eq.
    + by intros ->.
Qed.

End Housekeeping.

(** ** The clients of the API service *)

Section Clients.
Import ApiService.

Lemma isProviderConfigured_providerOf (this : APIService) (c : Client) :
  isProviderConfigured this (providerOf c) = built c this.
Proof. by destruct c. Qed.

Lemma isProviderConfigured_supported (this : APIService) (provider : jsstring) :
  isProviderConfigured this provider = true → ∃ c, provider = providerOf c.
Proof.
  unfold isProviderConfigured.
  repeat case_bool_decide; subst; intros ?;
    [by exists OpenAI|by exists Anthropic|by exists GoogleGenerativeAI
    |by exists HfInference|by exists MistralAI|done].
Qed.

(** [getConfiguredProviders] lists, in the order OpenAI, Anthropic, Google,
    Meta, Mistral AI and each once, exactly the providers for which
    [isProviderConfigured] answers true. *)
Theorem getConfiguredProviders_configured (this : APIService) :
  getConfiguredProviders this
  = filter (λ provider, isProviderConfigured this provider = true)
      (providerOf <$> allClients)
  ∧ NoDup (getConfiguredProviders this)
  ∧ ∀ provider,
      provider ∈ getConfiguredProviders this
      ↔ isProviderConfigured this provider = true.
Proof.
  assert (Hlist : getConfiguredProviders this
                  = filter (λ provider, isProviderConfigured this provider = true)
                      (providerOf <$> allClients)).
  { by destruct this as [[] [] [] [] []]. }
  split; [exact Hlist|]. split.
  - rewrite Hlist. apply NoDup_filter. by compute_done.
  - intros provider. rewrite Hlist, list_elem_of_filter. split; [tauto|].
    intros H. split; [done|].
    destruct (isProviderConfigured_supported this provider H) as [c ->].
    apply list_elem_of_fmap. exists c. split; [done|]. destruct c; set_solver.
Qed.

Section Initialize.

Context {K : Type} (isTruthy : K → bool) (construct : Client → K → bool)
  (keyOf : Client → K).

Lemma built_setClient (c c' : Client) (b : bool) (this : APIService) :
  built c (setClient c' b this) = if decide (c = c') then b else built c this.
Proof. by destruct c, c'. Qed.

(** Clients that are not in the list are not touched. *)
Lemma initialize_others (cs : list Client) (c : Client) :
  c ∉ cs → ∀ this, built c (initialize isTruthy construct keyOf cs this) = built c this.
Proof.
  induction cs as [|c' cs IH]; intros Hc this; [done|]. simpl.
  apply not_elem_of_cons in Hc as [Hne Hc].
  destruct (isTruthy (keyOf c')); [destruct (construct c' (keyOf c')); [|done]|];
    rewrite IH, built_setClient by done; by rewrite decide_False.
Qed.

(** While no constructor throws, each client is built exactly when its
    key is truthy. *)
Lemma initialize_built (cs : list Client) (c : Client) :
  NoDup cs → c ∈ cs →
  (∀ c', c' ∈ cs → isTruthy (keyOf c') = true → construct c' (keyOf c') = true) →
  ∀ this, built c (initialize isTruthy construct keyOf cs this) = isTruthy (keyOf c).
Proof.
  induction cs as [|c' cs IH]; intros Hnd Hc Hok this; [by apply elem_of_nil in Hc|].
  apply NoDup_cons in Hnd as [Hnotin Hnd]. simpl.
  assert (Hok' : ∀ c0, c0 ∈ cs → isTruthy (keyOf c0) = true → construct c0 (keyOf c0) = true)
    by (intros c0 H0; apply Hok; by right).
  destruct (isTruthy (keyOf c')) eqn:Ekey.
  - rewrite (Hok c') by (done || by left).
    apply elem_of_cons in Hc as [->|Hc].
    + rewrite initialize_others, built_setClient by done. by rewrite decide_True.
    + by apply IH.
  - apply elem_of_cons in Hc as [->|Hc].
    + rewrite initialize_others, built_setClient by done. by rewrite decide_True.
    + by apply IH.
Qed.

(** A constructor that throws ends the block: the clients before it are
    set, the one that threw and those after it stay as they were. *)
Lemma initialize_thrown (before after : list Client) (c0 : Client) :
  NoDup (before ++ c0 :: after) →
  (∀ c', c' ∈ before → isTruthy (keyOf c') = true → construct c' (keyOf c') = true) →
  isTruthy (keyOf c0) = true → construct c0 (keyOf c0) = false →
  ∀ this,
    (∀ c, c ∈ before →
          built c (initialize isTruthy construct keyOf (before ++ c0 :: after) this)
          = isTruthy (keyOf c))
    ∧ (∀ c, c ∈ c0 :: after →
            built c (initialize isTruthy construct keyOf (before ++ c0 :: after) this)
            = built c this).
Proof.
  induction before as [|c' before IH]; intros Hnd Hok Hkey Hthrow this.
  { simpl. rewrite Hkey, Hthrow. split; [|done]. intros c Hc. by apply elem_of_nil in Hc. }
  simpl in Hnd. apply NoDup_cons in Hnd as [Hnotin Hnd].
  assert (Hok' : ∀ c1, c1 ∈ before → isTruthy (keyOf c1) = true
                       → construct c1 (keyOf c1) = true)
    by (intros c1 H1; apply Hok; by right).
  assert (Hstep : ∃ b, initialize isTruthy construct keyOf ((c' :: before) ++ c0 :: after) this
                       = initialize isTruthy construct keyOf (before ++ c0 :: after)
                           (setClient c' b this)
                       ∧ b = isTruthy (keyOf c')).
  { simpl. destruct (isTruthy (keyOf c')) eqn:Ekey.
    - rewrite (Hok c') by (done || by left). by exists true.
    - by exists false. }
  destruct Hstep as (b & -> & ->).
  destruct (IH Hnd Hok' Hkey Hthrow (setClient c' (isTruthy (keyOf c')) this)) as [IH1 IH2].
  split.
  - intros c Hc. apply elem_of_cons in Hc as [->|Hc]; [|by apply IH1].
    assert (c' ∈ c0 :: after → False) as Hn by (intros H; apply Hnotin; set_solver).
    destruct (decide (c' ∈ before)) as [Hin|Hin]; [by apply IH1|].
    rewrite initialize_others, built_setClient by set_solver. by rewrite decide_True.
  - intros c Hc. rewrite IH2, built_setClient by done.
    rewrite decide_False; [done|]. intros ->. apply Hnotin. set_solver.
Qed.

End Initialize.

Lemma getConfiguredProviders_nil (this : APIService) :
  getConfiguredProviders this = [] ↔ ∀ c, built c this = false.
Proof.
  split.
  - intros H c. by destruct this as [[] [] [] [] []], c.
  - intros H. pose proof (H OpenAI). pose proof (H Anthropic).
    pose proof (H GoogleGenerativeAI). pose proof (H HfInference).
    pose proof (H MistralAI). destruct this; simpl in *. by subst.
Qed.

Lemma allClients_NoDup : NoDup allClients.
Proof. by compute_done. Qed.

Lemma allClients_all (c : Client) : c ∈ allClients.
Proof. destruct c; set_solver. Qed.

(** After [updateKeys(keys)], if no constructor throws, the service holds
    the keys and each client is built exactly when its key is not the
    empty string: [isProviderConfigured] answers true for the providers
    with a key and false for the others, and [getConfiguredProviders] is
    empty exactly when all five keys are empty. *)
Theorem updateKeys_configures (construct : Client → jsstring → bool)
    (keys : APIKeys.t) (service : Service) :
  (∀ c, keyFor keys c ≠ [] → construct c (keyFor keys c) = true) →
  let updated := updateKeys construct keys service in
  apiKeys updated = keys
  ∧ (∀ c, isProviderConfigured (clients updated) (providerOf c)
          = negb (bool_decide (keyFor keys c = [])))
  ∧ (getConfiguredProviders (clients updated) = [] ↔ ∀ c, keyFor keys c = []).
Proof.
  intros Hok updated.
  assert (Hbuilt : ∀ c, built c (clients updated) = negb (bool_decide (keyFor keys c = []))).
  { intros c. unfold updated, updateKeys, initializeClients. cbn [clients apiKeys].
    apply (initialize_built (λ key, negb (bool_decide (key = []))) construct (keyFor keys));
      [apply allClients_NoDup|apply allClients_all|].
    intros c' _ Hk. apply Hok. apply negb_true_iff in Hk.
    by apply bool_decide_eq_false_1 in Hk. }
  split; [done|]. split.
  - intros c. by rewrite isProviderConfigured_providerOf.
  - rewrite getConfiguredProviders_nil. split.
    + intros Hnone c. specialize (Hbuilt c). rewrite Hnone in Hbuilt.
      symmetry in Hbuilt. apply negb_false_iff in Hbuilt.
      by apply bool_decide_eq_true_1 in Hbuilt.
    + intros Hall c. rewrite Hbuilt. by rewrite bool_decide_eq_true_2.
Qed.

Lemma updateKeys_configures_witness :
  let keys := {| APIKeys.openai := lit "sk-test"; APIKeys.anthropic := [];
                 APIKeys.google := []; APIKeys.huggingface := [];
                 APIKeys.mistral := lit "key" |} in
  let fresh := {| apiKeys := {| APIKeys.openai := []; APIKeys.anthropic := [];
                                APIKeys.google := []; APIKeys.huggingface := [];
                                APIKeys.mistral := [] |};
                  clients := Doubles.noneConfigured |} in
  let updated := updateKeys (λ _ _, true) keys fresh in
  (∀ c, keyFor keys c ≠ [] → (λ _ _, true) c (keyFor keys c) = true)
  ∧ isProviderConfigured (clients updated) (lit "OpenAI") = true
  ∧ isProviderConfigured (clients updated) (lit "Anthropic") = false.
Proof.
  intros keys fresh updated.
  assert (Hok : ∀ c, keyFor keys c ≠ [] → (λ _ _ : _, true) c (keyFor keys c) = true)
    by done.
  split; [exact Hok|].
  pose proof (proj1 (proj2 (updateKeys_configures (λ _ _, true) keys fresh Hok))) as H.
  split; [exact (H OpenAI)|exact (H Anthropic)].
Defined.

(** When the constructor of a client throws, [initializeClients] stops
    there: the clients before it, in the order OpenAI, Anthropic, Google,
    Hugging Face, Mistral, are built or cleared by their keys, while the
    client that threw and all those after it stay what they were before
    the call, whatever their new keys are. *)
Theorem updateKeys_constructor_throws (construct : Client → jsstring → bool)
    (keys : APIKeys.t) (service : Service)
    (before after : list Client) (thrower : Client) :
  allClients = before ++ thrower :: after →
  (∀ c, c ∈ before → keyFor keys c ≠ [] → construct c (keyFor keys c) = true) →
  keyFor keys thrower ≠ [] →
  construct thrower (keyFor keys thrower) = false →
  let updated := updateKeys construct keys service in
  (∀ c, c ∈ before →
        built c (clients updated) = negb (bool_decide (keyFor keys c = [])))
  ∧ (∀ c, c ∈ thrower :: after → built c (clients updated) = built c (clients service)).
Proof.
  intros Hsplit Hok Hkey Hthrow updated.
  unfold updated, updateKeys, initializeClients. cbn [clients apiKeys]. rewrite Hsplit.
  apply (initialize_thrown (λ key, negb (bool_decide (key = []))) construct (keyFor keys)).
  - rewrite <- Hsplit. apply allClients_NoDup.
  - intros c Hc Hk. apply Hok; [done|]. apply negb_true_iff in Hk.
    by apply bool_decide_eq_false_1 in Hk.
  - by apply negb_true_iff, bool_decide_eq_false_2.
  - done.
Qed.

Lemma updateKeys_constructor_throws_witness :
  let construct := λ (c : Client) (_ : jsstring),
                     match c with Anthropic => false | _ => true end in
  let keys := {| APIKeys.openai := lit "sk-test"; APIKeys.anthropic := lit "bad";
                 APIKeys.google := []; APIKeys.huggingface := [];
                 APIKeys.mistral := lit "key" |} in
  let service := {| apiKeys := keys; clients := Doubles.allConfigured |} in
  allClients = [OpenAI] ++ Anthropic :: [GoogleGenerativeAI; HfInference; MistralAI]
  ∧ keyFor keys Anthropic ≠ []
  ∧ construct Anthropic (keyFor keys Anthropic) = false
  ∧ built GoogleGenerativeAI (clients (updateKeys construct keys service)) = true.
Proof.
  intros construct keys service.
  assert (Hs : allClients
               = [OpenAI] ++ Anthropic :: [GoogleGenerativeAI; HfInference; MistralAI])
    by reflexivity.
  assert (Hok : ∀ c, c ∈ [OpenAI] → keyFor keys c ≠ [] → construct c (keyFor keys c) = true).
  { intros c Hc _. apply elem_of_cons in Hc as [->|Hc]; [done|].
    by apply elem_of_nil in Hc. }
  assert (Hk : keyFor keys Anthropic ≠ []) by done.
  assert (Ht : construct Anthropic (keyFor keys Anthropic) = false) by reflexivity.
  split; [exact Hs|]. split; [exact Hk|]. split; [exact Ht|].
  refine (proj2 (updateKeys_constructor_throws construct keys service
                   [OpenAI] [GoogleGenerativeAI; HfInference; MistralAI] Anthropic
                   Hs Hok Hk Ht) GoogleGenerativeAI _).
  set_solver.
Defined.

End Clients.

(** ** [callModel] without a client *)

Section NotConfigured.
Import ApiService Doubles.

Context {W : Type} {platform : Platform W}.

Lemma dispatch_client (this : APIService) (c : Client) (model : LLMModel.t)
    (task : BenchmarkTask.t) (startTime : Z) :
  LLMModel.provider model = providerOf c →
  dispatch this model task startTime
  = match c with
    | OpenAI => callOpenAI this model task startTime
    | Anthropic => callAnthropic this model task startTime
    | GoogleGenerativeAI => callGoogle this model task startTime
    | HfInference => callHuggingFace this model task startTime
    | MistralAI => callMistral this model task startTime
    end.
Proof. intros Hp. unfold dispatch. rewrite Hp. by destruct c. Qed.

(** For a model of one of the five providers whose client is not built,
    [callModel] makes no request: it reads the clock twice and resolves
    with an empty content, no tokens, and the error that names the vendor,
    [Hugging Face] for the provider [Meta] and [Mistral] for
    [Mistral AI]. *)
Theorem callModel_not_configured (this : APIService) (c : Client)
    (model : LLMModel.t) (task : BenchmarkTask.t) (w : W) :
  LLMModel.provider model = providerOf c →
  built c this = false →
  callModel this model task w
  = (Returns {| APIResponse.content := [];
                APIResponse.inputTokens := 0;
                APIResponse.outputTokens := 0;
                APIResponse.latency := (Date_now (Date_now w).2).1 - (Date_now w).1;
                APIResponse.error := Some (vendorOf c ++ lit " API key not configured") |},
     (Date_now (Date_now w).2).2).
Proof.
  intros Hp Hb. unfold callModel, bind, tryCatch, now, perform, ret.
  destruct (Date_now w) as [startTime w1]. cbn [fst snd].
  rewrite (dispatch_client this c) by done.
  destruct c; simpl in Hb;
    unfold callOpenAI, callAnthropic, callGoogle, callHuggingFace, callMistral;
    rewrite Hb; cbn [negb throw]; by destruct (Date_now w1).
Qed.

End NotConfigured.

Section NotConfiguredExample.
Import ApiService Doubles.

Lemma callModel_not_configured_witness :
  let model :=
    {| LLMModel.id := lit "llama-3"; LLMModel.name := lit "Llama 3";
       LLMModel.provider := lit "Meta"; LLMModel.contextWindow := 8000;
       LLMModel.inputPricePerToken := 0; LLMModel.outputPricePerToken := 0;
       LLMModel.maxOutputTokens := 1000; LLMModel.capabilities := [];
       LLMModel.strengths := []; LLMModel.weaknesses := [] |} in
  LLMModel.provider model = providerOf HfInference
  ∧ built HfInference noneConfigured = false
  ∧ ∃ response,
      callModel (platform := vendors 1500 None (lit "answer")) noneConfigured
        model mockTask 7 = (Returns response, 7)
      ∧ APIResponse.error response = Some (lit "Hugging Face API key not configured").
Proof.
  intros model.
  assert (Hp : LLMModel.provider model = providerOf HfInference) by reflexivity.
  assert (Hb : built HfInference noneConfigured = false) by reflexivity.
  split; [exact Hp|]. split; [exact Hb|]. eexists.
  split;
    [exact (callModel_not_configured (platform := vendors 1500 None (lit "answer"))
              noneConfigured HfInference model mockTask 7 Hp Hb)
    |reflexivity].
Defined.

End NotConfiguredExample.

(** ** The engine over the service, with a clock that does not run backwards *)

Section MonotoneClock.
Import ApiService BenchmarkEngine Doubles.
Local Open Scope Q_scope.

Context {W : Type} {platform : Platform W}.

(** [before w w']: the world [w'] is [w] or comes after it. *)
Variable before : W → W → Prop.
Hypothesis before_trans : ∀ a b c, before a b → before b c → before a c.
Hypothesis clock_advances : ∀ w, before w (Date_now w).2.
Hypothesis clock_monotone :
  ∀ w w', before w w' → ((Date_now w).1 <= (Date_now w').1)%Z.
Hypothesis requests_advance :
  ∀ model task w,
    before w (openai_create model task w).2
    ∧ before w (anthropic_create model task w).2
    ∧ before w (google_generateContent model task w).2
    ∧ before w (hf_textGeneration model task w).2
    ∧ before w (mistral_chat model task w).2.

Variable this : APIService.

(** [callModel] resolves, with the latency between its two readings of the
    clock. *)
Lemma callModel_latency (model : LLMModel.t) (task : BenchmarkTask.t) (w : W) :
  ∃ response settled,
    ApiService.callModel this model task w = (Returns response, (Date_now settled).2)
    ∧ before w settled
    ∧ APIResponse.latency response = ((Date_now settled).1 - (Date_now w).1)%Z.
Proof.
  pose proof (clock_advances w) as Hw.
  destruct (requests_advance model task (Date_now w).2) as (H1 & H2 & H3 & H4 & H5).
  unfold ApiService.callModel, bind, tryCatch, now, perform, ret.
  destruct (Date_now w) as [startTime w1]. cbn [fst snd] in *.
  unfold dispatch, callOpenAI, callAnthropic, callGoogle, callHuggingFace, callMistral,
    bind, now, perform, ret, throw.
  repeat case_bool_decide;
    repeat match goal with
           | |- context [if negb ?b then _ else _] => destruct b; cbn [negb]
           end;
    try match goal with
        | |- context [match ?request model task w1 with _ => _ end] =>
            destruct (request model task w1) as [[reply|error] settled] eqn:E;
              cbn [fst snd] in *;
              assert (before w settled) by (eapply before_trans; [exact Hw|done])
        end;
    match goal with
    | |- context [Date_now ?x] =>
        destruct (Date_now x) as [t w'] eqn:E';
          eexists _, x; rewrite E'; by repeat split
    end.
Qed.

(** What the loop body pushes, for any run it starts from. *)
Lemma service_iteration (onProgress : bool) (total : Z) (model : LLMModel.t)
    (task : BenchmarkTask.t) (st : Run W) :
  ∃ r,
    results (iteration (env := serviceEnvironment this) onProgress total model task st)
    = results st ++ [r]
    ∧ (0 <= DetailedBenchmarkResult.latency r
       <= DetailedBenchmarkResult.processingTime r)%Z
    ∧ 0 <= DetailedBenchmarkResult.score r
    ∧ DetailedBenchmarkResult.score r <= 1.
Proof.
  unfold iteration.
  set (st1 := if onProgress then log _ st else st).
  assert (Hw : world st1 = world st) by (unfold st1; by destruct onProgress).
  assert (Hr : results st1 = results st) by (unfold st1; by destruct onProgress).
  cbn [isProviderConfigured clock callModel serviceEnvironment].
  destruct (ApiService.isProviderConfigured this (LLMModel.provider model)); cbn [negb].
  - pose proof (clock_advances (world st1)) as H0.
    pose proof (clock_monotone _ _ H0) as Hstart.
    destruct (Date_now (world st1)) as [startTime w1]. cbn [fst snd] in *.
    destruct (callModel_latency model task w1) as (response & settled & -> & Hs & Hl).
    pose proof (clock_monotone _ _ Hs) as Hinner.
    pose proof (clock_monotone _ _ (clock_advances settled)) as Hend.
    destruct (Date_now (Date_now settled).2) as [endTime w3]. cbn [fst snd] in *.
    destruct (Date_now w3) as [timestamp w4].
    eexists. split; [cbn [results push log]; by rewrite ?Hr|].
    cbn [answeredResult DetailedBenchmarkResult.latency
           DetailedBenchmarkResult.processingTime DetailedBenchmarkResult.score].
    split; [lia|].
    destruct (isSet (APIResponse.error response)); [lra|].
    pose proof (assessOutputQuality_range (APIResponse.content response) task) as Hq.
    apply combinedScore_bounds; [| |lia];
      destruct (bool_decide _); [rewrite Hq; lra|lra|rewrite Hq; lra|lra].
  - destruct (Date_now (world (log _ st1))) as [timestamp w1].
    eexists. split; [cbn [results push log]; by rewrite ?Hr|].
    cbn. split; [lia|lra].
Qed.

Lemma service_loop (onProgress : bool) (total : Z)
    (l : list (LLMModel.t * BenchmarkTask.t)) :
  ∀ st, ∃ rs,
    results (foldl (λ st p, iteration (env := serviceEnvironment this)
                              onProgress total p.1 p.2 st) st l)
    = results st ++ rs
    ∧ Forall (λ r, (0 <= DetailedBenchmarkResult.latency r
                    <= DetailedBenchmarkResult.processingTime r)%Z
                   ∧ 0 <= DetailedBenchmarkResult.score r
                   ∧ DetailedBenchmarkResult.score r <= 1) rs.
Proof.
  induction l as [|[model task] l IH]; intros st; simpl.
  - exists []. by rewrite app_nil_r.
  - destruct (service_iteration onProgress total model task st) as (r & Hr & Hp).
    destruct (IH (iteration (env := serviceEnvironment this) onProgress total model task st))
      as (rs & Hrs & Hall).
    exists (r :: rs). split; [rewrite Hrs, Hr; by rewrite <- app_assoc|].
    by constructor.
Qed.

Lemma service_results (models : list LLMModel.t) (tasks : list BenchmarkTask.t)
    (onProgress : bool) (w : W) :
  Forall (λ r, (0 <= DetailedBenchmarkResult.latency r
                <= DetailedBenchmarkResult.processingTime r)%Z
               ∧ 0 <= DetailedBenchmarkResult.score r
               ∧ DetailedBenchmarkResult.score r <= 1)
    (generateBenchmarkResults (env := serviceEnvironment this) models tasks onProgress w).
Proof.
  unfold generateBenchmarkResults, runBenchmark.
  set (total := (Z.of_nat (length models) * Z.of_nat (length tasks))%Z).
  rewrite (nested_loops (λ st model task,
             iteration (env := serviceEnvironment this) onProgress total model task st)).
  match goal with
  | |- context [foldl ?f ?st0 ?l] =>
      destruct (service_loop onProgress total l st0) as (rs & Hrs & Hall)
  end.
  assert (Hres : ∀ st' : Run W,
            results (if onProgress then log (Progress 100 None) st' else st')
            = results st') by (intros; by destruct onProgress).
  rewrite Hres. simpl in Hrs. by rewrite Hrs.
Qed.

End MonotoneClock.

(** With the service of apiService.ts behind the engine and a clock that
    never runs backwards, every record has a latency that is not negative
    and not above its processing time, and a score between 0 and 1: the
    service measures inside the interval the engine measures. *)
Theorem service_latency_within_processing_time {W : Type} {platform : ApiService.Platform W}
    (before : W → W → Prop) (this : ApiService.APIService)
    (models : list LLMModel.t) (tasks : list BenchmarkTask.t)
    (onProgress : bool) (w : W) :
  (∀ a b c, before a b → before b c → before a c) →
  (∀ w, before w (ApiService.Date_now w).2) →
  (∀ w w', before w w' → (ApiService.Date_now w).1 <= (ApiService.Date_now w').1) →
  (∀ model task w,
     before w (ApiService.openai_create model task w).2
     ∧ before w (ApiService.anthropic_create model task w).2
     ∧ before w (ApiService.google_generateContent model task w).2
     ∧ before w (ApiService.hf_textGeneration model task w).2
     ∧ before w (ApiService.mistral_chat model task w).2) →
  Forall (λ r, 0 <= DetailedBenchmarkResult.latency r
               <= DetailedBenchmarkResult.processingTime r
               ∧ (0 <= DetailedBenchmarkResult.score r)%Q
               ∧ (DetailedBenchmarkResult.score r <= 1)%Q)
    (BenchmarkEngine.generateBenchmarkResults
       (env := Doubles.serviceEnvironment this) models tasks onProgress w).
Proof.
  intros Ht Hc Hm Hr. by apply (service_results before).
Qed.

Lemma service_latency_within_processing_time_witness :
  let platform := Doubles.vendors 1500 None (lit "function f() {}") in
  (∀ a b c : Z, a <= b → b <= c → a <= c)
  ∧ (∀ w : Z, w <= (ApiService.Date_now (Platform := platform) w).2)
  ∧ Forall (λ r, 0 <= DetailedBenchmarkResult.latency r
                 <= DetailedBenchmarkResult.processingTime r
                 ∧ (0 <= DetailedBenchmarkResult.score r)%Q
                 ∧ (DetailedBenchmarkResult.score r <= 1)%Q)
      (BenchmarkEngine.generateBenchmarkResults
         (env := Doubles.serviceEnvironment (platform := platform) Doubles.allConfigured)
         [Doubles.gpt4o] [Doubles.mockTask] false 0).
Proof.
  intros platform.
  assert (Ht : ∀ a b c : Z, a <= b → b <= c → a <= c) by (intros; lia).
  assert (Hc : ∀ w : Z, w <= (ApiService.Date_now (Platform := platform) w).2)
    by (intros; simpl; lia).
  split; [exact Ht|]. split; [exact Hc|].
  refine (service_latency_within_processing_time (platform := platform) Z.le
            Doubles.allConfigured [Doubles.gpt4o] [Doubles.mockTask] false 0 Ht Hc _ _).
  - intros a b Hab. simpl. lia.
  - intros model task a. simpl. lia.
Defined.

(** ** What a run reports and whom it calls *)

Section Reports.
Import ApiService BenchmarkEngine.
Local Open Scope Q_scope.

Context {W : Type} {env : Environment W}.
Variables (onProgress : bool) (total : Z).

Let step (st : Run W) (p : LLMModel.t * BenchmarkTask.t) : Run W :=
  iteration onProgress total p.1 p.2 st.

(** The report of the pair reached with [completed] pairs done. *)
Let report (completed : Z) (p : LLMModel.t * BenchmarkTask.t) : Q * option jsstring :=
  (inject_Z completed / inject_Z total * 100, Some (LLMModel.name p.1)).

(** Whether [callModel] is invoked for the pair [p] reached in the run [st]. *)
Let called (ps : (LLMModel.t * BenchmarkTask.t) * Run W)
  : option (LLMModel.t * BenchmarkTask.t) :=
  if isProviderConfigured (LLMModel.provider ps.1.1) (world ps.2) then Some ps.1 else None.

Lemma progressReports_snoc (tr : list event) (e : event) :
  progressReports (tr ++ [e]) = progressReports tr ++ progressReports [e].
Proof. unfold progressReports. by rewrite omap_app. Qed.

Lemma iteration_reports (model : LLMModel.t) (task : BenchmarkTask.t) (st : Run W) :
  progressReports (trace (iteration onProgress total model task st))
  = progressReports (trace st)
    ++ (if onProgress then [report (completed st) (model, task)] else []).
Proof.
  unfold iteration.
  set (st1 := if onProgress then log _ st else st).
  assert (Ht : progressReports (trace st1)
               = progressReports (trace st)
                 ++ (if onProgress then [report (completed st) (model, task)] else [])).
  { unfold st1. destruct onProgress; [|by rewrite app_nil_r].
    cbn [trace log]. by rewrite progressReports_snoc. }
  destruct (negb _).
  - destruct (clock _) as [timestamp w1]. cbn [trace push log].
    by rewrite progressReports_snoc, app_nil_r.
  - destruct (clock _) as [startTime w1].
    destruct (callModel model task w1) as [[apiResponse|error] w2].
    + destruct (clock w2) as [endTime w3]. destruct (clock w3) as [timestamp w4].
      cbn [trace push log]. by rewrite progressReports_snoc, app_nil_r.
    + destruct (clock w2) as [timestamp w3].
      cbn [trace push log]. by rewrite progressReports_snoc, app_nil_r.
Qed.

Lemma loop_reports (l : list (LLMModel.t * BenchmarkTask.t)) :
  ∀ st,
    progressReports (trace (foldl step st l))
    = progressReports (trace st)
      ++ (if onProgress
          then imap (λ k p, report (completed st + Z.of_nat k) p) l
          else [])
    ∧ calls (trace (foldl step st l))
      = calls (trace st) ++ omap called (zip l (trajectory step st l)).
Proof.
  induction l as [|[model task] l IH]; intros st.
  { simpl. destruct onProgress; by rewrite !app_nil_r. }
  cbn [foldl trajectory zip zip_with omap list_omap].
  destruct (IH (step st (model, task))) as [-> ->].
  destruct (iteration_facts onProgress total model task st) as (r & _ & _ & Hc & Hcalls).
  assert (Hstep : step st (model, task) = iteration onProgress total model task st)
    by reflexivity.
  rewrite Hstep, iteration_reports, Hcalls, Hc, <- !app_assoc. split.
  - f_equal. destruct onProgress; [|done]. cbn [imap app]. rewrite Z.add_0_r. f_equal.
    apply imap_ext. intros k p _. simpl. f_equal. lia.
  - f_equal. unfold called at 2. cbn [fst snd].
    by destruct (isProviderConfigured _ _).
Qed.

End Reports.

Section RunReports.
Import ApiService BenchmarkEngine.
Local Open Scope Q_scope.

Context {W : Type} {env : Environment W}.

Lemma run_reports (models : list LLMModel.t) (tasks : list BenchmarkTask.t)
    (onProgress : bool) (w : W) :
  let total := (Z.of_nat (length models) * Z.of_nat (length tasks))%Z in
  progressReports (trace (runBenchmark models tasks onProgress w))
  = (if onProgress
     then imap (λ k p, (inject_Z (Z.of_nat k) / inject_Z total * 100,
                        Some (LLMModel.name p.1))) (pairsOf models tasks)
          ++ [(100, None)]
     else [])
  ∧ calls (trace (runBenchmark models tasks onProgress w))
    = omap (λ ps : (LLMModel.t * BenchmarkTask.t) * Run W,
              if isProviderConfigured (LLMModel.provider ps.1.1) (world ps.2)
              then Some ps.1 else None)
        (zip (pairsOf models tasks) (statesBefore models tasks onProgress w)).
Proof.
  intros total. unfold runBenchmark, statesBefore, pairsOf. fold total.
  set (st0 := {| world := w; trace := []; results := []; completed := 0 |}).
  rewrite (nested_loops (λ st model task, iteration onProgress total model task st)).
  destruct (loop_reports onProgress total (list_prod models tasks) st0) as [Hp Hc].
  simpl in Hp, Hc.
  destruct onProgress.
  - cbn [trace log]. rewrite progressReports_snoc, calls_snoc, Hp, Hc, app_nil_r.
    split; [|done]. f_equal.
  - by rewrite Hp, Hc.
Qed.

Lemma progress_value (k total : Z) :
  (0 <= k < total)%Z →
  0 <= inject_Z k / inject_Z total * 100 ∧ inject_Z k / inject_Z total * 100 < 100.
Proof.
  intros [Hk Ht].
  assert (H0 : 0 <= inject_Z k) by (change 0 with (inject_Z 0); by rewrite <- Zle_Qle).
  assert (Hlt : inject_Z k < inject_Z total) by (by rewrite <- Zlt_Qlt).
  assert (Hpos : 0 < inject_Z total) by lra.
  assert (Hq0 : 0 <= inject_Z k / inject_Z total).
  { apply Qle_shift_div_l; [done|]. lra. }
  assert (Hq1 : inject_Z k / inject_Z total < 1).
  { apply Qlt_shift_div_r; [done|]. lra. }
  lra.
Qed.

(** With a progress callback, [generateBenchmarkResults] reports once
    before each pair, with the share of the pairs done so far in per cent
    ([k / total * 100] before the pair at position [k], so 0 first and
    always below 100) and the name of the pair's model, and once at the
    end with 100 and no name; without a callback it reports nothing.  With
    no model or no task the only report is the closing one: the division
    by [total = 0] is never reached. *)
Theorem generateBenchmarkResults_progress (models : list LLMModel.t)
    (tasks : list BenchmarkTask.t) (onProgress : bool) (w : W) :
  let total := (Z.of_nat (length models) * Z.of_nat (length tasks))%Z in
  let reports := progressReports (trace (runBenchmark models tasks onProgress w)) in
  reports
  = (if onProgress
     then imap (λ k p, (inject_Z (Z.of_nat k) / inject_Z total * 100,
                        Some (LLMModel.name p.1))) (pairsOf models tasks)
          ++ [(100, None)]
     else [])
  ∧ (∀ k progress currentModel,
       reports !! k = Some (progress, currentModel) →
       (k < length models * length tasks)%nat →
       0 <= progress ∧ progress < 100 ∧ is_Some currentModel)
  ∧ (onProgress = true → last reports = Some (100, None)).
Proof.
  intros total reports.
  destruct (run_reports models tasks onProgress w) as [Hr _]. fold total reports in Hr.
  split; [exact Hr|]. split.
  - rewrite Hr. intros k progress currentModel Hk Hlt.
    destruct onProgress; [|done].
    assert (Hlen : length (pairsOf models tasks) = (length models * length tasks)%nat)
      by apply length_prod.
    rewrite lookup_app_l in Hk by (rewrite length_imap; lia).
    rewrite list_lookup_imap in Hk.
    destruct (pairsOf models tasks !! k) as [p|]; [|done].
    injection Hk as <- <-.
    destruct (progress_value (Z.of_nat k) total) as [H0 H1]; [unfold total; lia|].
    by repeat split.
  - intros ->. rewrite Hr. by rewrite last_snoc.
Qed.


End RunReports.

(** ** More on the recommendations *)

Section RecommendationScores.
Import ApiService BenchmarkEngine.
Local Open Scope Q_scope.

(** The recommendations are those of the selected results, sorted. *)
Lemma recommendations_sorted_map (llmModels : list LLMModel.t) (task : BenchmarkTask.t)
    (results : list DetailedBenchmarkResult.t) (prioritizePerformance : bool) :
  getModelRecommendations llmModels task results prioritizePerformance
  = sort (λ a b, ModelRecommendation.score b - ModelRecommendation.score a)
      (map (recommend llmModels prioritizePerformance) (List.filter (selected task) results)).
Proof.
  unfold getModelRecommendations. case_bool_decide as Hn; [|done].
  by destruct (List.filter (selected task) results).
Qed.

Lemma recommend_bounds (llmModels : list LLMModel.t) (prioritizePerformance : bool)
    (result : DetailedBenchmarkResult.t) :
  0 <= DetailedBenchmarkResult.score result →
  DetailedBenchmarkResult.score result <= 1 →
  let a := recommend llmModels prioritizePerformance result in
  0 <= ModelRecommendation.score a ∧ ModelRecommendation.score a <= 1
  ∧ 0 <= ModelRecommendation.costEfficiency a
  ∧ ModelRecommendation.performanceRating a = DetailedBenchmarkResult.score result.
Proof.
  intros H0 H1. unfold recommend.
  cbn [ModelRecommendation.score ModelRecommendation.costEfficiency
         ModelRecommendation.performanceRating].
  set (s := DetailedBenchmarkResult.score result) in *.
  set (ce := if Qlt_le_dec 0 (DetailedBenchmarkResult.cost result) then _ else _).
  assert (Hce : 0 <= ce).
  { unfold ce. destruct (Qlt_le_dec 0 _) as [Hc|Hc]; [|lra].
    apply Qle_shift_div_l; [done|]. lra. }
  assert (Hm : 0 <= Qmin (ce / 1000) 1 ∧ Qmin (ce / 1000) 1 <= 1).
  { split; [|apply Q.le_min_r]. apply Q.min_glb; [|lra].
    apply Qle_shift_div_l; [lra|]. lra. }
  clearbody ce. set (m := Qmin _ _) in *. clearbody m.
  destruct prioritizePerformance; repeat split; try done; lra.
Qed.

(** For results whose scores lie between 0 and 1, as the engine records
    them, every recommendation has a score between 0 and 1, a cost
    efficiency that is not negative, and the score of its result as
    performance rating. *)
Theorem getModelRecommendations_scores (llmModels : list LLMModel.t)
    (task : BenchmarkTask.t) (results : list DetailedBenchmarkResult.t)
    (prioritizePerformance : bool) :
  Forall (λ r, 0 <= DetailedBenchmarkResult.score r
               ∧ DetailedBenchmarkResult.score r <= 1) results →
  Forall (λ a, 0 <= ModelRecommendation.score a
               ∧ ModelRecommendation.score a <= 1
               ∧ 0 <= ModelRecommendation.costEfficiency a
               ∧ 0 <= ModelRecommendation.performanceRating a
               ∧ ModelRecommendation.performanceRating a <= 1)
    (getModelRecommendations llmModels task results prioritizePerformance).
Proof.
  intros Hres. rewrite recommendations_sorted_map.
  rewrite (sort_Permutation ModelRecommendation.score).
  apply Forall_map. apply Forall_forall. intros r Hr.
  apply list_elem_of_In, filter_In in Hr as [Hr _]. apply list_elem_of_In in Hr.
  eapply Forall_forall in Hres as [H0 H1]; [|exact Hr].
  destruct (recommend_bounds llmModels prioritizePerformance r H0 H1)
    as (? & ? & ? & Hp).
  rewrite Hp. by repeat split.
Qed.

End RecommendationScores.

Section RecommendationScoresExample.
Import ApiService BenchmarkEngine Doubles.
Local Open Scope Q_scope.

Lemma getModelRecommendations_scores_witness :
  let results :=
    generateBenchmarkResults (env := mockEnvironment true
        (Returns (resolved (lit "function f() {}") 10 20 1500)))
      [gpt4o] [mockTask] false 0%Z in
  Forall (λ r, 0 <= DetailedBenchmarkResult.score r
               ∧ DetailedBenchmarkResult.score r <= 1) results
  ∧ length (getModelRecommendations [gpt4o] mockTask results true) = 1%nat
  ∧ Forall (λ a, 0 <= ModelRecommendation.score a
                 ∧ ModelRecommendation.score a <= 1
                 ∧ 0 <= ModelRecommendation.costEfficiency a
                 ∧ 0 <= ModelRecommendation.performanceRating a
                 ∧ ModelRecommendation.performanceRating a <= 1)
      (getModelRecommendations [gpt4o] mockTask results true).
Proof.
  intros results.
  assert (Hres : Forall (λ r, 0 <= DetailedBenchmarkResult.score r
                              ∧ DetailedBenchmarkResult.score r <= 1) results).
  { repeat constructor; by vm_compute. }
  split; [exact Hres|]. split; [reflexivity|].
  exact (getModelRecommendations_scores [gpt4o] mockTask results true Hres).
Defined.

End RecommendationScoresExample.

(** ** [sanitizeError] *)

Section Matching.

(** With more fuel than characters the fuel does not matter. *)
Lemma replaceMatches_fuel (pattern : list atom) (replacement : jsstring) (fuel : nat) :
  ∀ (fuel' : nat) (s : jsstring),
    (length s < fuel)%nat → (length s < fuel')%nat →
    replaceMatches fuel pattern replacement s = replaceMatches fuel' pattern replacement s.
Proof.
  induction fuel as [|fuel IH]; intros fuel' s H1 H2; [lia|].
  destruct fuel' as [|fuel']; [lia|]. cbn [replaceMatches].
  destruct (matchHere pattern s) as [rest|], s as [|c s]; try done.
  - destruct (length rest <? length (c :: s))%nat eqn:E.
    + apply Nat.ltb_lt in E. f_equal. apply IH; simpl in *; lia.
    + do 2 f_equal. apply IH; simpl in *; lia.
  - f_equal. apply IH; simpl in *; lia.
Qed.

(** A text in which the pattern matches nowhere is left as it is. *)
Lemma replaceMatches_unmatched (pattern : list atom) (replacement : jsstring) (fuel : nat) :
  ∀ s, (length s < fuel)%nat →
       (∀ k, matchHere pattern (drop k s) = None) →
       replaceMatches fuel pattern replacement s = s.
Proof.
  induction fuel as [|fuel IH]; intros s Hlen Hno; [lia|].
  pose proof (Hno 0%nat) as H0. rewrite drop_0 in H0.
  cbn [replaceMatches]. rewrite H0. destruct s as [|c s]; [done|]. f_equal.
  apply IH; [simpl in Hlen; lia|]. intros k. apply (Hno (S k)).
Qed.

Lemma replaceRegex_unmatched (pattern : list atom) (replacement s : jsstring) :
  (∀ k, matchHere pattern (drop k s) = None) →
  replaceRegex pattern replacement s = s.
Proof. intros Hno. apply replaceMatches_unmatched; [lia|done]. Qed.

(** A match at the head is replaced, and the search goes on behind it. *)
Lemma replaceRegex_head (pattern : list atom) (replacement s rest : jsstring) :
  matchHere pattern s = Some rest → (length rest < length s)%nat →
  replaceRegex pattern replacement s
  = replacement ++ replaceRegex pattern replacement rest.
Proof.
  intros Hm Hlen. unfold replaceRegex.
  assert (Hstep : ∀ fuel,
            replaceMatches (S fuel) pattern replacement s
            = replacement ++ replaceMatches fuel pattern replacement rest).
  { intros fuel. cbn [replaceMatches]. rewrite Hm.
    destruct s as [|c s]; [simpl in Hlen; lia|].
    by apply Nat.ltb_lt in Hlen as ->. }
  rewrite Hstep. f_equal. apply replaceMatches_fuel; lia.
Qed.

(** A run of characters of the class up to the end of the text is taken
    whole. *)
Lemma repeatThen_all (p : N → bool) (k : jsstring → option jsstring) (s r : jsstring) :
  Forall (λ c, p c = true) s → k [] = Some r → repeatThen p k s = Some r.
Proof.
  intros Hs Hk. induction Hs as [|c s Hc _ IH]; [done|].
  cbn [repeatThen]. by rewrite Hc, IH.
Qed.

(** A pattern that asks for a character of a class, after atoms that are
    taken at most once, matches no text without such a character. *)
Lemma matchHere_needs (class : N → bool) (after : list atom) (before : list atom) :
  Forall (λ a, quantity a ≠ OneOrMore) before →
  ∀ s, Forall (λ c, class c = false) s →
       matchHere (before ++ oneOrMore class :: after) s = None.
Proof.
  induction 1 as [|a before Ha _ IH]; intros s Hs.
  - cbn [app matchHere oneOrMore quantity accepts].
    destruct Hs as [|c s Hc _]; [done|]. by rewrite Hc.
  - cbn [app matchHere]. destruct (quantity a) eqn:Eq; [| |done].
    + destruct Hs as [|c s Hc Hs]; [done|]. destruct (accepts a c); [by apply IH|done].
    + destruct Hs as [|c s Hc Hs]; [by apply IH|].
      destruct (accepts a c).
      * rewrite (IH s Hs). apply IH. by constructor.
      * apply IH. by constructor.
Qed.

End Matching.

Section Redaction.

Lemma class_not_separator (c : N) :
  tokenChar c = true → separator c = false ∧ isWhiteSpace c = false ∧ c ∉ escaped.
Proof.
  intros H.
  assert (Hc : (97 <= c <= 122 ∨ 65 <= c <= 90 ∨ 48 <= c <= 57
                ∨ c = 45 ∨ c = 95 ∨ c = 46)%N).
  { unfold tokenChar, alnumDashUnderscore, alnum in H.
    repeat (rewrite orb_true_iff in H || rewrite andb_true_iff in H
            || rewrite N.leb_le in H || rewrite N.eqb_eq in H). lia. }
  clear H.
  assert (Hw : isWhiteSpace c = false).
  { destruct (isWhiteSpace c) eqn:E; [exfalso|done]. unfold isWhiteSpace in E.
    repeat (rewrite orb_true_iff in E || rewrite andb_true_iff in E
            || rewrite N.leb_le in E || rewrite N.eqb_eq in E). lia. }
  split; [|split; [done|]].
  - unfold separator. rewrite Hw.
    destruct (N.eqb_spec c 58); [lia|]. by destruct (N.eqb_spec c 61); [lia|].
  - unfold escaped. intros Hin.
    repeat (apply elem_of_cons in Hin as [->|Hin]; [lia|]).
    by apply elem_of_nil in Hin.
Qed.

Lemma alnumDashUnderscore_tokenChar (c : N) :
  alnumDashUnderscore c = true → tokenChar c = true.
Proof. unfold tokenChar. by intros ->. Qed.

(** A word of the pattern matches the same word of the text in any letter
    case. *)
Lemma matchHere_word (word : string) (pattern : list atom) (text s : jsstring) :
  Forall2 (λ x y, asciiUpper x = asciiUpper y) text (lit word) →
  matchHere (ignoreCase word ++ pattern) (text ++ s) = matchHere pattern s.
Proof.
  unfold ignoreCase. induction 1 as [|x y text l Hxy _ IH]; [done|].
  cbn [map app matchHere one quantity accepts]. by rewrite Hxy, N.eqb_refl.
Qed.

Lemma matchHere_skip (q : N → bool) (pattern : list atom) (c : N) (s : jsstring) :
  q c = false → matchHere (zeroOrOne q :: pattern) (c :: s) = matchHere pattern (c :: s).
Proof. intros Hq. cbn [matchHere zeroOrOne quantity accepts]. by rewrite Hq. Qed.

Lemma matchHere_take (q : N → bool) (pattern : list atom) (c : N) (s r : jsstring) :
  q c = true → matchHere pattern s = Some r →
  matchHere (zeroOrOne q :: pattern) (c :: s) = Some r.
Proof. intros Hq Hm. cbn [matchHere zeroOrOne quantity accepts]. by rewrite Hq, Hm. Qed.

(** A separator and then a run of the class up to the end of the text. *)
Lemma matchHere_assignment (sep class : N → bool) (x c : N) (s : jsstring) :
  sep x = true → sep c = false → class c = true → Forall (λ y, class y = true) s →
  matchHere [oneOrMore sep; oneOrMore class] (x :: c :: s) = Some [].
Proof.
  intros Hx Hsep Hc Hs.
  cbn [matchHere oneOrMore quantity accepts repeatThen]. rewrite Hx, Hsep, Hc.
  by apply repeatThen_all.
Qed.

End Redaction.

Section Unredacted.

(** The chain of replacements, step by step. *)
Lemma redact_steps (message m1 m2 m3 m4 m5 m6 : jsstring) :
  replaceRegex apiKeyPattern (lit "API_KEY_REDACTED") message = m1 →
  replaceRegex bearerPattern (lit "BEARER_TOKEN_REDACTED") m1 = m2 →
  replaceRegex authorizationPattern (lit "AUTH_HEADER_REDACTED") m2 = m3 →
  replaceRegex tokenPattern (lit "TOKEN_REDACTED") m3 = m4 →
  replaceRegex passwordPattern (lit "PASSWORD_REDACTED") m4 = m5 →
  replaceRegex secretPattern (lit "SECRET_REDACTED") m5 = m6 →
  redact message = m6.
Proof. intros <- <- <- <- <- <-. reflexivity. Qed.

(** A message in which none of the six patterns matches is not changed. *)
Lemma redact_unmatched (message : jsstring) :
  (∀ k, matchHere apiKeyPattern (drop k message) = None
        ∧ matchHere bearerPattern (drop k message) = None
        ∧ matchHere authorizationPattern (drop k message) = None
        ∧ matchHere tokenPattern (drop k message) = None
        ∧ matchHere passwordPattern (drop k message) = None
        ∧ matchHere secretPattern (drop k message) = None) →
  redact message = message.
Proof.
  intros Hno.
  apply (redact_steps message message message message message message message);
    apply replaceRegex_unmatched; intros k; apply Hno.
Qed.

End Unredacted.

Section RedactionOfSecrets.

Variables (c : N) (s : jsstring).
Hypothesis Hc : alnumDashUnderscore c = true.
Hypothesis Hs : Forall (λ x, alnumDashUnderscore x = true) s.

Let secret : jsstring := c :: s.

Lemma secret_token : Forall (λ x, tokenChar x = true) secret.
Proof.
  constructor; [by apply alnumDashUnderscore_tokenChar|].
  eapply Forall_impl; [exact Hs|]. apply alnumDashUnderscore_tokenChar.
Qed.

Lemma secret_plain :
  Forall (λ x, separator x = false) secret
  ∧ Forall (λ x, isWhiteSpace x = false) secret
  ∧ Forall (λ x, x ∉ escaped) secret.
Proof.
  repeat split; eapply Forall_impl; try exact secret_token;
    intros x Hx; by apply class_not_separator in Hx as (? & ? & ?).
Qed.

(** No pattern matches inside the secret: each asks for a separator or a
    white space. *)
Lemma secret_unmatched (k : nat) :
  matchHere apiKeyPattern (drop k secret) = None
  ∧ matchHere bearerPattern (drop k secret) = None
  ∧ matchHere authorizationPattern (drop k secret) = None
  ∧ matchHere tokenPattern (drop k secret) = None
  ∧ matchHere passwordPattern (drop k secret) = None
  ∧ matchHere secretPattern (drop k secret) = None.
Proof.
  destruct secret_plain as (Hsep & Hws & _).
  apply (Forall_drop _ k) in Hsep, Hws.
  repeat split.
  - apply (matchHere_needs separator [oneOrMore alnumDashUnderscore]
             (ignoreCase "api" ++ [zeroOrOne (λ c, (c =? 95) || (c =? 45))%N]
              ++ ignoreCase "key" ++ [zeroOrOne (λ c, (c =? 115) || (c =? 83))%N]));
      [by repeat constructor|done].
  - apply (matchHere_needs isWhiteSpace [oneOrMore tokenChar] (ignoreCase "bearer"));
      [by repeat constructor|done].
  - apply (matchHere_needs separator [oneOrMore headerChar] (ignoreCase "authorization"));
      [by repeat constructor|done].
  - apply (matchHere_needs separator [oneOrMore tokenChar] (ignoreCase "token"));
      [by repeat constructor|done].
  - apply (matchHere_needs separator [oneOrMore (λ c, negb (isWhiteSpace c))]
             (ignoreCase "password")); [by repeat constructor|done].
  - apply (matchHere_needs separator [oneOrMore (λ c, negb (isWhiteSpace c))]
             (ignoreCase "secret")); [by repeat constructor|done].
Qed.

Lemma api_key_assignment :
  sanitizeError (JStr (lit "api_key=" ++ secret)) = Some (lit "API_KEY_REDACTED").
Proof.
  destruct secret_plain as (Hsep & _ & _). apply Forall_cons in Hsep as [Hsep _].
  assert (Hm : matchHere apiKeyPattern (lit "api_key=" ++ secret) = Some []).
  { change (lit "api_key=" ++ secret)
      with (lit "api" ++ 95%N :: (lit "key" ++ 61%N :: c :: s)).
    unfold apiKeyPattern. rewrite matchHere_word by (by repeat constructor).
    cbn [app]. apply matchHere_take; [done|].
    rewrite matchHere_word by (by repeat constructor).
    cbn [app]. rewrite matchHere_skip by done.
    by apply matchHere_assignment. }
  unfold sanitizeError. cbn [truthy negb]. rewrite bool_decide_eq_false_2 by done.
  cbn [negb mbind option_bind].
  rewrite (redact_steps (lit "api_key=" ++ secret)
             (lit "API_KEY_REDACTED") (lit "API_KEY_REDACTED") (lit "API_KEY_REDACTED")
             (lit "API_KEY_REDACTED") (lit "API_KEY_REDACTED") (lit "API_KEY_REDACTED"));
    [by vm_compute| |by vm_compute..].
  rewrite (replaceRegex_head apiKeyPattern _ _ [] Hm) by (simpl; lia). by vm_compute.
Qed.

Lemma bearer_token :
  sanitizeError (JStr (lit "Bearer " ++ secret)) = Some (lit "BEARER_TOKEN_REDACTED").
Proof.
  destruct secret_plain as (_ & Hws & _). apply Forall_cons in Hws as [Hws _].
  pose proof secret_token as Ht. apply Forall_cons in Ht as [Htc Hts].
  assert (H1 : ∀ k, matchHere apiKeyPattern (drop k (lit "Bearer " ++ secret)) = None).
  { intros k. do 7 (destruct k as [|k]; [by vm_compute|]).
    change (drop (S (S (S (S (S (S (S k))))))) (lit "Bearer " ++ secret))
      with (drop k secret).
    apply secret_unmatched. }
  assert (Hm : matchHere bearerPattern (lit "Bearer " ++ secret) = Some []).
  { change (lit "Bearer " ++ secret) with (lit "Bearer" ++ 32%N :: c :: s).
    unfold bearerPattern. rewrite matchHere_word by (by repeat constructor).
    by apply matchHere_assignment. }
  unfold sanitizeError. cbn [truthy negb]. rewrite bool_decide_eq_false_2 by done.
  cbn [negb mbind option_bind].
  rewrite (redact_steps (lit "Bearer " ++ secret) (lit "Bearer " ++ secret)
             (lit "BEARER_TOKEN_REDACTED") (lit "BEARER_TOKEN_REDACTED")
             (lit "BEARER_TOKEN_REDACTED") (lit "BEARER_TOKEN_REDACTED")
             (lit "BEARER_TOKEN_REDACTED"));
    [by vm_compute|by apply replaceRegex_unmatched| |by vm_compute..].
  rewrite (replaceRegex_head bearerPattern _ _ [] Hm) by (simpl; lia). by vm_compute.
Qed.

Lemma api_key_with_space :
  sanitizeError (JStr (lit "API key " ++ secret)) = Some (lit "API key " ++ secret).
Proof.
  assert (Hno : ∀ k,
            matchHere apiKeyPattern (drop k (lit "API key " ++ secret)) = None
            ∧ matchHere bearerPattern (drop k (lit "API key " ++ secret)) = None
            ∧ matchHere authorizationPattern (drop k (lit "API key " ++ secret)) = None
            ∧ matchHere tokenPattern (drop k (lit "API key " ++ secret)) = None
            ∧ matchHere passwordPattern (drop k (lit "API key " ++ secret)) = None
            ∧ matchHere secretPattern (drop k (lit "API key " ++ secret)) = None).
  { intros k. do 8 (destruct k as [|k]; [by vm_compute|]).
    change (drop (S (S (S (S (S (S (S (S k)))))))) (lit "API key " ++ secret))
      with (drop k secret).
    apply secret_unmatched. }
  assert (E : redact (lit "API key " ++ secret) = lit "API key " ++ secret).
  { apply redact_unmatched. intros k. apply Hno. }
  unfold sanitizeError. cbn [truthy negb]. rewrite bool_decide_eq_false_2 by done.
  cbn [negb mbind option_bind]. rewrite E.
  f_equal. cbn [sanitizeInput].
  destruct secret_plain as (_ & Hws & Hesc).
  apply sanitizeString_fixpoint.
  - apply Forall_app. split; [|done]. by compute_done.
  - apply trim_id.
    + intros x [= <-]. done.
    + intros x. change (lit "API key " ++ secret) with ((lit "API key " ++ [c]) ++ s).
      intros Hl.
      assert (Hin : x ∈ secret).
      { destruct s as [|y s'] using rev_ind.
        - simpl in Hl. injection Hl as <-. by apply elem_of_cons; left.
        - rewrite app_assoc, last_snoc in Hl. injection Hl as <-.
          apply elem_of_cons; right. apply elem_of_app; right.
          by apply elem_of_cons; left. }
      by eapply Forall_forall in Hws.
Qed.

End RedactionOfSecrets.

(** A secret written after [api_key=] or after [Bearer ] is redacted: for
    every secret made of letters, digits, [-] and [_] the whole message
    becomes the redaction text.  But [API key ] followed by the secret, with
    a space between the two words, matches none of the six patterns, and
    the message comes back with the secret in it. *)
Theorem sanitizeError_redacts (secret : jsstring) :
  secret ≠ [] →
  Forall (λ c, alnumDashUnderscore c = true) secret →
  sanitizeError (JStr (lit "api_key=" ++ secret)) = Some (lit "API_KEY_REDACTED")
  ∧ sanitizeError (JStr (lit "Bearer " ++ secret)) = Some (lit "BEARER_TOKEN_REDACTED")
  ∧ sanitizeError (JStr (lit "API key " ++ secret)) = Some (lit "API key " ++ secret).
Proof.
  intros Hne Hs. destruct secret as [|c s]; [done|].
  apply Forall_cons in Hs as [Hc Hs].
  split; [by apply api_key_assignment|].
  split; [by apply bearer_token|by apply api_key_with_space].
Qed.

Lemma sanitizeError_redacts_witness :
  lit "sk-1234567890" ≠ []
  ∧ Forall (λ c, alnumDashUnderscore c = true) (lit "sk-1234567890")
  ∧ sanitizeError (JStr (lit "API key sk-1234567890")) = Some (lit "API key sk-1234567890").
Proof.
  assert (Hne : lit "sk-1234567890" ≠ []) by done.
  assert (Hs : Forall (λ c, alnumDashUnderscore c = true) (lit "sk-1234567890"))
    by (by repeat constructor).
  split; [exact Hne|]. split; [exact Hs|].
  exact (proj2 (proj2 (sanitizeError_redacts (lit "sk-1234567890") Hne Hs))).
Defined.

Section ErrorMessages.

Lemma sanitized_output (message : jsstring) :
  let out := sanitizeInput (VString message) in
  Forall (λ c, c ∉ escaped) out
  ∧ (∀ c, head out = Some c → isWhiteSpace c = false)
  ∧ (∀ c, last out = Some c → isWhiteSpace c = false).
Proof.
  simpl. split; [apply sanitizeString_clean|]. split; [apply trim_head|apply trim_last].
Qed.

Lemma sanitizeError_some (error : json) (out : jsstring) :
  sanitizeError error = Some out →
  Forall (λ c, c ∉ escaped) out
  ∧ (∀ c, head out = Some c → isWhiteSpace c = false)
  ∧ (∀ c, last out = Some c → isWhiteSpace c = false).
Proof.
  unfold sanitizeError. destruct (negb (truthy error)).
  - intros [= <-].
    change (lit "An unknown error occurred")
      with (sanitizeInput (VString (lit "An unknown error occurred"))).
    apply sanitized_output.
  - destruct (match error with JStr s => _ | _ => _ end) as [message|]; [|done].
    cbn [mbind option_bind]. intros H. apply (inj Some) in H. rewrite <- H.
    apply sanitized_output.
Qed.

Lemma sanitizeError_none (error : json) :
  sanitizeError error = None →
  ∃ m, getProp error (lit "message") = Value m ∧ truthy m = true ∧ ∀ s, m ≠ JStr s.
Proof.
  unfold sanitizeError. destruct (negb (truthy error)); [done|].
  destruct error as [|b|n|s|items|members]; try done.
  destruct (getProp (JObj members) (lit "message")) as [| |m]; try done.
  destruct (truthy m) eqn:Hm; [|done].
  destruct m; try done; intros _; eexists; (split; [reflexivity|]); by split.
Qed.

(** Whatever it is given, [sanitizeError] returns a text without any of the
    characters [sanitizeInput] escapes and without white space at its
    ends, or throws; it throws only when [error.message] holds something
    truthy that is not a string.  A falsy argument gives the text for an
    unknown error, anything else without a truthy message the text for an
    unexpected error, and an object with a message the same as the message
    itself. *)
Theorem sanitizeError_message (error : json) :
  match sanitizeError error with
  | Some out =>
      Forall (λ c, c ∉ escaped) out
      ∧ (∀ c, head out = Some c → isWhiteSpace c = false)
      ∧ (∀ c, last out = Some c → isWhiteSpace c = false)
  | None =>
      ∃ m, getProp error (lit "message") = Value m ∧ truthy m = true
           ∧ ∀ s, m ≠ JStr s
  end
  ∧ (truthy error = false →
     sanitizeError error = Some (lit "An unknown error occurred"))
  ∧ (truthy error = true → (∀ s, error ≠ JStr s) →
     falsy (getProp error (lit "message")) = true →
     sanitizeError error = Some (lit "An unexpected error occurred"))
  ∧ (∀ members message,
       error = JObj members →
       getProp error (lit "message") = Value (JStr message) → message ≠ [] →
       sanitizeError error = sanitizeError (JStr message)).
Proof.
  split; [|split; [|split]].
  - destruct (sanitizeError error) as [out|] eqn:E.
    + by apply (sanitizeError_some error).
    + by apply sanitizeError_none.
  - intros Ht. unfold sanitizeError. by rewrite Ht.
  - intros Ht Hs Hf. unfold sanitizeError. rewrite Ht. cbn [negb].
    destruct error as [|b|n|s|items|members].
    + discriminate Ht.
    + vm_compute. reflexivity.
    + vm_compute. reflexivity.
    + by destruct (Hs s).
    + vm_compute. reflexivity.
    + destruct (getProp (JObj members) (lit "message")) as [| |m].
      * vm_compute. reflexivity.
      * vm_compute. reflexivity.
      * cbn [falsy] in Hf. apply negb_true_iff in Hf. rewrite Hf.
        vm_compute. reflexivity.
  - intros members message -> Hm Hne. unfold sanitizeError. rewrite Hm.
    cbn [truthy negb]. by rewrite bool_decide_eq_false_2.
Qed.

End ErrorMessages.

(** ** The API service over the security service *)

Section SecuredKeys.
Import ApiService SecuredApiService.

Lemma validatedKey_openai (key : jsstring) :
  validatedKey (lit "openai") key = key.
Proof.
  unfold validatedKey.
  destruct (bool_decide (key = [])) eqn:E1; [done|].
  destruct (0 <? length (trim key))%nat eqn:E2; [|done].
  cbn [negb andb]. unfold validateApiKey. rewrite E1.
  assert (bool_decide (length (trim key) = 0%nat) = false) as ->.
  { apply bool_decide_eq_false_2. apply Nat.ltb_lt in E2. lia. }
  reflexivity.
Qed.

Lemma validatedKey_checked (c : Client) (pattern : KeyPattern) (key : jsstring) :
  (c, pattern) ∈ checkedClients →
  validatedKey (fieldOf c) key
  = if bool_decide (trim key = []) || test pattern (trim key) then key else [].
Proof.
  intros Hc. unfold validatedKey.
  destruct (decide (trim key = [])) as [Ht|Ht].
  { rewrite Ht. cbn [length Nat.ltb Nat.leb]. rewrite andb_false_r.
    by rewrite bool_decide_eq_true_2. }
  assert (Hk : key ≠ []) by (by intros ->).
  rewrite (bool_decide_eq_false_2 _ Hk), (bool_decide_eq_false_2 _ Ht).
  assert ((0 <? length (trim key))%nat = true) as ->
    by (apply Nat.ltb_lt; destruct (trim key); [done|simpl; lia]).
  cbn [negb andb orb]. unfold validateApiKey.
  rewrite (bool_decide_eq_false_2 _ Hk).
  assert (bool_decide (length (trim key) = 0%nat) = false) as ->
    by (apply bool_decide_eq_false_2; by destruct (trim key)).
  cbn [orb]. unfold checkedClients in Hc.
  repeat (apply elem_of_cons in Hc as [Hc|Hc];
          [injection Hc as -> ->; simpl; by destruct (test _ (trim key))|]).
  by apply elem_of_nil in Hc.
Qed.

Lemma built_ext (a b : APIService) : (∀ c, built c a = built c b) → a = b.
Proof.
  intros H. pose proof (H OpenAI). pose proof (H Anthropic).
  pose proof (H GoogleGenerativeAI). pose proof (H HfInference).
  pose proof (H MistralAI). destruct a, b; simpl in *. by subst.
Qed.

(** While no constructor throws, the clients are those of the keys,
    whatever they were before. *)
Lemma initializeClients_built (construct : Client → json → bool) (service : Service) :
  (∀ c, truthy (keyOf (apiKeys service) c) = true →
        construct c (keyOf (apiKeys service) c) = true) →
  ∀ c, built c (clients (initializeClients construct service))
       = truthy (keyOf (apiKeys service) c).
Proof.
  intros Hok c. unfold initializeClients. cbn [clients].
  apply (initialize_built truthy construct (keyOf (apiKeys service)));
    [apply allClients_NoDup|apply allClients_all|].
  intros c' _. apply Hok.
Qed.

Lemma keyOf_held (keys : APIKeys.t) (c : Client) :
  keyOf (held keys) c = JStr (keyFor keys c).
Proof. by destruct c. Qed.

Lemma keyFor_validatedKeys (keys : APIKeys.t) (c : Client) :
  keyFor (validatedKeys keys) c = validatedKey (fieldOf c) (keyFor keys c).
Proof. by destruct c. Qed.

Lemma updateKeys_service (construct : Client → json → bool) (keys : APIKeys.t)
    (service : Service) (ls : Storage) (now : Z) :
  (updateKeys construct keys service ls now).1
  = initializeClients construct
      {| apiKeys := held (validatedKeys keys); clients := clients service |}.
Proof. unfold updateKeys. by destruct (secureStore _ _ _ _). Qed.

(** [updateKeys] keeps the OpenAI key as it is given, whatever its format:
    under the field name [openai] the validation finds no pattern.  Of the
    four other keys it keeps those that are blank, spaces included, and
    those that match their pattern once trimmed, with the white space
    around them; any other is replaced by the empty string.  While no
    constructor throws, a client is built for every key kept that is not
    the empty string, so also for a key of spaces only. *)
Theorem updateKeys_validates (construct : Client → json → bool) (keys : APIKeys.t)
    (service : Service) (ls : Storage) (now : Z) :
  let updated := (updateKeys construct keys service ls now).1 in
  keyOf (apiKeys updated) OpenAI = JStr (keyFor keys OpenAI)
  ∧ (∀ c pattern,
       (c, pattern) ∈ checkedClients →
       keyOf (apiKeys updated) c
       = JStr (if bool_decide (trim (keyFor keys c) = [])
                  || test pattern (trim (keyFor keys c))
               then keyFor keys c else []))
  ∧ ((∀ c key, construct c key = true) →
     ∀ c, built c (clients updated) = truthy (keyOf (apiKeys updated) c)).
Proof.
  intros updated. unfold updated. rewrite updateKeys_service.
  split; [|split].
  - cbn [apiKeys initializeClients]. rewrite keyOf_held, keyFor_validatedKeys.
    by rewrite validatedKey_openai.
  - intros c pattern Hc. cbn [apiKeys initializeClients].
    rewrite keyOf_held, keyFor_validatedKeys. by rewrite (validatedKey_checked c pattern).
  - intros Hok c. by rewrite initializeClients_built.
Qed.

Lemma lookupMember_asObject (keys : HeldKeys.t) (c : Client) :
  lookupMember (fieldOf c) (map (λ c, (fieldOf c, keyOf keys c)) allClients)
  = Some (keyOf keys c).
Proof. by destruct c. Qed.

Lemma spread_asObject (current keys : HeldKeys.t) (c : Client) :
  spread current (asObject keys) c = keyOf keys c.
Proof. unfold spread, asObject. by rewrite lookupMember_asObject. Qed.

(** The keys come back: after an [updateKeys] whose write to the storage
    went through, [loadStoredKeys] in any service (so also in the one a new
    page load creates) gives the service [updateKeys] left, for 30 days;
    after that it loads nothing and removes the stored keys.  This is for
    constructors that do not throw and a clock that does not read 0. *)
Theorem updateKeys_loadStoredKeys (construct : Client → json → bool)
    (keys : APIKeys.t) (service other : Service) (ls ls' : Storage) (now now' : Z) :
  (∀ c key, construct c key = true) →
  now ≠ 0 →
  secureStore ls now (lit "llm-lab-api-keys") (asObject (held (validatedKeys keys)))
  = Some ls' →
  let updated := updateKeys construct keys service ls now in
  let loaded := loadStoredKeys construct other updated.2 now' in
  updated.2 = ls'
  ∧ (now' - now <= maxAge → loaded = (updated.1, ls'))
  ∧ (now' - now > maxAge →
     loaded = (other, removeItem ls' (lit "llm-lab-api-keys"))).
Proof.
  intros Hok Hnow Hstore updated loaded.
  assert (Hup : updated
                = (initializeClients construct
                     {| apiKeys := held (validatedKeys keys); clients := clients service |},
                   ls')).
  { unfold updated, updateKeys. cbn [apiKeys initializeClients]. by rewrite Hstore. }
  assert (Hload : secureRetrieve ls' now' (lit "llm-lab-api-keys")
                  = if now' - now >? maxAge
                    then (JNull, removeItem ls' (lit "llm-lab-api-keys"))
                    else (asObject (held (validatedKeys keys)), ls')).
  { apply secureStore_getItem in Hstore as (Hget & _ & _).
    by apply retrieve_sealed. }
  split; [by rewrite Hup|]. split.
  - intros Hage. unfold loaded. rewrite Hup. cbn [fst snd]. unfold loadStoredKeys.
    rewrite Hload. assert ((now' - now >? maxAge) = false) as -> by lia.
    cbn [truthy asObject]. f_equal.
    unfold initializeClients. cbn [apiKeys clients].
    rewrite !(spread_asObject (apiKeys other) (held (validatedKeys keys))).
    cbn [keyOf held]. f_equal. apply built_ext. intros c.
    rewrite !(initialize_built truthy construct _ allClients c
                allClients_NoDup (allClients_all c)); [done|by intros|by intros].
  - intros Hage. unfold loaded. rewrite Hup. cbn [fst snd]. unfold loadStoredKeys.
    rewrite Hload. by assert ((now' - now >? maxAge) = true) as -> by lia.
Qed.

Lemma updateKeys_loadStoredKeys_witness :
  let construct := λ (_ : Client) (_ : json), true in
  let keys := {| APIKeys.openai := lit "sk-test"; APIKeys.anthropic := lit "invalid";
                 APIKeys.google := []; APIKeys.huggingface := [];
                 APIKeys.mistral := lit " " |} in
  let fresh := {| apiKeys := held {| APIKeys.openai := []; APIKeys.anthropic := [];
                                     APIKeys.google := []; APIKeys.huggingface := [];
                                     APIKeys.mistral := [] |};
                  clients := Doubles.noneConfigured |} in
  let ls := {| items := ∅; quota := 1000 |} in
  ∃ ls',
    secureStore ls 1700000000000 (lit "llm-lab-api-keys")
      (asObject (held (validatedKeys keys))) = Some ls'
    ∧ getConfiguredProviders
        (clients (loadStoredKeys construct fresh
                    (updateKeys construct keys fresh ls 1700000000000).2
                    1700000000001).1)
      = [lit "OpenAI"; lit "Mistral AI"].
Proof.
  intros construct keys fresh ls. eexists.
  assert (Hok : ∀ c key, construct c key = true) by done.
  assert (Hnow : 1700000000000 ≠ 0) by lia.
  assert (Hs : secureStore ls 1700000000000 (lit "llm-lab-api-keys")
                 (asObject (held (validatedKeys keys))) = Some _)
    by (vm_compute; reflexivity).
  split; [exact Hs|].
  pose proof (proj1 (proj2 (updateKeys_loadStoredKeys construct keys fresh fresh ls _
                              1700000000000 1700000000001 Hok Hnow Hs))) as H.
  rewrite H by (unfold maxAge; lia).
  reflexivity.
Defined.

(** [loadStoredKeys] validates nothing.  Whatever object lies in the
    storage under a seal that fits and is not too old, each of its members
    that has the name of a key replaces that key, a string or not and of
    any format, and the keys it does not name stay as they are; the storage
    is not changed.  The record is [plain]: its member names are distinct
    and none a number, its numbers integers of at most 2^53, so that the
    language reads it as it is written. *)
Theorem loadStoredKeys_unvalidated (construct : Client → json → bool)
    (service : Service) (ls : Storage) (now now' : Z)
    (members : list (jsstring * json)) :
  now ≠ 0 →
  now' - now <= maxAge →
  plain (sealed now (JObj members)) = true →
  getItem ls (lit "llm-lab-api-keys") = Some (JSON_stringify (sealed now (JObj members))) →
  let loaded := loadStoredKeys construct service ls now' in
  loaded.2 = ls
  ∧ ∀ c, keyOf (apiKeys loaded.1) c
         = default (keyOf (apiKeys service) c) (lookupMember (fieldOf c) members).
Proof.
  intros Hnow Hage _ Hget loaded. unfold loaded, loadStoredKeys.
  rewrite (retrieve_sealed ls now now' _ (JObj members)) by done.
  assert ((now' - now >? maxAge) = false) as -> by lia.
  cbn [truthy fst snd]. split; [done|]. intros c. by destruct c.
Qed.

Lemma loadStoredKeys_unvalidated_witness :
  let construct := λ (_ : Client) (_ : json), true in
  let fresh := {| apiKeys := held {| APIKeys.openai := lit "sk-env"; APIKeys.anthropic := [];
                                     APIKeys.google := []; APIKeys.huggingface := [];
                                     APIKeys.mistral := [] |};
                  clients := Doubles.noneConfigured |} in
  let members := [(lit "anthropic", JStr (lit "invalid")); (lit "mistral", JNum 5)] in
  let ls := {| items := {[ lit "llm-lab-api-keys"
                           := JSON_stringify (sealed 1700000000000 (JObj members)) ]};
               quota := 1000 |} in
  let loaded := loadStoredKeys construct fresh ls 1700000000001 in
  1700000000000 ≠ 0
  ∧ 1700000000001 - 1700000000000 <= maxAge
  ∧ plain (sealed 1700000000000 (JObj members)) = true
  ∧ keyOf (apiKeys loaded.1) OpenAI = JStr (lit "sk-env")
  ∧ keyOf (apiKeys loaded.1) Anthropic = JStr (lit "invalid")
  ∧ keyOf (apiKeys loaded.1) MistralAI = JNum 5.
Proof.
  intros construct fresh members ls loaded.
  assert (Hnow : 1700000000000 ≠ 0) by lia.
  assert (Hage : 1700000000001 - 1700000000000 <= maxAge) by (unfold maxAge; lia).
  assert (Hget : getItem ls (lit "llm-lab-api-keys")
                 = Some (JSON_stringify (sealed 1700000000000 (JObj members))))
    by apply lookup_singleton_eq.
  assert (Hplain : plain (sealed 1700000000000 (JObj members)) = true)
    by (vm_compute; reflexivity).
  pose proof (proj2 (loadStoredKeys_unvalidated construct fresh ls 1700000000000
                       1700000000001 members Hnow Hage Hplain Hget)) as H.
  split; [exact Hnow|]. split; [exact Hage|]. split; [exact Hplain|].
  split; [exact (H OpenAI)|]. split; [exact (H Anthropic)|exact (H MistralAI)].
Defined.

(** After [clearAllApiKeys] no provider is configured, the storage holds
    no keys any more, so that [loadStoredKeys] changes nothing at any later
    time, and the rate limits are cleared; no constructor is called. *)
Theorem clearAllApiKeys_clears (construct : Client → json → bool) (service : Service)
    (ls : Storage) (rateLimits : gmap jsstring RateLimit) :
  let cleared := clearAllApiKeys construct service ls rateLimits in
  getConfiguredProviders (clients cleared.1) = []
  ∧ (∀ c, keyOf (apiKeys cleared.1) c = JStr [])
  ∧ (∀ now, loadStoredKeys construct cleared.1 cleared.2.1 now = (cleared.1, cleared.2.1))
  ∧ cleared.2.2 = ∅.
Proof.
  intros cleared. split; [|split; [|split]].
  - apply getConfiguredProviders_nil. intros c.
    unfold cleared, clearAllApiKeys. cbn [fst].
    rewrite initializeClients_built; [by destruct c|]. intros c'. by destruct c'.
  - intros c. by destruct c.
  - intros now. unfold loadStoredKeys.
    assert (Hnone : secureRetrieve cleared.2.1 now (lit "llm-lab-api-keys")
                    = (JNull, cleared.2.1)).
    { unfold cleared, clearAllApiKeys, clearAllSecurityData, secureRetrieve, getItem,
        removeItem. cbn [fst snd items].
      rewrite lookup_delete_ne by done. by rewrite lookup_delete_eq. }
    by rewrite Hnone.
  - done.
Qed.

End SecuredKeys.
